(** * Lightning Web Components: compiled templates, compiled stylesheets and
      the patched custom-element registry

    The development follows three pieces of the repository:

    - the compiled stylesheet function (scoping token to selector suffixes);
    - the patched [CustomElementRegistry] of
      [packages/@lwc/engine-dom/src/patches/global-registry.ts], a state
      machine over a handful of shared tables;
    - the generated render functions recorded as golden fixtures of the
      template compiler, run against the runtime API handed to them.  *)

From Stdlib Require Import String Ascii List Bool Arith ZArith Lia.
From Stdlib Require Import DecimalString DecimalNat.
From stdpp Require Import base option gmap strings list.

Local Open Scope string_scope.

(** ** JavaScript truthiness of the few value shapes the sources test *)

Module Js.

(** [s ? a : b] on a string: only the empty string is falsy. *)
Definition truthy_string (s : string) : bool :=
  match s with
  | EmptyString => false
  | String _ _ => true
  end.

(** An optional string ([undefined] or a string). *)
Definition truthy_opt_string (o : option string) : bool :=
  match o with
  | None => false
  | Some s => truthy_string s
  end.

(** The double-quote character, for the texts that contain it. *)
Definition dq : string := String (ascii_of_nat 34) EmptyString.

End Js.

(** ** The compiled stylesheet function *)

Module Stylesheet.

(** [var shadowSelector = token ? ("[" + token + "]") : "";] *)
Definition shadowSelector (token : option string) : string :=
  match token with
  | Some t => if Js.truthy_string t then "[" ++ t ++ "]" else ""
  | None => ""
  end.

(** [var hostSelector = token ? ("[" + token + "-host]") : "";] *)
Definition hostSelector (token : option string) : string :=
  match token with
  | Some t => if Js.truthy_string t then "[" ++ t ++ "-host]" else ""
  | None => ""
  end.

(** [return shadowSelector + "::after {}h1" + shadowSelector + "::before {}";] *)
Definition stylesheet (token : option string)
    (useActualHostSelector useNativeDirPseudoclass : bool) : string :=
  let shadowSelector := shadowSelector token in
  let hostSelector := hostSelector token in
  shadowSelector ++ "::after {}h1" ++ shadowSelector ++ "::before {}".

End Stylesheet.

(** ** The patched custom-element registry
    ([packages/@lwc/engine-dom/src/patches/global-registry.ts]) *)

Module Registry.

(** Identity of a custom-element constructor: a class written by a user, or
    a [PivotCtor] class made by [createPivotingClass]. *)
Inductive Ctor : Type :=
| UserClass (n : positive)
| PivotClass (n : positive).

Global Instance Ctor_eq_dec : EqDecision Ctor.
Proof. solve_decision. Defined.

Global Instance Ctor_countable : Countable Ctor :=
  inj_countable'
    (fun c => match c with UserClass n => inl n | PivotClass n => inr n end)
    (fun s => match s with inl n => UserClass n | inr n => PivotClass n end)
    (fun c => match c with UserClass _ => eq_refl | PivotClass _ => eq_refl end).

(** Identities of DOM element instances, of [Definition] objects, of the
    promises made by [whenDefined], and of callback functions. *)
Abbreviation Element := positive (only parsing).
Abbreviation DefRef := positive (only parsing).
Abbreviation PromiseRef := positive (only parsing).
Abbreviation Callback := positive (only parsing).

(** [interface Definition] (the name is a keyword here).  The object is
    shared by reference between the tables and [PivotCtor] is assigned after
    creation, so the records live in a heap and the tables hold references. *)
Record DefinitionRecord : Type := mkDefinition {
  UserCtor : Ctor;
  PivotCtor : option Ctor;
  connectedCallback : option Callback;
  disconnectedCallback : option Callback;
  adoptedCallback : option Callback;
  attributeChangedCallback : option Callback;
  observedAttributes : list string;
}.

Definition withPivotCtor (P : Ctor) (d : DefinitionRecord) : DefinitionRecord :=
  mkDefinition (UserCtor d) (Some P) (connectedCallback d)
    (disconnectedCallback d) (adoptedCallback d)
    (attributeChangedCallback d) (observedAttributes d).

(** What the registry reads off a constructor object. *)
Record ClassInfo : Type := mkClassInfo {
  (** [constructor && constructor.prototype &&
      typeof constructor.prototype === 'object'] *)
  hasObjectPrototype : bool;
  protoConnectedCallback : option Callback;
  protoDisconnectedCallback : option Callback;
  protoAdoptedCallback : option Callback;
  protoAttributeChangedCallback : option Callback;
  (** [constructor.observedAttributes], when the class has the static *)
  staticObservedAttributes : option (list string);
}.

(** The closure of one [PivotCtor] class. *)
Record PivotInfo : Type := mkPivotInfo {
  pivotTagName : string;
  registeredDefinition : DefRef;
  pivotObservedAttributes : list string;
}.

(** What a call may throw.  [UserThrown] is whatever user code throws;
    [Dangling] is a read through a reference with no record on the heap,
    which the tables of shape [wf] below never hold. *)
Inductive Exn : Type :=
| DOMException (message : string)
| TypeError (message : string)
| Error (message : string)
| UserThrown (what : string)
| Dangling.

(** [ElementDefinitionOptions] *)
Record ElementDefinitionOptions : Type := mkOptions {
  extends : option string;
}.

(** The module-level tables, the heap of [Definition] objects, the promises
    created by [whenDefined], and the native registry underneath.  The
    per-element tables and [awaitingUpgrade] are filled by the lifecycle
    callbacks of the pivot classes, which are not followed here: the
    statements below hold whatever these tables contain. *)
Record State : Type := mkState {
  heap : gmap DefRef DefinitionRecord;
  definitionForElement : gmap Element DefRef;
  pendingRegistryForElement : gmap Element DefRef;
  definitionForConstructor : gmap Ctor DefRef;
  pivotCtorByTag : gmap string Ctor;
  definitionsByTag : gmap string DefRef;
  definitionsByClass : gmap Ctor DefRef;
  definedPromises : gmap string PromiseRef;
  definedResolvers : gmap string PromiseRef;
  awaitingUpgrade : gmap string (list Element);
  promises : gmap PromiseRef (option Ctor);
  pivotClasses : gmap positive PivotInfo;
  nativeDefinitions : gmap string Ctor;
  registryPatched : bool;
}.

Definition initial (native : gmap string Ctor) : State :=
  mkState ∅ ∅ ∅ ∅ ∅ ∅ ∅ ∅ ∅ ∅ ∅ ∅ native false.

Definition set_heap (f : gmap DefRef DefinitionRecord -> gmap DefRef DefinitionRecord) (s : State) : State :=
  mkState (f (heap s)) (definitionForElement s) (pendingRegistryForElement s)
    (definitionForConstructor s) (pivotCtorByTag s) (definitionsByTag s)
    (definitionsByClass s) (definedPromises s) (definedResolvers s)
    (awaitingUpgrade s) (promises s) (pivotClasses s) (nativeDefinitions s)
    (registryPatched s).

Definition set_definitionForElement (f : gmap Element DefRef -> gmap Element DefRef) (s : State) : State :=
  mkState (heap s) (f (definitionForElement s)) (pendingRegistryForElement s)
    (definitionForConstructor s) (pivotCtorByTag s) (definitionsByTag s)
    (definitionsByClass s) (definedPromises s) (definedResolvers s)
    (awaitingUpgrade s) (promises s) (pivotClasses s) (nativeDefinitions s)
    (registryPatched s).

Definition set_pendingRegistryForElement (f : gmap Element DefRef -> gmap Element DefRef) (s : State) : State :=
  mkState (heap s) (definitionForElement s) (f (pendingRegistryForElement s))
    (definitionForConstructor s) (pivotCtorByTag s) (definitionsByTag s)
    (definitionsByClass s) (definedPromises s) (definedResolvers s)
    (awaitingUpgrade s) (promises s) (pivotClasses s) (nativeDefinitions s)
    (registryPatched s).

Definition set_definitionForConstructor (f : gmap Ctor DefRef -> gmap Ctor DefRef) (s : State) : State :=
  mkState (heap s) (definitionForElement s) (pendingRegistryForElement s)
    (f (definitionForConstructor s)) (pivotCtorByTag s) (definitionsByTag s)
    (definitionsByClass s) (definedPromises s) (definedResolvers s)
    (awaitingUpgrade s) (promises s) (pivotClasses s) (nativeDefinitions s)
    (registryPatched s).

Definition set_pivotCtorByTag (f : gmap string Ctor -> gmap string Ctor) (s : State) : State :=
  mkState (heap s) (definitionForElement s) (pendingRegistryForElement s)
    (definitionForConstructor s) (f (pivotCtorByTag s)) (definitionsByTag s)
    (definitionsByClass s) (definedPromises s) (definedResolvers s)
    (awaitingUpgrade s) (promises s) (pivotClasses s) (nativeDefinitions s)
    (registryPatched s).

Definition set_definitionsByTag (f : gmap string DefRef -> gmap string DefRef) (s : State) : State :=
  mkState (heap s) (definitionForElement s) (pendingRegistryForElement s)
    (definitionForConstructor s) (pivotCtorByTag s) (f (definitionsByTag s))
    (definitionsByClass s) (definedPromises s) (definedResolvers s)
    (awaitingUpgrade s) (promises s) (pivotClasses s) (nativeDefinitions s)
    (registryPatched s).

Definition set_definitionsByClass (f : gmap Ctor DefRef -> gmap Ctor DefRef) (s : State) : State :=
  mkState (heap s) (definitionForElement s) (pendingRegistryForElement s)
    (definitionForConstructor s) (pivotCtorByTag s) (definitionsByTag s)
    (f (definitionsByClass s)) (definedPromises s) (definedResolvers s)
    (awaitingUpgrade s) (promises s) (pivotClasses s) (nativeDefinitions s)
    (registryPatched s).

Definition set_definedPromises (f : gmap string PromiseRef -> gmap string PromiseRef) (s : State) : State :=
  mkState (heap s) (definitionForElement s) (pendingRegistryForElement s)
    (definitionForConstructor s) (pivotCtorByTag s) (definitionsByTag s)
    (definitionsByClass s) (f (definedPromises s)) (definedResolvers s)
    (awaitingUpgrade s) (promises s) (pivotClasses s) (nativeDefinitions s)
    (registryPatched s).

Definition set_definedResolvers (f : gmap string PromiseRef -> gmap string PromiseRef) (s : State) : State :=
  mkState (heap s) (definitionForElement s) (pendingRegistryForElement s)
    (definitionForConstructor s) (pivotCtorByTag s) (definitionsByTag s)
    (definitionsByClass s) (definedPromises s) (f (definedResolvers s))
    (awaitingUpgrade s) (promises s) (pivotClasses s) (nativeDefinitions s)
    (registryPatched s).

Definition set_awaitingUpgrade (f : gmap string (list Element) -> gmap string (list Element)) (s : State) : State :=
  mkState (heap s) (definitionForElement s) (pendingRegistryForElement s)
    (definitionForConstructor s) (pivotCtorByTag s) (definitionsByTag s)
    (definitionsByClass s) (definedPromises s) (definedResolvers s)
    (f (awaitingUpgrade s)) (promises s) (pivotClasses s) (nativeDefinitions s)
    (registryPatched s).

Definition set_promises (f : gmap PromiseRef (option Ctor) -> gmap PromiseRef (option Ctor)) (s : State) : State :=
  mkState (heap s) (definitionForElement s) (pendingRegistryForElement s)
    (definitionForConstructor s) (pivotCtorByTag s) (definitionsByTag s)
    (definitionsByClass s) (definedPromises s) (definedResolvers s)
    (awaitingUpgrade s) (f (promises s)) (pivotClasses s) (nativeDefinitions s)
    (registryPatched s).

Definition set_pivotClasses (f : gmap positive PivotInfo -> gmap positive PivotInfo) (s : State) : State :=
  mkState (heap s) (definitionForElement s) (pendingRegistryForElement s)
    (definitionForConstructor s) (pivotCtorByTag s) (definitionsByTag s)
    (definitionsByClass s) (definedPromises s) (definedResolvers s)
    (awaitingUpgrade s) (promises s) (f (pivotClasses s)) (nativeDefinitions s)
    (registryPatched s).

Definition set_nativeDefinitions (f : gmap string Ctor -> gmap string Ctor) (s : State) : State :=
  mkState (heap s) (definitionForElement s) (pendingRegistryForElement s)
    (definitionForConstructor s) (pivotCtorByTag s) (definitionsByTag s)
    (definitionsByClass s) (definedPromises s) (definedResolvers s)
    (awaitingUpgrade s) (promises s) (pivotClasses s) (f (nativeDefinitions s))
    (registryPatched s).

Definition set_registryPatched (b : bool) (s : State) : State :=
  mkState (heap s) (definitionForElement s) (pendingRegistryForElement s)
    (definitionForConstructor s) (pivotCtorByTag s) (definitionsByTag s)
    (definitionsByClass s) (definedPromises s) (definedResolvers s)
    (awaitingUpgrade s) (promises s) (pivotClasses s) (nativeDefinitions s) b.

(** *** Computations that read and write the tables and may throw.
    A throw keeps the writes made before it, as in JavaScript. *)

Definition M (A : Type) : Type := State -> (Exn + A) * State.

Definition ret {A} (a : A) : M A := fun s => (inr a, s).

Definition bind {A B} (m : M A) (k : A -> M B) : M B :=
  fun s => match m s with
           | (inl e, s') => (inl e, s')
           | (inr a, s') => k a s'
           end.

Definition throw {A} (e : Exn) : M A := fun s => (inl e, s).
Definition gets {A} (f : State -> A) : M A := fun s => (inr (f s), s).
Definition modify (f : State -> State) : M unit := fun s => (inr tt, f s).

Global Instance M_ret : MRet M := @ret.
Global Instance M_bind : MBind M := fun A B k m => bind m k.

Fixpoint forEach {A} (f : A -> M unit) (l : list A) : M unit :=
  match l with
  | [] => ret tt
  | x :: l' => f x;; forEach f l'
  end.

(** [String.prototype.toLowerCase] on the ASCII letters (the strings of this
    development are byte strings). *)
Definition lower_ascii (c : ascii) : ascii :=
  let n := nat_of_ascii c in
  if (65 <=? n)%nat && (n <=? 90)%nat then ascii_of_nat (n + 32) else c.

Fixpoint toLowerCase (s : string) : string :=
  match s with
  | EmptyString => EmptyString
  | String c s' => String (lower_ascii c) (toLowerCase s')
  end.

Definition extendsMessage : string :=
  "NotSupportedError: " ++ Js.dq ++ "extends" ++ Js.dq
  ++ " key in customElements.define() options is not supported.".

Definition nameUsedMessage (tagName : string) : string :=
  "Failed to execute 'define' on 'CustomElementRegistry': the name "
  ++ Js.dq ++ tagName ++ Js.dq ++ " has already been used with this registry".

Definition ctorUsedMessage : string :=
  "Failed to execute 'define' on 'CustomElementRegistry': this constructor has already been used with this registry".

Definition patchedTwiceMessage : string :=
  "patchCustomElementRegistry was called twice in the same JavaScript environment. "
  ++ "Please ensure you are loading the LWC engine only once. "
  ++ "If this is a Jest environment, check your Jest/JSDOM configuration.".

(** How a promise handed out by [whenDefined] stands. *)
Inductive Settlement : Type :=
| Fulfilled (c : Ctor)
| Rejected (e : Exn)
| PendingNative
| PendingOn (p : PromiseRef).

(** The elements of [new Set(l)] in insertion order: every name once, at
    the place where it comes first. *)
Fixpoint setOf (l : list string) : list string :=
  match l with
  | [] => []
  | x :: l' => x :: filter (fun y => y <> x) (setOf l')
  end.

Section Patched.

(** The host: what each constructor object looks like, which names the
    native registry takes for valid custom element names, on which names the
    native [get] throws, and whether running a user class over an element
    being upgraded ([new UserCtor()] and the replay of
    [attributeChangedCallback]) throws.  User code is taken not to call back
    into the registry. *)
Variable classOf : Ctor -> ClassInfo.
Variable validName : string -> bool.
Variable getRejects : string -> bool.
Variable userUpgrade : Ctor -> Element -> option Exn.

Definition deref (r : DefRef) : M DefinitionRecord :=
  fun s => match heap s !! r with
           | Some d => (inr d, s)
           | None => (inl Dangling, s)
           end.

(** *** The native registry *)

(** [nativeGet.call(this, tagName)].  The call in [define] is there for its
    exception, "SyntaxError if The provided name is not a valid custom
    element name"; the names on which the host throws are [getRejects]. *)
Definition nativeGet (tagName : string) : M (option Ctor) :=
  if getRejects tagName then throw (DOMException "SyntaxError")
  else gets (fun s => nativeDefinitions s !! tagName).

(** [nativeDefine.call(nativeRegistry, tagName, PivotCtor)]: rejects an
    invalid name and a name already defined.  (The constructors passed here
    are pivot classes made for the call, so the native check on a reused
    constructor cannot fire.  The upgrade of elements already in the
    document, which runs the pivot constructor on each, writes per-element
    tables only and is left out.) *)
Definition nativeDefine (tagName : string) (C : Ctor) : M unit :=
  if validName tagName then
    d ← gets (fun s => nativeDefinitions s !! tagName);
    match d with
    | Some _ => throw (DOMException "NotSupportedError")
    | None => modify (set_nativeDefinitions <[tagName := C]>)
    end
  else throw (DOMException "SyntaxError").

(** How the promise of the native [whenDefined] stands. *)
Inductive NativePromise : Type :=
| NativeRejected (e : Exn)
| NativeResolved
| NativePending.

(** [nativeWhenDefined.call(this, tagName)] *)
Definition nativeWhenDefined (tagName : string) (s : State) : NativePromise :=
  if validName tagName then
    match nativeDefinitions s !! tagName with
    | Some _ => NativeResolved
    | None => NativePending
    end
  else NativeRejected (DOMException "SyntaxError").

(** *** The module *)

(** [createDefinitionRecord], with
    [new Set(constructor.observedAttributes ?? [])]. *)
Definition createDefinitionRecord (constructor : Ctor) : DefinitionRecord :=
  let c := classOf constructor in
  mkDefinition constructor None
    (protoConnectedCallback c) (protoDisconnectedCallback c)
    (protoAdoptedCallback c) (protoAttributeChangedCallback c)
    (setOf (default [] (staticObservedAttributes c))).

(** [createPivotingClass]: a new class that closes over the tag name and the
    registered definition, recorded in [pivotCtorByTag]. *)
Definition createPivotingClass (tagName : string) (registeredDefinition : DefRef) : M Ctor :=
  d ← deref registeredDefinition;
  n ← gets (fun s => fresh (dom (pivotClasses s)));
  modify (set_pivotClasses
            <[n := mkPivotInfo tagName registeredDefinition (observedAttributes d)]>);;
  modify (set_pivotCtorByTag <[tagName := PivotClass n]>);;
  mret (PivotClass n).

(** The writes of [internalUpgrade] to the tables, then the user class run
    over the instance.  The prototype swap and the attribute patches act on
    the instance alone. *)
Definition internalUpgrade (instance : Element)
    (registeredDefinition instancedDefinition : DefRef) : M unit :=
  d ← deref instancedDefinition;
  modify (set_definitionForElement <[instance := instancedDefinition]>);;
  match userUpgrade (UserCtor d) instance with
  | Some e => throw e
  | None => mret tt
  end.

(** [getDefinitionForConstructor]: the record kept for the constructor, made
    on first use. *)
Definition getDefinitionForConstructor (constructor : Ctor) : M DefRef :=
  if hasObjectPrototype (classOf constructor) then
    definition ← gets (fun s => definitionForConstructor s !! constructor);
    match definition with
    | Some r => mret r
    | None =>
        r ← gets (fun s => fresh (dom (heap s)));
        modify (set_heap <[r := createDefinitionRecord constructor]>);;
        modify (set_definitionForConstructor <[constructor := r]>);;
        mret r
    end
  else throw (TypeError "The referenced constructor is not a constructor.").

(** The guard at the head of [patchCustomElementRegistry]. *)
Definition patchCustomElementRegistry : M unit :=
  patched ← gets registryPatched;
  if (patched : bool) then throw (Error patchedTwiceMessage)
  else modify (set_registryPatched true).

(** [options && options.extends] *)
Definition extendsGiven (options : option ElementDefinitionOptions) : bool :=
  match options with
  | Some o => Js.truthy_opt_string (extends o)
  | None => false
  end.

(** The body of the loop over [awaiting] in [define]. *)
Definition upgradeAwaiting (definition : DefRef) (element : Element) : M unit :=
  registeredDefinition ← gets (fun s => pendingRegistryForElement s !! element);
  match registeredDefinition with
  | Some r =>
      modify (set_pendingRegistryForElement (delete element));;
      internalUpgrade element r definition
  | None => mret tt
  end.

(** [resolver(constructor)]: settles the promise the resolver was made for,
    unless it is settled already. *)
Definition resolve (p : PromiseRef) (constructor : Ctor) : M unit :=
  modify (set_promises (fun ps =>
    match ps !! p with
    | Some (Some _) => ps
    | _ => <[p := Some constructor]> ps
    end)).

(** [CustomElementRegistry.prototype.define] *)
Definition define (tagName : string) (constructor : Ctor)
    (options : option ElementDefinitionOptions) : M unit :=
  if extendsGiven options then throw (DOMException extendsMessage)
  else
    nativeGet tagName;;
    let tagName := toLowerCase tagName in
    byTag ← gets (fun s => definitionsByTag s !! tagName);
    match byTag with
    | Some _ => throw (DOMException (nameUsedMessage tagName))
    | None =>
        definition ← getDefinitionForConstructor constructor;
        byClass ← gets (fun s => definitionsByClass s !! constructor);
        match byClass with
        | Some _ => throw (DOMException ctorUsedMessage)
        | None =>
            modify (set_definitionsByTag <[tagName := definition]>);;
            modify (set_definitionsByClass <[constructor := definition]>);;
            existing ← gets (fun s => pivotCtorByTag s !! tagName);
            PivotCtor ← match existing with
                        | Some P => mret P
                        | None =>
                            P ← createPivotingClass tagName definition;
                            nativeDefine tagName P;;
                            mret P
                        end;
            modify (set_heap (alter (withPivotCtor PivotCtor) definition));;
            awaiting ← gets (fun s => awaitingUpgrade s !! tagName);
            match awaiting with
            | Some elements =>
                modify (set_awaitingUpgrade (delete tagName));;
                forEach (upgradeAwaiting definition) elements
            | None => mret tt
            end;;
            resolver ← gets (fun s => definedResolvers s !! tagName);
            match resolver with
            | Some p => resolve p constructor
            | None => mret tt
            end
        end
    end.

(** [CustomElementRegistry.prototype.get]:
    [nativeGet.call(this, tagName) && definitionsByTag.get(tagName)?.UserCtor] *)
Definition get (tagName : string) : M (option Ctor) :=
  native ← nativeGet tagName;
  match native with
  | None => mret None
  | Some _ =>
      byTag ← gets (fun s => definitionsByTag s !! tagName);
      match byTag with
      | None => mret None
      | Some r => d ← deref r; mret (Some (UserCtor d))
      end
  end.

(** What the callback given to [then] returns: a constructor, or the
    promise kept for the name. *)
Definition whenDefinedCallback (tagName : string) : M (Ctor + PromiseRef) :=
  promise ← gets (fun s => definedPromises s !! tagName);
  match promise with
  | Some p => mret (inr p)
  | None =>
      definition ← gets (fun s => definitionsByTag s !! tagName);
      match definition with
      | Some r => d ← deref r; mret (inl (UserCtor d))
      | None =>
          p ← gets (fun s => fresh (dom (promises s)));
          modify (set_promises <[p := None]>);;
          modify (set_definedPromises <[tagName := p]>);;
          modify (set_definedResolvers <[tagName := p]>);;
          mret (inr p)
      end
  end.

(** [CustomElementRegistry.prototype.whenDefined]: the callback runs once
    the native promise is fulfilled, on the tables as they are then; for a
    name the native registry has already defined that is the state of the
    call.  The result is how the returned promise stands. *)
Definition whenDefined (tagName : string) (s : State) : Settlement * State :=
  match nativeWhenDefined tagName s with
  | NativeRejected e => (Rejected e, s)
  | NativePending => (PendingNative, s)
  | NativeResolved =>
      match whenDefinedCallback tagName s with
      | (inl e, s') => (Rejected e, s')
      | (inr (inl c), s') => (Fulfilled c, s')
      | (inr (inr p), s') =>
          match promises s' !! p with
          | Some (Some c) => (Fulfilled c, s')
          | _ => (PendingOn p, s')
          end
      end
  end.

(** The function [patchCustomElementRegistry] returns, with which LWC
    registers a name and obtains its pivot constructor. *)
Definition definePivot (tagName : string) (constructor : Ctor) : M Ctor :=
  let tagName := toLowerCase tagName in
  existing ← gets (fun s => pivotCtorByTag s !! tagName);
  match existing with
  | Some P => mret P
  | None =>
      definition ← getDefinitionForConstructor constructor;
      P ← createPivotingClass tagName definition;
      modify (set_definitionsByTag <[tagName := definition]>);;
      modify (set_definitionsByClass <[constructor := definition]>);;
      nativeDefine tagName P;;
      mret P
  end.

(** The shape the tables keep: every record reached through
    [definitionForConstructor] belongs to its constructor; a constructor in
    [definitionsByClass] went through [getDefinitionForConstructor]; the
    definition of a name is the record of a constructor; the names with a
    pivot class are
    the names with a definition; a promise is kept only for a name the
    native registry has defined. *)
Record wf (s : State) : Prop := mkWf {
  wf_ctor_def : forall c r, definitionForConstructor s !! c = Some r ->
    exists d, heap s !! r = Some d /\ UserCtor d = c;
  wf_class_ctor : forall c r, definitionsByClass s !! c = Some r ->
    definitionForConstructor s !! c = Some r /\
    hasObjectPrototype (classOf c) = true;
  wf_tag_ctor : forall t r, definitionsByTag s !! t = Some r ->
    exists c, definitionForConstructor s !! c = Some r;
  wf_pivot_tag : forall t P, pivotCtorByTag s !! t = Some P ->
    is_Some (definitionsByTag s !! t);
  wf_tag_pivot : forall t r, definitionsByTag s !! t = Some r ->
    is_Some (pivotCtorByTag s !! t);
  wf_promise_native : forall t p, definedPromises s !! t = Some p ->
    is_Some (nativeDefinitions s !! t);
}.

End Patched.

(** The tables that [define], [get] and [whenDefined] decide on. *)
Definition tables (s : State) :=
  (heap s, definitionForConstructor s, pivotCtorByTag s, definitionsByTag s,
   definitionsByClass s, definedPromises s, nativeDefinitions s).

(** The calls of the patched API, and a run of several of them. *)
Inductive Call : Type :=
| CallDefine (tagName : string) (constructor : Ctor)
    (options : option ElementDefinitionOptions)
| CallGet (tagName : string)
| CallWhenDefined (tagName : string)
| CallDefinePivot (tagName : string) (constructor : Ctor).

Definition call (classOf : Ctor -> ClassInfo) (validName getRejects : string -> bool)
    (userUpgrade : Ctor -> Element -> option Exn) (k : Call) (s : State) : State :=
  match k with
  | CallDefine t c o =>
      snd (define classOf validName getRejects userUpgrade t c o s)
  | CallGet t => snd (get getRejects t s)
  | CallWhenDefined t => snd (whenDefined validName t s)
  | CallDefinePivot t c => snd (definePivot classOf validName t c s)
  end.

Definition calls (classOf : Ctor -> ClassInfo) (validName getRejects : string -> bool)
    (userUpgrade : Ctor -> Element -> option Exn) (ks : list Call) (s : State) : State :=
  fold_left (fun s k => call classOf validName getRejects userUpgrade k s) ks s.

(** What no call takes back: the definition of a name, the constructor a
    record belongs to, the native definition and the pivot class of a name,
    and, for a name with a definition, the promise kept for it or its
    absence.  The constructors that get a record are among [X]. *)
Record grows (X : Ctor -> Prop) (s s' : State) : Prop := mkGrows {
  grows_tag : forall t r, definitionsByTag s !! t = Some r ->
    definitionsByTag s' !! t = Some r;
  grows_heap : forall r d, heap s !! r = Some d ->
    exists d', heap s' !! r = Some d' /\ UserCtor d' = UserCtor d;
  grows_native : forall t P, nativeDefinitions s !! t = Some P ->
    nativeDefinitions s' !! t = Some P;
  grows_pivot : forall t P, pivotCtorByTag s !! t = Some P ->
    pivotCtorByTag s' !! t = Some P;
  grows_promise : forall t, is_Some (definitionsByTag s !! t) ->
    definedPromises s' !! t = definedPromises s !! t;
  grows_ctor : forall c r, definitionForConstructor s' !! c = Some r ->
    definitionForConstructor s !! c = Some r \/ X c;
}.

(** The constructor a call hands to the registry, if any. *)
Definition callCtor (k : Call) : option Ctor :=
  match k with
  | CallDefine _ c _ | CallDefinePivot _ c => Some c
  | CallGet _ | CallWhenDefined _ => None
  end.

(** A host to run the registry on: every constructor is a plain class
    without callbacks, a name is valid when it is in lower case and has a
    hyphen, and user constructors do not throw.  The native [get] is the one
    of the HTML standard: the constructor held under the name, or
    [undefined]; it throws on no name. *)
Module Host.

Definition classOf (c : Ctor) : ClassInfo :=
  mkClassInfo true None None None None None.

Fixpoint hasHyphen (s : string) : bool :=
  match s with
  | EmptyString => false
  | String c s' => (nat_of_ascii c =? 45)%nat || hasHyphen s'
  end.

Definition validName (s : string) : bool :=
  String.eqb (toLowerCase s) s && hasHyphen s.

Definition getRejects (s : string) : bool := false.

Definition userUpgrade (c : Ctor) (e : Element) : option Exn := None.

End Host.

End Registry.

(** The patched registry on that host. *)
Module RegistryRuns.

Import Registry.

Abbreviation define :=
  (Registry.define Host.classOf Host.validName Host.getRejects Host.userUpgrade).
Abbreviation get := (Registry.get Host.getRejects).
Abbreviation whenDefined := (Registry.whenDefined Host.validName).
Abbreviation calls :=
  (Registry.calls Host.classOf Host.validName Host.getRejects Host.userUpgrade).

End RegistryRuns.

(** ** The pivot classes and the elements they construct
    (the rest of [global-registry.ts]) *)

Module Lifecycle.

Import Registry.

(** One call of a user callback, [f.call(this, ...args)]; an argument is
    [null] or a string. *)
Record Invocation : Type := mkInvocation {
  callee : Callback;
  receiver : Element;
  arguments : list (option string);
}.

(** What [setPrototypeOf] gave an element: the prototype of a class, or
    [HTMLElement.prototype]. *)
Inductive Prototype : Type :=
| PrototypeOf (c : Ctor)
| HTMLElementPrototype.

(** The tables of the module, and around them the part of the document the
    module reads and writes: the attributes of the elements, their
    prototypes, the [setAttribute] and [removeAttribute] that
    [patchAttributes] defined on an instance (the [offset] and the
    [attributeChangedCallback] the two functions close over), the pivot
    class whose constructor returned an element, and the calls of user
    callbacks made so far, oldest first. *)
Record World : Type := mkWorld {
  registry : State;
  attributes : gmap (Element * string) string;
  prototypes : gmap Element Prototype;
  patches : gmap Element (list string * Callback);
  custom : gmap Element positive;
  invocations : list Invocation;
}.

Definition loaded (native : gmap string Ctor) : World :=
  mkWorld (initial native) ∅ ∅ ∅ ∅ [].

Definition set_registry (f : State -> State) (w : World) : World :=
  mkWorld (f (registry w)) (attributes w) (prototypes w) (patches w) (custom w)
    (invocations w).

Definition set_attributes
    (f : gmap (Element * string) string -> gmap (Element * string) string)
    (w : World) : World :=
  mkWorld (registry w) (f (attributes w)) (prototypes w) (patches w) (custom w)
    (invocations w).

Definition set_prototypes (f : gmap Element Prototype -> gmap Element Prototype)
    (w : World) : World :=
  mkWorld (registry w) (attributes w) (f (prototypes w)) (patches w) (custom w)
    (invocations w).

Definition set_patches
    (f : gmap Element (list string * Callback) -> gmap Element (list string * Callback))
    (w : World) : World :=
  mkWorld (registry w) (attributes w) (prototypes w) (f (patches w)) (custom w)
    (invocations w).

Definition set_custom (f : gmap Element positive -> gmap Element positive)
    (w : World) : World :=
  mkWorld (registry w) (attributes w) (prototypes w) (patches w) (f (custom w))
    (invocations w).

Definition set_invocations (f : list Invocation -> list Invocation)
    (w : World) : World :=
  mkWorld (registry w) (attributes w) (prototypes w) (patches w) (custom w)
    (f (invocations w)).

(** *** Computations over the world *)

Definition W (A : Type) : Type := World -> (Exn + A) * World.

Definition retW {A} (a : A) : W A := fun w => (inr a, w).

Definition bindW {A B} (m : W A) (k : A -> W B) : W B :=
  fun w => match m w with
           | (inl e, w') => (inl e, w')
           | (inr a, w') => k a w'
           end.

Definition throwW {A} (e : Exn) : W A := fun w => (inl e, w).
Definition getsW {A} (f : World -> A) : W A := fun w => (inr (f w), w).
Definition modifyW (f : World -> World) : W unit := fun w => (inr tt, f w).

Global Instance W_ret : MRet W := @retW.
Global Instance W_bind : MBind W := fun A B k m => bindW m k.

(** A computation over the tables, run on the tables of the world. *)
Definition liftM {A} (m : M A) : W A :=
  fun w => match m (registry w) with
           | (r, s) => (r, set_registry (fun _ => s) w)
           end.

Fixpoint forEachW {A} (f : A -> W unit) (l : list A) : W unit :=
  match l with
  | [] => retW tt
  | x :: l' => f x;; forEachW f l'
  end.

(** [f.call(this, ...args)] for a callback of a user class.  User code is
    taken to return, and not to call back into the registry or the
    document. *)
Definition callUser (f : Callback) (this : Element) (args : list (option string)) : W unit :=
  modifyW (set_invocations (fun l => (l ++ [mkInvocation f this args])%list)).

(** [awaiting.add(this)] and [awaiting.delete(this)] on a [Set] kept in
    insertion order. *)
Definition setAdd (e : Element) (l : list Element) : list Element :=
  if decide (e ∈ l) then l else (l ++ [e])%list.

Definition setDelete (e : Element) (l : list Element) : list Element :=
  filter (fun x => x <> e) l.

(** [getObservedAttributesOffset] *)
Definition getObservedAttributesOffset
    (registeredDefinition instancedDefinition : DefinitionRecord) : list string :=
  filter (fun x => x ∉ observedAttributes instancedDefinition)
    (observedAttributes registeredDefinition).

(** [patchAttributes]: the two functions it defines on the instance are kept
    as the pair they close over. *)
Definition patchAttributes (instance : Element)
    (registeredDefinition instancedDefinition : DefinitionRecord) : W unit :=
  match observedAttributes instancedDefinition,
        attributeChangedCallback instancedDefinition with
  | [], _ | _, None => mret tt
  | _ :: _, Some cb =>
      match getObservedAttributesOffset registeredDefinition instancedDefinition with
      | [] => mret tt
      | offset => modifyW (set_patches <[instance := (offset, cb)]>)
      end
  end.

(** [err instanceof TypeError && err.message === 'Illegal constructor'] *)
Definition illegalConstructor (err : Exn) : bool :=
  match err with
  | TypeError message => String.eqb message "Illegal constructor"
  | _ => false
  end.

(** [HTMLElement], the function that stands in for [window.HTMLElement].
    Its first branch reads and clears the module variable
    [upgradingInstance], whose value is passed in; in the second it ends
    with [new PivotCtor(UserCtor)], which is handed back to the caller to
    run. *)
Inductive Construction : Type :=
| ReturnUpgrading (instance : Element)
| NewPivotCtor (PivotCtor UserCtor : Ctor).

Definition HTMLElement (upgradingInstance : option Element) (constructor : Ctor) :
    M (Construction * option Element) :=
  match upgradingInstance with
  | Some instance => mret (ReturnUpgrading instance, None)
  | None =>
      definition ← gets (fun s => definitionsByClass s !! constructor);
      match definition with
      | None => throw (TypeError "Illegal constructor")
      | Some r =>
          d ← deref r;
          match PivotCtor d with
          | None => throw (TypeError "Illegal constructor")
          | Some P => mret (NewPivotCtor P (UserCtor d), None)
          end
      end
  end.

Section Pivots.

(** The host: the constructor objects, and how [new UserCtor()] ends when it
    runs for an element being upgraded, on the first attempt and on the
    second ([None] when it returns). *)
Variable classOf : Ctor -> ClassInfo.
Variable userConstructor : Ctor -> Element -> nat -> option Exn.

(** The [try] and [catch] around [new instancedDefinition.UserCtor()]. *)
Definition constructs (c : Ctor) (instance : Element) : option Exn :=
  match userConstructor c instance 0 with
  | None => None
  | Some err =>
      if illegalConstructor err then userConstructor c instance 1
      else Some err
  end.

(** The loop of [internalUpgrade] over [offset]. *)
Definition replayAttribute (instance : Element) (cb : Callback) (name : string) : W unit :=
  newValue ← getsW (fun w => attributes w !! (instance, name));
  match newValue with
  | Some v => callUser cb instance [Some name; None; Some v]
  | None => mret tt
  end.

(** [internalUpgrade], with what it does to the instance. *)
Definition internalUpgrade (instance : Element)
    (registeredDefinition instancedDefinition : DefRef) : W unit :=
  inst ← liftM (deref instancedDefinition);
  modifyW (set_prototypes <[instance := PrototypeOf (UserCtor inst)]>);;
  liftM (modify (set_definitionForElement <[instance := instancedDefinition]>));;
  (if decide (instancedDefinition = registeredDefinition) then mret tt
   else reg ← liftM (deref registeredDefinition);
        patchAttributes instance reg inst);;
  match constructs (UserCtor inst) instance with
  | Some err => throwW err
  | None =>
      match observedAttributes inst, attributeChangedCallback inst with
      | [], _ | _, None => mret tt
      | _ :: _, Some cb =>
          reg ← liftM (deref registeredDefinition);
          forEachW (replayAttribute instance cb)
            (getObservedAttributesOffset reg inst)
      end
  end.

(** The closure of the pivot class [PivotClass n]. *)
Definition pivot (n : positive) : W PivotInfo :=
  info ← getsW (fun w => pivotClasses (registry w) !! n);
  match info with
  | Some i => mret i
  | None => throwW Dangling
  end.

(** The constructor of [PivotCtor], run on the element [this] that
    [super()] made; [super()] returns for a class the native registry
    holds, and what follows it is modelled. *)
Definition PivotCtor_constructor (n : positive) (UserCtor : option Ctor)
    (this : Element) : W unit :=
  info ← pivot n;
  modifyW (set_prototypes <[this := PrototypeOf (PivotClass n)]>);;
  definition ← match UserCtor with
               | Some c =>
                   r ← liftM (getDefinitionForConstructor classOf c);
                   mret (Some r)
               | None =>
                   getsW (fun w => definitionsByTag (registry w) !! pivotTagName info)
               end;
  match definition with
  | Some r => internalUpgrade this (registeredDefinition info) r
  | None =>
      liftM (modify (set_pendingRegistryForElement
                       <[this := registeredDefinition info]>));;
      modifyW (set_prototypes <[this := HTMLElementPrototype]>)
  end.

(** [PivotCtor.prototype.connectedCallback] *)
Definition PivotCtor_connectedCallback (n : positive) (this : Element) : W unit :=
  info ← pivot n;
  definition ← getsW (fun w => definitionForElement (registry w) !! this);
  match definition with
  | Some r =>
      d ← liftM (deref r);
      match connectedCallback d with
      | Some f => callUser f this []
      | None => mret tt
      end
  | None =>
      liftM (modify (set_awaitingUpgrade (fun aw =>
        <[pivotTagName info :=
            setAdd this (default [] (aw !! pivotTagName info))]> aw)))
  end.

(** [PivotCtor.prototype.disconnectedCallback] *)
Definition PivotCtor_disconnectedCallback (n : positive) (this : Element) : W unit :=
  info ← pivot n;
  definition ← getsW (fun w => definitionForElement (registry w) !! this);
  match definition with
  | Some r =>
      d ← liftM (deref r);
      match disconnectedCallback d with
      | Some f => callUser f this []
      | None => mret tt
      end
  | None =>
      liftM (modify (set_awaitingUpgrade
                       (alter (setDelete this) (pivotTagName info))))
  end.

(** [PivotCtor.prototype.adoptedCallback] *)
Definition PivotCtor_adoptedCallback (n : positive) (this : Element) : W unit :=
  definition ← getsW (fun w => definitionForElement (registry w) !! this);
  match definition with
  | Some r =>
      d ← liftM (deref r);
      match adoptedCallback d with
      | Some f => callUser f this []
      | None => mret tt
      end
  | None => mret tt
  end.

(** [PivotCtor.prototype.attributeChangedCallback] *)
Definition PivotCtor_attributeChangedCallback (n : positive) (this : Element)
    (name : string) (oldValue newValue : option string) : W unit :=
  info ← pivot n;
  definition ← getsW (fun w => definitionForElement (registry w) !! this);
  match definition with
  | Some r =>
      d ← liftM (deref r);
      if bool_decide (registeredDefinition info = r)
         || bool_decide (name ∈ observedAttributes d)
      then match attributeChangedCallback d with
           | Some f => callUser f this [Some name; oldValue; newValue]
           | None => mret tt
           end
      else mret tt
  | None => mret tt
  end.

(** *** The element methods *)

(** The reaction the browser runs when an attribute of a custom element
    changes: the [attributeChangedCallback] of the class that constructed
    it, for the names in the [observedAttributes] of that class. *)
Definition attributeChangedReaction (this : Element) (name : string)
    (oldValue newValue : option string) : W unit :=
  c ← getsW (fun w => custom w !! this);
  match c with
  | Some n =>
      info ← pivot n;
      if bool_decide (name ∈ pivotObservedAttributes info)
      then PivotCtor_attributeChangedCallback n this name oldValue newValue
      else mret tt
  | None => mret tt
  end.

(** The native attribute methods, on a name in lower case (the browser
    lower-cases the name it is given for an HTML element). *)
Definition nativeGetAttribute (this : Element) (name : string) : W (option string) :=
  getsW (fun w => attributes w !! (this, name)).

Definition nativeSetAttribute (this : Element) (name value : string) : W unit :=
  old ← nativeGetAttribute this name;
  modifyW (set_attributes <[(this, name) := value]>);;
  attributeChangedReaction this name old (Some value).

(** Removing an attribute the element does not have changes nothing and
    runs no reaction. *)
Definition nativeRemoveAttribute (this : Element) (name : string) : W unit :=
  old ← nativeGetAttribute this name;
  match old with
  | Some _ =>
      modifyW (set_attributes (delete (this, name)));;
      attributeChangedReaction this name old None
  | None => mret tt
  end.

(** [this.setAttribute(name, value)]: the function [patchAttributes]
    defined on the instance, or the native one.  The value is a string, so
    [value + ''] is the value. *)
Definition setAttribute (this : Element) (name value : string) : W unit :=
  p ← getsW (fun w => patches w !! this);
  match p : option (list string * Callback) with
  | Some (offset, attributeChangedCallback) =>
      if bool_decide (name ∈ (offset : list string)) then
        old ← nativeGetAttribute this name;
        nativeSetAttribute this name value;;
        callUser attributeChangedCallback this [Some name; old; Some value]
      else nativeSetAttribute this name value
  | None => nativeSetAttribute this name value
  end.

(** [this.removeAttribute(name)] *)
Definition removeAttribute (this : Element) (name : string) : W unit :=
  p ← getsW (fun w => patches w !! this);
  match p : option (list string * Callback) with
  | Some (offset, attributeChangedCallback) =>
      if bool_decide (name ∈ (offset : list string)) then
        old ← nativeGetAttribute this name;
        nativeRemoveAttribute this name;;
        callUser attributeChangedCallback this [Some name; old; None]
      else nativeRemoveAttribute this name
  | None => nativeRemoveAttribute this name
  end.

(** *** Runs of the module *)

(** What happens to the module from outside: a call of the patched API, a
    pivot class constructing an element ([new PivotCtor(UserCtor)] by LWC or
    through [HTMLElement], [new PivotCtor()] by the browser), and the browser
    or user code acting on an element. *)
Inductive Event : Type :=
| Api (k : Call)
| Construct (n : positive) (UserCtor : option Ctor) (this : Element)
| Connected (this : Element)
| Disconnected (this : Element)
| Adopted (this : Element)
| SetAttribute (this : Element) (name value : string)
| RemoveAttribute (this : Element) (name : string).

(** The browser runs the reactions of the class that constructed the
    element; an element no pivot class constructed has none. *)
Definition reaction (f : positive -> Element -> W unit) (this : Element) : W unit :=
  c ← getsW (fun w => custom w !! this);
  match c with
  | Some n => f n this
  | None => mret tt
  end.

Variable validName : string -> bool.
Variable getRejects : string -> bool.

(** The constructor of a class runs on an element once, on an object that
    [super()] made or on an element the browser upgrades; the element is
    custom once the constructor returned.  A throw keeps the writes made
    before it. *)
Definition step (e : Event) (w : World) : World :=
  match e with
  | Api k => set_registry (call classOf validName getRejects constructs k) w
  | Construct n UserCtor this =>
      match prototypes w !! this with
      | Some _ => w
      | None =>
          match PivotCtor_constructor n UserCtor this w with
          | (inr _, w') => set_custom <[this := n]> w'
          | (inl _, w') => w'
          end
      end
  | Connected this => snd (reaction PivotCtor_connectedCallback this w)
  | Disconnected this => snd (reaction PivotCtor_disconnectedCallback this w)
  | Adopted this => snd (reaction PivotCtor_adoptedCallback this w)
  | SetAttribute this name value => snd (setAttribute this name value w)
  | RemoveAttribute this name => snd (removeAttribute this name w)
  end.

Definition run (es : list Event) (w : World) : World :=
  fold_left (fun w e => step e w) es w.

End Pivots.

(** The tables after [define], or the helper, registered [constructor] with
    its record [r] under [tagName] and made the pivot class of the name; and
    after [define] went on to the end. *)
Definition registered (tagName : string) (constructor : Ctor) (r : DefRef)
    (d : DefinitionRecord) (s : State) : State :=
  let n := fresh (dom (pivotClasses s)) in
  set_pivotCtorByTag <[tagName := PivotClass n]>
    (set_pivotClasses <[n := mkPivotInfo tagName r (observedAttributes d)]>
       (set_definitionsByClass <[constructor := r]>
          (set_definitionsByTag <[tagName := r]> s))).

Definition defined (tagName : string) (constructor : Ctor) (r : DefRef)
    (d : DefinitionRecord) (s : State) : State :=
  let n := fresh (dom (pivotClasses s)) in
  set_heap (alter (withPivotCtor (PivotClass n)) r)
    (set_nativeDefinitions <[tagName := PivotClass n]>
       (registered tagName constructor r d s)).

(** The tables after [whenDefined] made a promise for [tagName]. *)
Definition promised (tagName : string) (s : State) : State :=
  let p := fresh (dom (promises s)) in
  set_definedResolvers <[tagName := p]>
    (set_definedPromises <[tagName := p]>
       (set_promises <[p := None]> s)).

(** The tables after [getDefinitionForConstructor] made a record. *)
Definition allocated (classOf : Ctor -> ClassInfo) (constructor : Ctor) (s : State) : State :=
  let r := fresh (dom (heap s)) in
  set_definitionForConstructor <[constructor := r]>
    (set_heap <[r := createDefinitionRecord classOf constructor]> s).

(** What the lifecycle keeps besides the shape [wf]: a pivot class belongs
    to a name that has a definition and lists the attributes its registered
    definition observes; the class under a name is the pivot class made for
    that name; no element is pending and none awaits an upgrade; an
    upgraded element has a record; a resolver is kept only for a name the
    native registry has defined, with its promise, and the promise of a
    name is one [whenDefined] made; and a record has a [PivotCtor] only once
    its constructor is in [definitionsByClass]. *)
Record settled (s : State) : Prop := mkSettled {
  settled_pivot : forall n i, pivotClasses s !! n = Some i ->
    pivotCtorByTag s !! pivotTagName i = Some (PivotClass n) /\
    exists d, heap s !! registeredDefinition i = Some d /\
              pivotObservedAttributes i = observedAttributes d;
  settled_tag : forall t P, pivotCtorByTag s !! t = Some P ->
    exists n i, P = PivotClass n /\ pivotClasses s !! n = Some i /\
                pivotTagName i = t;
  settled_pending : pendingRegistryForElement s = ∅;
  settled_awaiting : awaitingUpgrade s = ∅;
  settled_element : forall e r, definitionForElement s !! e = Some r ->
    is_Some (heap s !! r);
  settled_resolver : forall t p, definedResolvers s !! t = Some p ->
    is_Some (nativeDefinitions s !! t);
  settled_kept : definedResolvers s ⊆ definedPromises s;
  settled_promise : forall t p, definedPromises s !! t = Some p ->
    is_Some (promises s !! p);
  settled_back_pointer : forall r d P, heap s !! r = Some d ->
    PivotCtor d = Some P -> definitionsByClass s !! UserCtor d = Some r;
}.

(** The same for a world: the tables are of that shape, and a custom
    element was constructed by a pivot class there is and was upgraded. *)
Record sound (classOf : Ctor -> ClassInfo) (w : World) : Prop := mkSound {
  sound_wf : wf classOf (registry w);
  sound_settled : settled (registry w);
  sound_custom : forall e n, custom w !! e = Some n ->
    is_Some (pivotClasses (registry w) !! n) /\
    is_Some (definitionForElement (registry w) !! e);
}.

(** What [patchAttributes] defines on an instance, if anything. *)
Definition patchFor (registeredDefinition instancedDefinition : DefinitionRecord) :
    option (list string * Callback) :=
  match observedAttributes instancedDefinition,
        attributeChangedCallback instancedDefinition with
  | [], _ | _, None => None
  | _ :: _, Some cb =>
      match getObservedAttributesOffset registeredDefinition instancedDefinition with
      | [] => None
      | offset => Some (offset, cb)
      end
  end.

(** The world after one more call of a user callback. *)
Definition logged (i : Invocation) (w : World) : World :=
  set_invocations (fun l => (l ++ [i])%list) w.

(** The calls of the user's [attributeChangedCallback] that one change of
    the attribute [name] from [old] to [new] leads to, for an element
    upgraded with the definition [d] by a pivot class registered with [dr];
    [same] tells whether the two are one object. *)
Definition reported (dr d : DefinitionRecord) (same : bool) (this : Element)
    (name : string) (old new : option string) : list Invocation :=
  match attributeChangedCallback d with
  | Some cb =>
      if bool_decide (name ∈ observedAttributes dr)
         && (same || negb (bool_decide (observedAttributes d = [])))
      then [mkInvocation cb this [Some name; old; new]]
      else []
  | None => []
  end.

(** Everything in a world but the calls of user callbacks. *)
Definition document (w : World) :=
  (registry w, attributes w, prototypes w, patches w, custom w).

(** The calls that the loop of [internalUpgrade] makes over [names] for an
    element with the attributes [a]. *)
Definition replayed (instance : Element) (cb : Callback)
    (a : gmap (Element * string) string) (names : list string) : list Invocation :=
  omap (fun name =>
          (fun v => mkInvocation cb instance [Some name; None; Some v])
          <$> a !! (instance, name))
       names.

(** What an element carries once a pivot class constructed it: the
    definition it was upgraded with, the prototype of the class of that
    definition, and the functions [patchAttributes] defined on it for that
    definition and the one registered for its pivot class.  An element no
    constructor ran on carries nothing. *)
Record attached (w : World) : Prop := mkAttached {
  attached_custom : forall e n, custom w !! e = Some n ->
    exists info inst d dr,
      pivotClasses (registry w) !! n = Some info /\
      definitionForElement (registry w) !! e = Some inst /\
      heap (registry w) !! inst = Some d /\
      heap (registry w) !! registeredDefinition info = Some dr /\
      patches w !! e = (if decide (inst = registeredDefinition info) then None
                        else patchFor dr d) /\
      prototypes w !! e = Some (PrototypeOf (UserCtor d));
  attached_fresh : forall e, prototypes w !! e = None ->
    patches w !! e = None /\ custom w !! e = None;
}.

(** Two records that differ in [PivotCtor] at most. *)
Definition sameClass (d d' : DefinitionRecord) : Prop :=
  UserCtor d' = UserCtor d /\
  connectedCallback d' = connectedCallback d /\
  disconnectedCallback d' = disconnectedCallback d /\
  adoptedCallback d' = adoptedCallback d /\
  attributeChangedCallback d' = attributeChangedCallback d /\
  observedAttributes d' = observedAttributes d.

(** Every record holds what [createDefinitionRecord] reads off its class. *)
Definition recorded (classOf : Ctor -> ClassInfo) (s : State) : Prop :=
  forall r d, heap s !! r = Some d ->
    sameClass (createDefinitionRecord classOf (UserCtor d)) d.

(** What no event takes back. *)
Record evolves (s s' : State) : Prop := mkEvolves {
  evolves_tag : definitionsByTag s ⊆ definitionsByTag s';
  evolves_class : definitionsByClass s ⊆ definitionsByClass s';
  evolves_ctor : definitionForConstructor s ⊆ definitionForConstructor s';
  evolves_pivot : pivotCtorByTag s ⊆ pivotCtorByTag s';
  evolves_classes : pivotClasses s ⊆ pivotClasses s';
  evolves_native : nativeDefinitions s ⊆ nativeDefinitions s';
  evolves_promise : definedPromises s ⊆ definedPromises s';
  evolves_resolver : definedResolvers s ⊆ definedResolvers s';
  evolves_promises : promises s ⊆ promises s';
  evolves_patched : registryPatched s = true -> registryPatched s' = true;
  evolves_heap : forall r d, heap s !! r = Some d ->
    exists d', heap s' !! r = Some d' /\ sameClass d d' /\
      (PivotCtor d' = PivotCtor d \/ definitionsByClass s !! UserCtor d = None);
  evolves_element : forall e, is_Some (definitionForElement s !! e) ->
    is_Some (definitionForElement s' !! e);
}.

End Lifecycle.

(** A page to run the module on: a class with all four callbacks that
    observes [title] and [lang], a class with an [attributeChangedCallback]
    that observes [lang] and [dir], a value that is no constructor, and plain
    classes; no user constructor throws.  The native registry is the one of
    [Registry.Host]. *)
Module Page.

Import Registry.

Definition classOf (c : Ctor) : ClassInfo :=
  match c with
  | UserClass 1 =>
      mkClassInfo true (Some 11%positive) (Some 12%positive) (Some 13%positive)
        (Some 14%positive) (Some ["title"; "lang"])
  | UserClass 2 =>
      mkClassInfo true None None None (Some 24%positive) (Some ["lang"; "dir"])
  | UserClass 3 => mkClassInfo false None None None None None
  | _ => mkClassInfo true None None None None None
  end.

Definition userConstructor (c : Ctor) (e : Element) (attempt : nat) : option Exn :=
  None.

(** The events of the runs on the page: a name defined, an element given a
    [title], and the element constructed by the pivot class of the name, by
    the browser or with the second class. *)
Definition definedTag : list Lifecycle.Event :=
  [Lifecycle.Api (CallDefine "x-tag" (UserClass 1) None)].

Definition withTitle : list Lifecycle.Event :=
  definedTag ++ [Lifecycle.SetAttribute 7 "title" "hi"].

Definition browserElement : list Lifecycle.Event :=
  withTitle ++ [Lifecycle.Construct 1 None 7].

Definition scopedElement : list Lifecycle.Event :=
  withTitle ++ [Lifecycle.Construct 1 (Some (UserClass 2)) 7].

Abbreviation define :=
  (Registry.define classOf Host.validName Host.getRejects
     (Lifecycle.constructs userConstructor)).
Abbreviation definePivot := (Registry.definePivot classOf Host.validName).
Abbreviation step :=
  (Lifecycle.step classOf userConstructor Host.validName Host.getRejects).
Abbreviation run :=
  (Lifecycle.run classOf userConstructor Host.validName Host.getRejects).

End Page.

(** ** The runtime API handed to a render function

    The render functions are the generated programs recorded as golden
    fixtures of the template compiler; they take the runtime API as their
    first argument.  The runtime that supplies it is not among the sources
    followed here. *)

Module Runtime.

(** The JavaScript values a component hands to its template. *)
#[warnings="-register-all"]
Inductive JsValue : Type :=
| JUndefined
| JNull
| JBool (b : bool)
| JNum (n : Z)
| JStr (s : string)
| JArr (items : list JsValue)
| JObj (fields : list (string * JsValue)).

Definition truthy (v : JsValue) : bool :=
  match v with
  | JUndefined | JNull => false
  | JBool b => b
  | JNum n => negb (Z.eqb n 0)
  | JStr s => Js.truthy_string s
  | JArr _ | JObj _ => true
  end.

Fixpoint field (fields : list (string * JsValue)) (name : string) : JsValue :=
  match fields with
  | [] => JUndefined
  | (k, v) :: rest => if String.eqb k name then v else field rest name
  end.

(** [obj.name] on an object, and on a primitive, which has no such
    property.  On [null] and [undefined] the read throws in JavaScript; the
    engine hands a render function a component object, and the statements
    about [item.id] below are about items that have an [id]. *)
Definition prop (obj : JsValue) (name : string) : JsValue :=
  match obj with
  | JObj fields => field fields name
  | _ => JUndefined
  end.

(** The string JavaScript makes of a value added to a string.  A number is
    an integer here and is written in decimal; the elements of an array are
    joined by commas, [null] and [undefined] among them as the empty
    string. *)
Fixpoint toString (v : JsValue) : string :=
  match v with
  | JUndefined => "undefined"
  | JNull => "null"
  | JBool true => "true"
  | JBool false => "false"
  | JNum n => NilEmpty.string_of_int (Z.to_int n)
  | JStr s => s
  | JArr items =>
      (fix join (l : list JsValue) : string :=
         match l with
         | [] => ""
         | x :: rest =>
             match x with
             | JUndefined | JNull => ""
             | _ => toString x
             end ++ match rest with
                    | [] => ""
                    | _ :: _ => "," ++ join rest
                    end
         end) items
  | JObj _ => "[object Object]"
  end.


(** A fragment instance is named by the order in which it was built. *)
Abbreviation FragRef := nat (only parsing).

(** The text of a [parseFragment] template literal: the literal chunks and
    the numbers interpolated between them. *)
Record Fragment : Type := mkFragment {
  strings : list string;
  holes : list nat;
}.

(** The keys the generated modules hand to the runtime: a literal integer,
    or a string, as for slotted content (["@test:3"]) and as [api_key]
    makes. *)
Inductive Key : Type :=
| KNum (n : nat)
| KStr (s : string).

(** The data bag of a creation call (the object literals [stcN] and the
    inline ones), with the fields the generated modules set. *)
Record VData : Type := mkData {
  attrs : list (string * JsValue);
  classMap : list (string * bool);
  styleDecls : list (string * string * bool);
  key : option Key;
  isStatic : bool;
}.

Definition keyed (k : Key) : VData := mkData [] [] [] (Some k) false.

(** Modelled from the spec: the node type of the runtime, whose source is
    not at hand; a node records the entry point that made it and its
    arguments: "element creation, text-node creation, ..., static-fragment
    instantiation, slot projection". *)
#[warnings="-register-all"]
Inductive VNode : Type :=
| VElement (sel : string) (data : VData) (children : list VNode)
| VText (text : string)
| VStatic (fragment : FragRef) (key : Key)
| VSlot (name : string) (data : VData) (children : list VNode).

(** One entry of an array handed to [api_flatten], and what an iteration
    callback returns: a node or an array of nodes. *)
Inductive Child : Type :=
| One (v : VNode)
| Many (vs : list VNode).

Definition spread (c : Child) : list VNode :=
  match c with
  | One v => [v]
  | Many vs => vs
  end.

(** The caller-supplied slot content map; [None] is [undefined]. *)
Abbreviation SlotSet := (option (gmap string (list VNode))) (only parsing).

(** Modelled from the spec: [api_element] of the runtime, whose source is
    not at hand; "element creation" makes the element node of its arguments. *)
Definition api_element (sel : string) (data : VData) (children : list VNode) : VNode :=
  VElement sel data children.

(** Modelled from the spec: [api_text] of the runtime, whose source is not
    at hand; "text-node creation" makes the text node. *)
Definition api_text (text : string) : VNode := VText text.

(** Modelled from the spec: [api_static_fragment] of the runtime, whose
    source is not at hand; "static-fragment instantiation" makes a node that
    refers to the hoisted instance it is given. *)
Definition api_static_fragment (fragment : FragRef) (key : Key) : VNode :=
  VStatic fragment key.

(** Modelled from the spec: [api_set_owner] of the runtime, whose source is
    not at hand; the "set owner" mechanism tracks provenance and hands the
    node back. *)
Definition api_set_owner (v : VNode) : VNode := v.

(** Modelled from the spec: [api_flatten] of the runtime, whose source is
    not at hand; the "flattening combinator" keeps the child list well-formed
    whatever the fan-out of each entry. *)
Definition api_flatten (children : list Child) : list VNode :=
  flat_map spread children.

(** The elements of an iterable value. *)
Definition elements (v : JsValue) : list JsValue :=
  match v with
  | JArr items => items
  | _ => []
  end.

(** Modelled from the spec: [api_iterator] of the runtime, whose source is
    not at hand; "iteration over a collection" collects what the callback
    returns for each item, in order. *)
Definition api_iterator (iterable : JsValue) (factory : JsValue -> Child) : list VNode :=
  flat_map (fun item => spread (factory item)) (elements iterable).

(** Modelled from the spec: [api_key] of the runtime, whose source is not at
    hand; the key of a node in an iteration is the literal integer of the
    structural position "concatenated with any author-supplied per-iteration
    key", the two joined by a colon as in the string keys the generated
    modules carry (["@test:3"]). *)
Definition api_key (compilerKey : nat) (obj : JsValue) : Key :=
  KStr (NilEmpty.string_of_uint (Nat.to_uint compilerKey) ++ ":" ++ toString obj).

(** Modelled from the spec: [api_slot] of the runtime, whose source is not
    at hand; the default content is "rendered only when the caller supplies
    no content for that slot", and non-empty caller content is projected
    "with no merge of default content". *)
Definition api_slot (slotName : string) (data : VData) (children : list VNode)
    (slotset : SlotSet) : VNode :=
  match slotset with
  | Some assigned =>
      match assigned !! slotName with
      | Some (v :: vs) => VSlot slotName data (v :: vs)
      | _ => VSlot slotName data children
      end
  | None => VSlot slotName data children
  end.

(** *** Module-level state of a generated module *)

(** The [$fragmentN] variables and the fragment instances built so far. *)
Record ModuleState : Type := mkModule {
  cached : gmap nat FragRef;
  built : list Fragment;
}.

Definition loaded : ModuleState := mkModule ∅ [].

Definition R (A : Type) : Type := ModuleState -> A * ModuleState.

Definition ret {A} (a : A) : R A := fun s => (a, s).
Definition bind {A B} (m : R A) (k : A -> R B) : R B :=
  fun s => let (a, s') := m s in k a s'.

Global Instance R_ret : MRet R := @ret.
Global Instance R_bind : MBind R := fun A B k m => bind m k.

(** Modelled from the spec: [parseFragment] of the runtime, whose source is
    not at hand; the function it returns is the "hoisted creation
    expression" and builds one more instance of the fragment each time it is
    called. *)
Definition parseFragment (strings : list string) (holes : list nat) : R FragRef :=
  fun s => (length (built s),
            mkModule (cached s) (built s ++ [mkFragment strings holes])).

(** [$fragmentN || ($fragmentN = $hoistedN())] *)
Definition fragmentOr (N : nat) (hoisted : R FragRef) : R FragRef :=
  fun s => match cached s !! N with
           | Some f => (f, s)
           | None =>
               let (f, s') := hoisted s in
               (f, mkModule (<[N := f]> (cached s')) (built s'))
           end.

(** [n] invocations in a row, on the module state they share. *)
Fixpoint invoke {A} (render : R A) (n : nat) : R (list A) :=
  match n with
  | O => mret []
  | S n' => a ← render; rest ← invoke render n'; mret (a :: rest)
  end.

(** One invocation per component state, in a row. *)
Fixpoint invokeWith {A B} (render : A -> R B) (cmps : list A) : R (list B) :=
  match cmps with
  | [] => mret []
  | c :: cmps' => b ← render c; rest ← invokeWith render cmps'; mret (b :: rest)
  end.




Definition childrenOf (v : VNode) : list VNode :=
  match v with
  | VElement _ _ children => children
  | VSlot _ _ children => children
  | _ => []
  end.

(** The names of the slots in a rendered tree. *)
Fixpoint slotNames (v : VNode) : list string :=
  match v with
  | VElement _ _ children => flat_map slotNames children
  | VSlot name _ children => name :: flat_map slotNames children
  | VText _ | VStatic _ _ => []
  end.

Definition dataOf (v : VNode) : option VData :=
  match v with
  | VElement _ data _ => Some data
  | VSlot _ data _ => Some data
  | VText _ | VStatic _ _ => None
  end.

Definition attrNames (v : VNode) : list string :=
  match dataOf v with
  | Some data => map fst (attrs data)
  | None => []
  end.

Definition attrOf (v : VNode) (name : string) : option JsValue :=
  match v with
  | VElement _ data _ => Some (field (attrs data) name)
  | _ => None
  end.

End Runtime.

(** ** The generated modules recorded as fixtures *)

(** [fixtures/slots/definition/expected.js], first module: the static
    paragraph is built when the module loads. *)
Module SlotDefinition.
Import Runtime.

Definition hoisted1 : VNode :=
  api_element "p" (mkData [] [] [] (Some (KNum 2)) true)
    [api_text "Default slot content"].
Definition stc0 : VData := mkData [] [] [] (Some (KNum 0)) false.
Definition stc1 : VData := mkData [] [] [] (Some (KNum 1)) false.

Definition tmpl (cmp : JsValue) (slotset : SlotSet) : R (list VNode) :=
  mret [
    api_element "section" stc0 [
      api_slot "" stc1 [api_set_owner hoisted1] slotset
    ]
  ].

Definition slots : list string := [""].
Definition stylesheets : list string := [].

End SlotDefinition.

(** [fixtures/slots/definition/expected.js], second module. *)
Module StaticTable.
Import Runtime.

Definition hoisted1 : R FragRef :=
  parseFragment
    ["<table"; ""; "><tbody"; ""; "><tr"; ""; "></tr></tbody></table>"]
    [1; 2; 1; 2; 1; 2].

Definition tmpl (cmp : JsValue) (slotset : SlotSet) : R (list VNode) :=
  fragment1 ← fragmentOr 1 hoisted1;
  mret [api_static_fragment fragment1 (KNum 1)].

Definition stylesheets : list string := [].

End StaticTable.

(** The generated module with the named slot [test]. *)
Module NamedSlot.
Import Runtime.

Definition hoisted1 : R FragRef :=
  parseFragment ["<p"; ""; ">Test slot content</p>"] [1; 2].
Definition stc0 : VData := mkData [] [] [] (Some (KNum 0)) false.
Definition stc1 : VData :=
  mkData [("name", JStr "test")] [] [] (Some (KNum 1)) false.

Definition tmpl (cmp : JsValue) (slotset : SlotSet) : R (list VNode) :=
  fragment1 ← fragmentOr 1 hoisted1;
  mret [
    api_element "section" stc0 [
      api_slot "test" stc1
        [api_static_fragment fragment1 (KStr "@test:3")]
        slotset
    ]
  ].

Definition slots : list string := ["test"].
Definition stylesheets : list string := [].

End NamedSlot.

(** The generated module with the boolean attributes.  [api_element] is
    called without a child list there. *)
Module BooleanAttributes.
Import Runtime.

Definition hoisted1 : R FragRef :=
  parseFragment ["<p hidden"; ""; ">x</p>"] [1; 2].

Definition tmpl (cmp : JsValue) (slotset : SlotSet) : R (list VNode) :=
  fragment1 ← fragmentOr 1 hoisted1;
  mret [
    api_static_fragment fragment1 (KNum 1);
    api_element "input"
      (mkData
         [("readonly", if truthy (prop cmp "getReadOnly") then JStr "" else JNull);
          ("disabled", JStr "");
          ("title", JStr "foo")]
         [] [] (Some (KNum 2)) false)
      []
  ].

Definition stylesheets : list string := [].

End BooleanAttributes.

(** [fixtures/base/style-important/expected.js], first module. *)
Module StyleImportant.
Import Runtime.

Definition hoisted1 : VNode :=
  api_element "div"
    (mkData [] []
       [("background", "blue", true);
        ("color", "red", false);
        ("opacity", "0.5", true)]
       (Some (KNum 0)) true)
    [].

Definition tmpl (cmp : JsValue) (slotset : SlotSet) : R (list VNode) :=
  mret [api_set_owner hoisted1].

Definition stylesheets : list string := [].

End StyleImportant.

(** [fixtures/base/style-important/expected.js], second module.  The three
    [$fragmentN || ...] expressions are the only ones that write; they are
    bound first, in the order in which the array literal evaluates them. *)
Module StaticSiblings.
Import Runtime.

Definition hoisted1 : R FragRef :=
  parseFragment ["<p"; ""; ">Last child</p>"] [1; 2].
Definition hoisted2 : R FragRef :=
  parseFragment ["<p"; ""; ">Last child</p>"] [1; 2].
Definition hoisted3 : R FragRef :=
  parseFragment
    ["<section class=" ++ Js.dq ++ "s4"; Js.dq; "><p"; "";
     ">Other child1</p><p"; ""; ">Other child2</p></section>"]
    [0; 2; 1; 2; 1; 2].
Definition stc0 : VData := mkData [] [("s1", true)] [] (Some (KNum 0)) false.
Definition stc1 : VData := mkData [] [("s2", true)] [] (Some (KNum 3)) false.
Definition stc2 : list VNode := [].
Definition stc3 : VData := mkData [] [("s3", true)] [] (Some (KNum 6)) false.

Definition tmpl (cmp : JsValue) (slotset : SlotSet) : R (list VNode) :=
  fragment1 ← fragmentOr 1 hoisted1;
  fragment2 ← fragmentOr 2 hoisted2;
  fragment3 ← fragmentOr 3 hoisted3;
  mret [
    api_element "section" stc0
      (api_flatten [
         One (api_text "Other Child");
         Many (api_iterator (prop cmp "items") (fun item =>
           One (api_text "X")));
         One (api_static_fragment fragment1 (KNum 2))
       ]);
    api_element "section" stc1
      (api_flatten [
         One (api_text "Other Child");
         Many (if truthy (prop cmp "isTrue")
               then api_iterator (prop cmp "items") (fun item =>
                 Many [
                   api_element "p" (keyed (api_key 4 (prop item "id")))
                     [api_text "X1"];
                   api_element "p" (keyed (api_key 5 (prop item "id")))
                     [api_text "X2"]
                 ])
               else stc2)
       ]);
    api_element "section" stc3
      (api_flatten [
         One (api_static_fragment fragment2 (KNum 8));
         Many (api_iterator (prop cmp "items") (fun item =>
           One (api_element "div" (keyed (api_key 9 (prop item "id"))) [])))
       ]);
    api_static_fragment fragment3 (KNum 11)
  ].

Definition stylesheets : list string := [].

End StaticSiblings.

(** ** Reading a [style] attribute *)

Module StyleAttribute.

(** The compiler stage that reads the [style] attribute is not among the
    sources at hand.  "Style declarations (e.g., [!important] flags) are emitted as
    ordered triples (property, value, importantFlag) preserving authored
    order exactly": the attribute text is cut at each [;], each piece at its
    first [:], and a value that ends in [!important] loses that suffix and
    carries the flag. *)

(** Modelled from the spec: the cut of the attribute text at each [;], of
    the compiler stage not at hand; the pieces keep the authored order. *)
Fixpoint splitOn (sep : ascii) (s : string) : list string :=
  match s with
  | EmptyString => [EmptyString]
  | String c s' =>
      if Ascii.eqb c sep then EmptyString :: splitOn sep s'
      else match splitOn sep s' with
           | [] => [String c EmptyString]
           | piece :: rest => String c piece :: rest
           end
  end.

(** Modelled from the spec: the cut of one declaration into property and
    value, of the compiler stage not at hand; it is made at the first
    separator. *)
Fixpoint cut (sep : ascii) (s : string) : option (string * string) :=
  match s with
  | EmptyString => None
  | String c s' =>
      if Ascii.eqb c sep then Some (EmptyString, s')
      else match cut sep s' with
           | Some (before, after) => Some (String c before, after)
           | None => None
           end
  end.

(** Modelled from the spec: the reading of the "[!important] flags", of the
    compiler stage not at hand; a value that ends in [!important] is flagged
    and loses the suffix. *)
Fixpoint stripImportant (value : string) : string * bool :=
  if String.eqb value "!important" then (EmptyString, true)
  else match value with
       | EmptyString => (EmptyString, false)
       | String c value' =>
           let (v, important) := stripImportant value' in (String c v, important)
       end.

(** Modelled from the spec: the reading of one declaration, of the compiler
    stage not at hand; one piece gives one "(property, value,
    importantFlag)" triple, a piece without [:] none. *)
Definition parseDeclaration (piece : string) : option (string * string * bool) :=
  match cut ":" piece with
  | Some (property, value) =>
      let (v, important) := stripImportant value in Some (property, v, important)
  | None => None
  end.

(** Modelled from the spec: the reading of a [style] attribute, of the
    compiler stage not at hand; the "ordered triples" of an attribute text,
    "preserving authored order exactly". *)
Definition parseStyle (text : string) : list (string * string * bool) :=
  omap parseDeclaration (splitOn ";" text).

(** The attribute text an author writes for a list of declarations. *)
Definition writeDeclaration (d : string * string * bool) : string :=
  let '(property, value, important) := d in
  property ++ ":" ++ value ++ (if important then "!important" else "").

Fixpoint writeStyle (ds : list (string * string * bool)) : string :=
  match ds with
  | [] => EmptyString
  | [d] => writeDeclaration d
  | d :: rest => writeDeclaration d ++ ";" ++ writeStyle rest
  end.

Fixpoint contains (c : ascii) (s : string) : bool :=
  match s with
  | EmptyString => false
  | String x s' => Ascii.eqb x c || contains c s'
  end.

(** A declaration whose property has no [:] or [;] and whose value has no
    [;] or [!]. *)
Definition plain (d : string * string * bool) : bool :=
  let '(property, value, _) := d in
  negb (contains ":" property) && negb (contains ";" property)
  && negb (contains ";" value) && negb (contains "!" value).

End StyleAttribute.

(** * Properties *)

Lemma truthy_string_nonempty (s : string) :
  Js.truthy_string s = true <-> s <> "".
Proof. destruct s; simpl; split; congruence. Qed.

Example stylesheet_scoped :
  Stylesheet.stylesheet (Some "x-foo_foo") false false
  = "[x-foo_foo]::after {}h1[x-foo_foo]::before {}".
Proof. reflexivity. Qed.

Example stylesheet_unscoped :
  Stylesheet.stylesheet None false false = "::after {}h1::before {}".
Proof. reflexivity. Qed.

Lemma append_inj_l (a b c : string) : a ++ b = a ++ c -> b = c.
Proof.
  induction a as [|x a IH]; simpl; intros H; [exact H|].
  injection H. exact IH.
Qed.

(** C8. For every non-empty scoping token [t] the shadow selector is
    ["[" ++ t ++ "]"] and the host selector is ["[" ++ t ++ "-host]"], the
    two differ, and the emitted rule text carries the shadow selector in both
    places; when the token is absent or empty both selectors are the empty
    string and the rule text is emitted unscoped. *)
Theorem stylesheet_token_scoping (t : string) (h d : bool) :
  t <> "" ->
  (Stylesheet.shadowSelector (Some t) = "[" ++ t ++ "]" /\
   Stylesheet.hostSelector (Some t) = "[" ++ t ++ "-host]" /\
   Stylesheet.shadowSelector (Some t) <> Stylesheet.hostSelector (Some t) /\
   Stylesheet.stylesheet (Some t) h d
     = ("[" ++ t ++ "]") ++ "::after {}h1" ++ ("[" ++ t ++ "]") ++ "::before {}") /\
  (forall token, token = None \/ token = Some "" ->
     Stylesheet.shadowSelector token = "" /\
     Stylesheet.hostSelector token = "" /\
     Stylesheet.stylesheet token h d = "::after {}h1::before {}").
Proof.
  intros Hne. split.
  - apply truthy_string_nonempty in Hne.
    unfold Stylesheet.stylesheet, Stylesheet.shadowSelector, Stylesheet.hostSelector.
    rewrite Hne. repeat split.
    intros Heq. apply (append_inj_l "[") in Heq. apply append_inj_l in Heq.
    discriminate Heq.
  - intros token [-> | ->]; repeat split.
Qed.

Lemma stylesheet_token_scoping_witness :
  "x-foo_foo" <> "" /\
  Stylesheet.shadowSelector (Some "x-foo_foo") = "[x-foo_foo]" /\
  Stylesheet.hostSelector (Some "x-foo_foo") = "[x-foo_foo-host]" /\
  Stylesheet.stylesheet None true false = "::after {}h1::before {}".
Proof.
  assert (Hne : "x-foo_foo" <> "") by discriminate.
  destruct (stylesheet_token_scoping "x-foo_foo" true false Hne)
    as [(Hs & Hh & _ & _) Hu].
  destruct (Hu None (or_introl eq_refl)) as (_ & _ & Hn).
  exact (conj Hne (conj Hs (conj Hh Hn))).
Defined.

(** ** The patched registry *)

Section RegistryProperties.

Import Registry.

Variable classOf : Ctor -> ClassInfo.
Variable validName : string -> bool.
Variable getRejects : string -> bool.
Variable userUpgrade : Ctor -> positive -> option Exn.

Local Abbreviation wf := (Registry.wf classOf).
Local Abbreviation define :=
  (Registry.define classOf validName getRejects userUpgrade).
Local Abbreviation definePivot := (Registry.definePivot classOf validName).
Local Abbreviation get := (Registry.get getRejects).
Local Abbreviation calls :=
  (Registry.calls classOf validName getRejects userUpgrade).
Local Abbreviation call :=
  (Registry.call classOf validName getRejects userUpgrade).
Local Abbreviation whenDefined := (Registry.whenDefined validName).
Local Abbreviation getDefinitionForConstructor :=
  (Registry.getDefinitionForConstructor classOf).

Lemma wf_initial (native : gmap string Ctor) : wf (initial native).
Proof. split; simpl; intros *; rewrite lookup_empty; discriminate. Qed.

(** The shape depends on the seven tables only. *)
Lemma wf_tables (s s' : State) : tables s = tables s' -> wf s -> wf s'.
Proof.
  unfold tables. intros H [H1 H2 H3 H4 H5 H6].
  injection H as Hh Hc Hp Ht Hk Hd Hn.
  split; rewrite <- ?Hh, <- ?Hc, <- ?Hp, <- ?Ht, <- ?Hk, <- ?Hd, <- ?Hn; assumption.
Qed.

Lemma wf_alloc (s : State) (c : Ctor) (d : DefinitionRecord) :
  wf s -> UserCtor d = c -> definitionForConstructor s !! c = None ->
  wf (set_definitionForConstructor <[c := fresh (dom (heap s))]>
        (set_heap <[fresh (dom (heap s)) := d]> s)).
Proof.
  intros [H1 H2 H3 H4 H5 H6] Hd Hnone.
  assert (Hfresh : heap s !! fresh (dom (heap s)) = None).
  { apply not_elem_of_dom, is_fresh. }
  split; simpl; try assumption.
  - intros c' r. rewrite lookup_insert_Some. intros [[<- <-] | [Hne Hl]].
    + exists d. rewrite lookup_insert_eq. done.
    + destruct (H1 _ _ Hl) as (d' & Hd' & Hu). exists d'. split; [|done].
      rewrite lookup_insert_ne; [done|]. intros <-. congruence.
  - intros c' r Hl. destruct (H2 _ _ Hl) as [Hc Hp]. split; [|done].
    rewrite lookup_insert_ne; [done|]. intros <-. congruence.
  - intros t r Hl. destruct (H3 _ _ Hl) as [c' Hc'].
    exists c'. rewrite lookup_insert_ne; [done|]. intros <-. congruence.
Qed.

Lemma wf_register (s : State) (t : string) (c : Ctor) (r : positive) (P : Ctor) :
  wf s -> definitionForConstructor s !! c = Some r ->
  hasObjectPrototype (classOf c) = true ->
  wf (set_pivotCtorByTag <[t := P]>
        (set_definitionsByClass <[c := r]>
           (set_definitionsByTag <[t := r]> s))).
Proof.
  intros [H1 H2 H3 H4 H5 H6] Hc Hp.
  split; simpl; try assumption.
  - intros c' r'. rewrite lookup_insert_Some. intros [[<- <-] | [Hne Hl]]; eauto.
  - intros t' r'. rewrite lookup_insert_Some. intros [[<- <-] | [Hne Hl]]; eauto.
  - intros t' P' Hl. rewrite lookup_insert_is_Some.
    destruct (decide (t = t')) as [|Hne]; [auto|].
    rewrite lookup_insert_ne in Hl by done. eauto.
  - intros t' r' Hl. rewrite lookup_insert_is_Some.
    destruct (decide (t = t')) as [|Hne]; [auto|].
    rewrite lookup_insert_ne in Hl by done. eauto.
Qed.

Lemma wf_native (s : State) (t : string) (P : Ctor) :
  wf s -> wf (set_nativeDefinitions <[t := P]> s).
Proof.
  intros [H1 H2 H3 H4 H5 H6].
  split; simpl; try assumption.
  intros t' p Hl. rewrite lookup_insert_is_Some. destruct (decide (t = t')); eauto.
Qed.

Lemma wf_with_pivot (s : State) (r : positive) (P : Ctor) :
  wf s -> wf (set_heap (alter (withPivotCtor P) r) s).
Proof.
  intros [H1 H2 H3 H4 H5 H6].
  split; simpl; try assumption.
  - intros c r' Hl. destruct (H1 _ _ Hl) as (d & Hd & Hu).
    destruct (decide (r = r')) as [<-|Hne].
    + exists (withPivotCtor P d). rewrite lookup_alter_eq, Hd. done.
    + exists d. rewrite lookup_alter_ne; done.
Qed.

Lemma wf_promise (s : State) (t : string) (p : positive) :
  wf s -> is_Some (nativeDefinitions s !! t) ->
  wf (set_definedPromises <[t := p]> s).
Proof.
  intros [H1 H2 H3 H4 H5 H6] Hn.
  split; simpl; try assumption.
  intros t' p'. rewrite lookup_insert_Some. intros [[<- <-] | [Hne Hl]]; eauto.
Qed.

Ltac munfold :=
  unfold mbind, M_bind, mret, M_ret, bind, ret, gets, modify, throw, deref in *.

(** Upgrading the elements that waited for a name writes the two
    per-element tables only. *)
Lemma upgradeAwaiting_tables (d : positive) (e : positive) (s : State) :
  tables (snd (upgradeAwaiting userUpgrade d e s)) = tables s.
Proof.
  unfold upgradeAwaiting, internalUpgrade. munfold. simpl.
  destruct (pendingRegistryForElement s !! e); simpl; [|done].
  destruct (heap s !! d); simpl; [|done].
  destruct (userUpgrade _ e); done.
Qed.

Lemma forEach_upgrade_tables (d : positive) (els : list positive) (s : State) :
  tables (snd (forEach (upgradeAwaiting userUpgrade d) els s)) = tables s.
Proof.
  revert s. induction els as [|e els IH]; intros s; simpl; [done|].
  munfold.
  pose proof (upgradeAwaiting_tables d e s) as He.
  destruct (upgradeAwaiting userUpgrade d e s) as [[x|[]] s1]; simpl in *; [done|].
  rewrite IH. done.
Qed.

Lemma getDefinitionForConstructor_known (c : Ctor) (r : positive) (s : State) :
  hasObjectPrototype (classOf c) = true ->
  definitionForConstructor s !! c = Some r ->
  getDefinitionForConstructor c s = (inr r, s).
Proof.
  intros Hp Hc. unfold Registry.getDefinitionForConstructor. munfold.
  rewrite Hp, Hc. done.
Qed.

Lemma getDefinitionForConstructor_wf (c : Ctor) (s : State) :
  wf s -> wf (snd (getDefinitionForConstructor c s)).
Proof.
  intros Hwf. unfold Registry.getDefinitionForConstructor. munfold.
  destruct (hasObjectPrototype (classOf c)); [|done].
  destruct (definitionForConstructor s !! c) eqn:Hc; simpl; [done|].
  apply wf_alloc; done.
Qed.

(** What [getDefinitionForConstructor] hands back, when it returns. *)
Lemma getDefinitionForConstructor_result (c : Ctor) (r : positive) (s s' : State) :
  wf s -> getDefinitionForConstructor c s = (inr r, s') ->
  hasObjectPrototype (classOf c) = true /\
  definitionForConstructor s' !! c = Some r /\
  (exists d, heap s' !! r = Some d /\ UserCtor d = c) /\
  pivotCtorByTag s' = pivotCtorByTag s /\
  definitionsByTag s' = definitionsByTag s /\
  definitionsByClass s' = definitionsByClass s /\
  definedPromises s' = definedPromises s /\
  nativeDefinitions s' = nativeDefinitions s.
Proof.
  intros Hwf. unfold Registry.getDefinitionForConstructor. munfold.
  destruct (hasObjectPrototype (classOf c)); [|done].
  destruct (definitionForConstructor s !! c) eqn:Hc; simpl;
    intros [= <- <-]; simpl.
  - repeat split; try done. apply (wf_ctor_def _ _ Hwf _ _ Hc).
  - rewrite !lookup_insert_eq. repeat split; try done.
    eexists. split; [done|]. done.
Qed.


Lemma define_outcome (t : string) (c : Ctor) (o : option ElementDefinitionOptions)
    (s s' : State) (res : Exn + unit) :
  wf s -> define t c o s = (res, s') ->
  wf s' /\
  (res = inr tt ->
   getRejects t = false /\ validName (toLowerCase t) = true /\
   exists r d n,
     definitionsByTag s' !! toLowerCase t = Some r /\
     heap s' !! r = Some d /\ UserCtor d = c /\
     PivotCtor d = Some (PivotClass n) /\
     nativeDefinitions s' !! toLowerCase t = Some (PivotClass n) /\
     definedPromises s' !! toLowerCase t = None).
Proof.
  intros Hwf. unfold Registry.define. munfold.
  destruct (extendsGiven o); [intros [= <- <-]; done|].
  unfold nativeGet. destruct (getRejects t) eqn:Hvalid; munfold; simpl;
    [intros [= <- <-]; done|].
  destruct (definitionsByTag s !! toLowerCase t) eqn:Htag; simpl;
    [intros [= <- <-]; done|].
  destruct (getDefinitionForConstructor c s) as [[e|r] s1] eqn:Hg.
  all: pose proof (getDefinitionForConstructor_wf c s Hwf) as Hwf1;
    rewrite Hg in Hwf1; simpl in Hwf1.
  { intros [= <- <-]; done. }
  destruct (getDefinitionForConstructor_result _ _ _ _ Hwf Hg)
    as (Hproto & Hc1 & (d & Hd & Hu) & Ep & Et & Ek & Edp & En).
  destruct (definitionsByClass s1 !! c) eqn:Hclass; simpl;
    [intros [= <- <-]; done|].
  assert (Hpiv : pivotCtorByTag s1 !! toLowerCase t = None).
  { rewrite Ep. destruct (pivotCtorByTag s !! toLowerCase t) eqn:E; [|done].
    destruct (wf_pivot_tag _ _ Hwf _ _ E) as [? ?]. congruence. }
  rewrite Hpiv. unfold createPivotingClass. munfold. simpl. rewrite Hd. simpl.
  set (n := fresh (dom (pivotClasses s1))).
  assert (Hwf2 : wf (set_pivotCtorByTag <[toLowerCase t := PivotClass n]>
             (set_pivotClasses
                <[n := mkPivotInfo (toLowerCase t) r (observedAttributes d)]>
                (set_definitionsByClass <[c := r]>
                   (set_definitionsByTag <[toLowerCase t := r]> s1))))).
  { eapply wf_tables;
      [|apply (wf_register s1 (toLowerCase t) c r (PivotClass n)); done].
    done. }
  unfold nativeDefine. munfold. simpl.
  destruct (validName (toLowerCase t)) eqn:Hvalid'; simpl;
    [|intros [= <- <-]; done].
  destruct (nativeDefinitions s1 !! toLowerCase t) eqn:Hnat; simpl;
    [intros [= <- <-]; done|].
  match goal with
  | |- context [set_heap (alter ?f r) ?st] => set (s3 := set_heap (alter f r) st)
  end.
  assert (Hwf3 : wf s3).
  { apply wf_with_pivot, wf_native, Hwf2. }
  assert (Hfacts : forall s4, tables s4 = tables s3 ->
    wf s4 /\
    exists r0 d0 n0,
      definitionsByTag s4 !! toLowerCase t = Some r0 /\
      heap s4 !! r0 = Some d0 /\ UserCtor d0 = c /\
      PivotCtor d0 = Some (PivotClass n0) /\
      nativeDefinitions s4 !! toLowerCase t = Some (PivotClass n0) /\
      definedPromises s4 !! toLowerCase t = None).
  { intros s4 E. split; [eapply wf_tables; [symmetry; exact E|exact Hwf3]|].
    unfold tables in E. injection E as -> _ _ -> _ -> ->. subst s3; simpl.
    exists r, (withPivotCtor (PivotClass n) d), n.
    rewrite !lookup_insert_eq, lookup_alter_eq, Hd. simpl.
    repeat split; try done.
    rewrite Edp. destruct (definedPromises s !! toLowerCase t) eqn:E; [|done].
    destruct (wf_promise_native _ _ Hwf _ _ E) as [? ?]. congruence. }
  clearbody s3.
  assert (Hend : forall s4 res', tables s4 = tables s3 ->
    match definedResolvers s4 !! toLowerCase t with
    | Some p => resolve p c
    | None => fun s2 : State => (inr tt, s2)
    end s4 = (res', s') ->
    wf s' /\ (res' = inr tt ->
      false = false /\ true = true /\
      exists r0 d0 n0,
        definitionsByTag s' !! toLowerCase t = Some r0 /\
        heap s' !! r0 = Some d0 /\ UserCtor d0 = c /\
        PivotCtor d0 = Some (PivotClass n0) /\
        nativeDefinitions s' !! toLowerCase t = Some (PivotClass n0) /\
        definedPromises s' !! toLowerCase t = None)).
  { intros s4 res' E.
    destruct (definedResolvers s4 !! toLowerCase t); unfold resolve; munfold;
      intros [= <- <-]; (split; [|intros _; split; [done|split; [done|]]]);
      apply Hfacts; exact E. }
  destruct (awaitingUpgrade s1 !! toLowerCase t) as [els|].
  - pose proof (forEach_upgrade_tables r els
                  (set_awaitingUpgrade (delete (toLowerCase t)) s3)) as Hl.
    destruct (forEach _ els _) as [[e|[]] s4]; simpl in Hl.
    + intros [= <- <-]. split; [apply Hfacts; exact Hl|discriminate].
    + apply Hend. exact Hl.
  - apply Hend. done.
Qed.

Lemma define_wf (t : string) (c : Ctor) (o : option ElementDefinitionOptions)
    (s : State) :
  wf s -> wf (snd (define t c o s)).
Proof.
  intros Hwf. destruct (define t c o s) as [res s'] eqn:E.
  apply (define_outcome _ _ _ _ _ _ Hwf E).
Qed.

Lemma get_state (t : string) (s : State) : snd (get t s) = s.
Proof.
  unfold Registry.get, nativeGet. munfold.
  destruct (getRejects t); simpl; [done|].
  destruct (nativeDefinitions s !! t); simpl; [|done].
  destruct (definitionsByTag s !! t); simpl; [|done].
  destruct (heap s !! _); done.
Qed.

Lemma whenDefined_wf (t : string) (s : State) :
  wf s -> wf (snd (whenDefined t s)).
Proof.
  intros Hwf. unfold Registry.whenDefined, nativeWhenDefined.
  destruct (validName t); [|done].
  destruct (nativeDefinitions s !! t) eqn:Hn; simpl; [|done].
  unfold whenDefinedCallback. munfold.
  destruct (definedPromises s !! t); simpl.
  { destruct (promises s !! _) as [[?|]|]; done. }
  destruct (definitionsByTag s !! t); simpl.
  { destruct (heap s !! _); done. }
  rewrite lookup_insert_eq. simpl.
  eapply wf_tables; [|apply (wf_promise s t (fresh (dom (promises s))) Hwf); eauto].
  done.
Qed.

Lemma definePivot_wf (t : string) (c : Ctor) (s : State) :
  wf s -> wf (snd (definePivot t c s)).
Proof.
  intros Hwf. unfold Registry.definePivot. munfold.
  destruct (pivotCtorByTag s !! toLowerCase t); simpl; [done|].
  destruct (getDefinitionForConstructor c s) as [[e|r] s1] eqn:Hg.
  all: pose proof (getDefinitionForConstructor_wf c s Hwf) as Hwf1;
    rewrite Hg in Hwf1; simpl in Hwf1.
  { done. }
  destruct (getDefinitionForConstructor_result _ _ _ _ Hwf Hg)
    as (Hproto & Hc1 & (d & Hd & Hu) & _).
  unfold createPivotingClass. munfold. rewrite Hd. simpl.
  set (n := fresh (dom (pivotClasses s1))).
  assert (Hwf2 : wf (set_definitionsByClass <[c := r]>
             (set_definitionsByTag <[toLowerCase t := r]>
                (set_pivotCtorByTag <[toLowerCase t := PivotClass n]>
                   (set_pivotClasses
                      <[n := mkPivotInfo (toLowerCase t) r (observedAttributes d)]>
                      s1))))).
  { eapply wf_tables;
      [|apply (wf_register s1 (toLowerCase t) c r (PivotClass n)); done].
    done. }
  unfold nativeDefine. munfold. simpl.
  destruct (validName (toLowerCase t)); simpl; [|done].
  destruct (nativeDefinitions s1 !! toLowerCase t); simpl; [done|].
  apply wf_native, Hwf2.
Qed.

(** Every state the API calls lead to from a freshly loaded module has the
    shape [wf]. *)
Lemma calls_wf (ks : list Call) (s : State) :
  wf s -> wf (calls ks s).
Proof.
  revert s. induction ks as [|k ks IH]; intros s Hwf; simpl; [done|].
  apply IH. destruct k; simpl.
  - apply define_wf, Hwf.
  - rewrite get_state. exact Hwf.
  - apply whenDefined_wf, Hwf.
  - apply definePivot_wf, Hwf.
Qed.

(** *** Nothing registered is taken back *)

Section Growth.

Variable X : Ctor -> Prop.

Local Abbreviation grows := (Registry.grows X).

Lemma grows_refl (s : State) : grows s s.
Proof. split; eauto. Qed.

Lemma grows_trans (s1 s2 s3 : State) : grows s1 s2 -> grows s2 s3 -> grows s1 s3.
Proof.
  intros [A1 A2 A3 A4 A5 A6] [B1 B2 B3 B4 B5 B6]. split; eauto.
  - intros r d Hd. destruct (A2 _ _ Hd) as (d' & Hd' & Hu).
    destruct (B2 _ _ Hd') as (d'' & Hd'' & Hu'). exists d''. split; congruence.
  - intros t [r Hr]. rewrite (B5 t); eauto.
  - intros c r Hc. destruct (B6 _ _ Hc) as [Hc'|]; eauto.
Qed.

Lemma grows_tables (s s' : State) : tables s = tables s' -> grows s s'.
Proof.
  unfold tables. intros [= Hh Hc Hp Ht Hk Hd Hn].
  split; rewrite <- ?Hh, <- ?Hp, <- ?Ht, <- ?Hd, <- ?Hn, <- ?Hc; eauto.
Qed.

Lemma grows_alloc (s : State) (c : Ctor) (d : DefinitionRecord) :
  X c ->
  grows s (set_definitionForConstructor <[c := fresh (dom (heap s))]>
             (set_heap <[fresh (dom (heap s)) := d]> s)).
Proof.
  intros Hx.
  assert (Hfresh : heap s !! fresh (dom (heap s)) = None).
  { apply not_elem_of_dom, is_fresh. }
  split; simpl; eauto.
  - intros r d' Hd. exists d'. split; [|done].
    rewrite lookup_insert_ne; [done|]. intros <-. congruence.
  - intros c' r. rewrite lookup_insert_Some. intros [[<- <-] | [Hne Hl]]; eauto.
Qed.

Lemma grows_register (s : State) (t : string) (c : Ctor) (r : positive) (P : Ctor) :
  definitionsByTag s !! t = None -> pivotCtorByTag s !! t = None ->
  grows s (set_pivotCtorByTag <[t := P]>
             (set_definitionsByClass <[c := r]>
                (set_definitionsByTag <[t := r]> s))).
Proof.
  intros Ht Hp. split; simpl; eauto.
  - intros t' r' Hl. rewrite lookup_insert_ne; [done|]. intros <-. congruence.
  - intros t' P' Hl. rewrite lookup_insert_ne; [done|]. intros <-. congruence.
Qed.

Lemma grows_native_set (s : State) (t : string) (P : Ctor) :
  nativeDefinitions s !! t = None ->
  grows s (set_nativeDefinitions <[t := P]> s).
Proof.
  intros Hn. split; simpl; eauto.
  intros t' P' Hl. rewrite lookup_insert_ne; [done|]. intros <-. congruence.
Qed.

Lemma grows_with_pivot (s : State) (r : positive) (P : Ctor) :
  grows s (set_heap (alter (withPivotCtor P) r) s).
Proof.
  split; simpl; eauto.
  intros r' d Hd. destruct (decide (r = r')) as [<-|Hne].
  - exists (withPivotCtor P d). rewrite lookup_alter_eq, Hd. done.
  - exists d. rewrite lookup_alter_ne; done.
Qed.

Lemma grows_promise_set (s : State) (t : string) (p : positive) :
  definitionsByTag s !! t = None ->
  grows s (set_definedPromises <[t := p]> s).
Proof.
  intros Ht. split; simpl; eauto.
  intros t' [r Hr]. rewrite lookup_insert_ne; [done|]. intros <-. congruence.
Qed.

Lemma getDefinitionForConstructor_grows (c : Ctor) (s : State) :
  X c -> grows s (snd (getDefinitionForConstructor c s)).
Proof.
  intros Hx. unfold Registry.getDefinitionForConstructor. munfold.
  destruct (hasObjectPrototype (classOf c)); [|apply grows_refl].
  destruct (definitionForConstructor s !! c); simpl; [apply grows_refl|].
  apply grows_alloc, Hx.
Qed.

Lemma define_grows (t : string) (c : Ctor) (o : option ElementDefinitionOptions)
    (s : State) :
  wf s -> X c -> grows s (snd (define t c o s)).
Proof.
  intros Hwf Hx. unfold Registry.define. munfold.
  destruct (extendsGiven o); [apply grows_refl|].
  unfold nativeGet. destruct (getRejects t); munfold; simpl; [apply grows_refl|].
  destruct (definitionsByTag s !! toLowerCase t) eqn:Htag; simpl;
    [apply grows_refl|].
  pose proof (getDefinitionForConstructor_grows c s Hx) as Hg1.
  destruct (getDefinitionForConstructor c s) as [[e|r] s1] eqn:Hg; simpl in Hg1;
    [exact Hg1|].
  destruct (getDefinitionForConstructor_result _ _ _ _ Hwf Hg)
    as (Hproto & Hc1 & (d & Hd & Hu) & Ep & Et & Ek & Edp & En).
  destruct (definitionsByClass s1 !! c); simpl; [exact Hg1|].
  assert (Hpiv : pivotCtorByTag s1 !! toLowerCase t = None).
  { rewrite Ep. destruct (pivotCtorByTag s !! toLowerCase t) eqn:E; [|done].
    destruct (wf_pivot_tag _ _ Hwf _ _ E) as [? ?]. congruence. }
  rewrite Hpiv. unfold createPivotingClass. munfold. simpl. rewrite Hd. simpl.
  set (n := fresh (dom (pivotClasses s1))).
  match goal with
  | |- context [nativeDefine _ _ _ ?st] => set (s2 := st)
  end.
  assert (Hg2 : grows s s2).
  { apply (grows_trans _ s1); [exact Hg1|].
    eapply grows_trans;
      [apply (grows_register s1 (toLowerCase t) c r (PivotClass n));
       [rewrite Et; exact Htag|exact Hpiv]|].
    apply grows_tables. done. }
  unfold nativeDefine. munfold. simpl.
  destruct (validName (toLowerCase t)); simpl; [|exact Hg2].
  destruct (nativeDefinitions s1 !! toLowerCase t) eqn:Hnat; simpl; [exact Hg2|].
  match goal with
  | |- context [set_heap (alter ?f r) ?st] => set (s3 := set_heap (alter f r) st)
  end.
  assert (Hg3 : grows s s3).
  { apply (grows_trans _ s2); [exact Hg2|].
    eapply grows_trans; [apply (grows_native_set s2 (toLowerCase t)); exact Hnat|].
    apply grows_with_pivot. }
  clearbody s3.
  assert (Hfin : forall s4, tables s4 = tables s3 -> grows s s4).
  { intros s4 E. apply (grows_trans _ s3); [exact Hg3|].
    apply grows_tables. done. }
  assert (Hend : forall s4, tables s4 = tables s3 ->
    grows s (snd (match definedResolvers s4 !! toLowerCase t with
                  | Some p => resolve p c
                  | None => fun s5 : State => (inr tt, s5)
                  end s4))).
  { intros s4 E. destruct (definedResolvers s4 !! toLowerCase t);
      unfold resolve; munfold; simpl; apply Hfin; exact E. }
  destruct (awaitingUpgrade s1 !! toLowerCase t) as [els|].
  - pose proof (forEach_upgrade_tables r els
                  (set_awaitingUpgrade (delete (toLowerCase t)) s3)) as Hl.
    destruct (forEach _ els _) as [[e|[]] s4]; simpl in Hl.
    + apply Hfin. exact Hl.
    + apply Hend. exact Hl.
  - apply Hend. done.
Qed.

Lemma whenDefined_grows (t : string) (s : State) :
  grows s (snd (whenDefined t s)).
Proof.
  unfold Registry.whenDefined, nativeWhenDefined.
  destruct (validName t); [|apply grows_refl].
  destruct (nativeDefinitions s !! t); simpl; [|apply grows_refl].
  unfold whenDefinedCallback. munfold.
  destruct (definedPromises s !! t); simpl.
  { destruct (promises s !! _) as [[?|]|]; apply grows_refl. }
  destruct (definitionsByTag s !! t) eqn:Ht; simpl.
  { destruct (heap s !! _); apply grows_refl. }
  rewrite lookup_insert_eq. simpl.
  eapply grows_trans;
    [apply (grows_promise_set s t (fresh (dom (promises s))) Ht)|].
  apply grows_tables. done.
Qed.

Lemma definePivot_grows (t : string) (c : Ctor) (s : State) :
  wf s -> X c -> grows s (snd (definePivot t c s)).
Proof.
  intros Hwf Hx. unfold Registry.definePivot. munfold.
  destruct (pivotCtorByTag s !! toLowerCase t) eqn:Hpiv; simpl; [apply grows_refl|].
  pose proof (getDefinitionForConstructor_grows c s Hx) as Hg1.
  destruct (getDefinitionForConstructor c s) as [[e|r] s1] eqn:Hg; simpl in Hg1;
    [exact Hg1|].
  destruct (getDefinitionForConstructor_result _ _ _ _ Hwf Hg)
    as (Hproto & Hc1 & (d & Hd & Hu) & Ep & Et & Ek & Edp & En).
  assert (Htag : definitionsByTag s !! toLowerCase t = None).
  { destruct (definitionsByTag s !! toLowerCase t) eqn:E; [|done].
    destruct (wf_tag_pivot _ _ Hwf _ _ E) as [? ?]. congruence. }
  unfold createPivotingClass. munfold. rewrite Hd. simpl.
  set (n := fresh (dom (pivotClasses s1))).
  match goal with
  | |- context [nativeDefine _ _ _ ?st] => set (s2 := st)
  end.
  assert (Hg2 : grows s s2).
  { apply (grows_trans _ s1); [exact Hg1|].
    eapply grows_trans;
      [apply (grows_register s1 (toLowerCase t) c r (PivotClass n));
       [rewrite Et; exact Htag|rewrite Ep; exact Hpiv]|].
    apply grows_tables. done. }
  unfold nativeDefine. munfold. simpl.
  destruct (validName (toLowerCase t)); simpl; [|exact Hg2].
  destruct (nativeDefinitions s1 !! toLowerCase t) eqn:Hnat; simpl; [exact Hg2|].
  apply (grows_trans _ s2); [exact Hg2|].
  apply (grows_native_set s2 (toLowerCase t)). exact Hnat.
Qed.

Lemma calls_grows (ks : list Call) (s : State) :
  wf s -> Forall (fun k => forall c, callCtor k = Some c -> X c) ks ->
  grows s (calls ks s).
Proof.
  revert s. induction ks as [|k ks IH]; intros s Hwf Hks; simpl;
    [apply grows_refl|].
  inversion Hks as [|? ? Hk Hks']; subst.
  assert (Hstep : wf (call k s) /\
                  grows s (call k s)).
  { destruct k; simpl.
    - split; [apply define_wf, Hwf|apply define_grows; [exact Hwf|apply Hk; done]].
    - rewrite get_state. split; [exact Hwf|apply grows_refl].
    - split; [apply whenDefined_wf, Hwf|apply whenDefined_grows].
    - split; [apply definePivot_wf, Hwf
             |apply definePivot_grows; [exact Hwf|apply Hk; done]]. }
  destruct Hstep as [Hwf' Hg]. eapply grows_trans; [exact Hg|].
  apply IH; assumption.
Qed.

End Growth.

(** [get] hands out the constructor of a definition record and nothing
    else; when every constructor that has a record is a user class, it never
    hands out a pivot class. *)
Lemma get_user_class (t : string) (P : Ctor) (s s' : State) :
  wf s ->
  (forall c r, definitionForConstructor s !! c = Some r -> exists n, c = UserClass n) ->
  get t s = (inr (Some P), s') -> exists n, P = UserClass n.
Proof.
  intros Hwf Huser. unfold Registry.get, nativeGet. munfold.
  destruct (getRejects t); simpl; [discriminate|].
  destruct (nativeDefinitions s !! t); simpl; [|discriminate].
  destruct (definitionsByTag s !! t) as [r|] eqn:Ht; simpl; [|discriminate].
  destruct (wf_tag_ctor _ _ Hwf _ _ Ht) as [c0 Hc].
  destruct (wf_ctor_def _ _ Hwf _ _ Hc) as (d & -> & Hu).
  intros [= <- _]. rewrite Hu. eauto.
Qed.

(** From a freshly loaded module, calls that pass user classes never make
    [get] return a pivot class. *)
Lemma get_never_pivot (native : gmap string Ctor) (ks : list Call)
    (t : string) (P : Ctor) (s' : State) :
  Forall (fun k => forall c, callCtor k = Some c -> exists n, c = UserClass n) ks ->
  get t (calls ks (initial native)) = (inr (Some P), s') ->
  exists n, P = UserClass n.
Proof.
  intros Hks. apply get_user_class.
  - apply calls_wf, wf_initial.
  - intros c r Hc.
    destruct (grows_ctor _ _ _
                (calls_grows (fun c => exists n, c = UserClass n) ks
                   (initial native) (wf_initial native) Hks) _ _ Hc)
      as [Hinit|Hx]; [|exact Hx].
    simpl in Hinit. rewrite lookup_empty in Hinit. discriminate.
Qed.

(** C9 (amended). In a state of the shape the API keeps, [define] throws a
    [DOMException] when [options.extends] is supplied with a non-empty
    value, when the lower-cased tag name already has a definition, or when
    the constructor is already in [definitionsByClass]; and the state after
    the throw is the state before it: no table was written. *)
Theorem define_rejects_duplicates (t : string) (c : Ctor)
    (o : option ElementDefinitionOptions) (s : State) :
  wf s ->
  (exists e, o = Some (mkOptions (Some e)) /\ e <> "") \/
  is_Some (definitionsByTag s !! toLowerCase t) \/
  is_Some (definitionsByClass s !! c) ->
  exists message, define t c o s = (inl (DOMException message), s).
Proof.
  intros Hwf Hcase. unfold Registry.define. munfold.
  destruct (extendsGiven o) eqn:Hext; [eauto|].
  unfold nativeGet. destruct (getRejects t); munfold; simpl; [eauto|].
  destruct (definitionsByTag s !! toLowerCase t) eqn:Htag; simpl; [eauto|].
  destruct Hcase as [(e & -> & Hne) | [[? ?] | [r Hr]]].
  - apply truthy_string_nonempty in Hne. simpl in Hext. congruence.
  - congruence.
  - destruct (wf_class_ctor _ _ Hwf _ _ Hr) as [Hc Hp].
    rewrite (getDefinitionForConstructor_known c r s Hp Hc), Hr. simpl. eauto.
Qed.

(** Which exception each check raises, in the order the checks are made. *)
Lemma define_extends_message (t : string) (c : Ctor) (e : string) (s : State) :
  e <> "" ->
  define t c (Some (mkOptions (Some e))) s = (inl (DOMException extendsMessage), s).
Proof.
  intros Hne. apply truthy_string_nonempty in Hne.
  unfold Registry.define. simpl. rewrite Hne. done.
Qed.

Lemma define_name_used_message (t : string) (c : Ctor)
    (o : option ElementDefinitionOptions) (s : State) :
  extendsGiven o = false -> getRejects t = false ->
  is_Some (definitionsByTag s !! toLowerCase t) ->
  define t c o s = (inl (DOMException (nameUsedMessage (toLowerCase t))), s).
Proof.
  intros Hext Hv [r Hr]. unfold Registry.define, nativeGet. munfold.
  rewrite Hext, Hv. simpl. rewrite Hr. done.
Qed.

Lemma define_ctor_used_message (t : string) (c : Ctor)
    (o : option ElementDefinitionOptions) (s : State) :
  wf s -> extendsGiven o = false -> getRejects t = false ->
  definitionsByTag s !! toLowerCase t = None ->
  is_Some (definitionsByClass s !! c) ->
  define t c o s = (inl (DOMException ctorUsedMessage), s).
Proof.
  intros Hwf Hext Hv Ht [r Hr]. unfold Registry.define, nativeGet. munfold.
  rewrite Hext, Hv. simpl. rewrite Ht. simpl.
  destruct (wf_class_ctor _ _ Hwf _ _ Hr) as [Hc Hp].
  rewrite (getDefinitionForConstructor_known c r s Hp Hc), Hr. done.
Qed.

Lemma registered_get (t : string) (c : Ctor) (r : positive)
    (d : DefinitionRecord) (P : Ctor) (s : State) :
  getRejects t = false -> validName t = true ->
  definitionsByTag s !! t = Some r -> heap s !! r = Some d -> UserCtor d = c ->
  nativeDefinitions s !! t = Some P -> definedPromises s !! t = None ->
  get t s = (inr (Some c), s) /\
  whenDefined t s = (Fulfilled c, s) /\
  whenDefinedCallback t s = (inr (inl c), s).
Proof.
  intros Hg Hv Ht Hd Hu Hn Hp.
  assert (Hcb : whenDefinedCallback t s = (inr (inl c), s)).
  { unfold whenDefinedCallback. munfold.
    rewrite Hp. simpl. rewrite Ht. simpl. rewrite Hd, Hu. done. }
  repeat split.
  - unfold Registry.get, nativeGet. munfold. rewrite Hg. simpl.
    rewrite Hn, Ht. simpl. rewrite Hd, Hu. done.
  - unfold Registry.whenDefined, nativeWhenDefined.
    rewrite Hv, Hn, Hcb. done.
  - exact Hcb.
Qed.

(** In a state of the shape [wf], [get] does not meet a missing record. *)
Lemma get_not_dangling (t : string) (s : State) :
  wf s -> fst (get t s) <> inl Dangling.
Proof.
  intros Hwf. unfold Registry.get, nativeGet. munfold.
  destruct (getRejects t); simpl; [discriminate|].
  destruct (nativeDefinitions s !! t); simpl; [|discriminate].
  destruct (definitionsByTag s !! t) as [r|] eqn:Ht; simpl; [|discriminate].
  destruct (wf_tag_ctor _ _ Hwf _ _ Ht) as [c0 Hc].
  destruct (wf_ctor_def _ _ Hwf _ _ Hc) as (d & -> & _). discriminate.
Qed.

(** After a [define tagName C] that returned and any further calls of the
    patched API, a name in lower case is served, whatever the host:
    [get tagName] returns [C]; [whenDefined tagName] is fulfilled with [C],
    and so is a promise handed out earlier whose callback runs then; the
    native registry meanwhile holds a pivot class under that name. *)
Lemma defined_lower_case_name_served (t : string) (c : Ctor)
    (o : option ElementDefinitionOptions) (s s' : State) (later : list Call) :
  toLowerCase t = t ->
  wf s ->
  define t c o s = (inr tt, s') ->
  let s'' := calls later s' in
  get t s'' = (inr (Some c), s'') /\
  whenDefined t s'' = (Fulfilled c, s'') /\
  whenDefinedCallback t s'' = (inr (inl c), s'') /\
  exists n, nativeDefinitions s'' !! t = Some (PivotClass n).
Proof.
  intros Hlower Hwf Hdef s''.
  destruct (define_outcome _ _ _ _ _ _ Hwf Hdef) as [Hwf' H].
  destruct (H eq_refl) as (Hg & Hv & r & d & n & Ht & Hd & Hu & _ & Hn & Hp).
  rewrite Hlower in Hv, Ht, Hn, Hp.
  assert (Hany : Forall (fun k => forall c, callCtor k = Some c -> True) later).
  { apply Forall_forall. done. }
  destruct (calls_grows (fun _ => True) later s' Hwf' Hany) as [G1 G2 G3 _ G5 _].
  fold s'' in G1, G2, G3, G5.
  destruct (G2 _ _ Hd) as (d' & Hd' & Hu').
  assert (Hp' : definedPromises s'' !! t = None).
  { rewrite G5; eauto. }
  destruct (registered_get t c r d' (PivotClass n) s'' Hg Hv (G1 _ _ Ht) Hd'
              ltac:(congruence) (G3 _ _ Hn) Hp') as (Hget & Hw & Hcb).
  repeat split; try assumption. eauto.
Qed.

(** On a host whose native [get] throws on every name that is not in lower
    case, which is what the comment on its call in [define] counts on, every
    name that [define] accepted is served. *)
Lemma defined_name_served_when_get_validates (t : string) (c : Ctor)
    (o : option ElementDefinitionOptions) (s s' : State) (later : list Call) :
  (forall name, getRejects name = false -> toLowerCase name = name) ->
  wf s ->
  define t c o s = (inr tt, s') ->
  let s'' := calls later s' in
  get t s'' = (inr (Some c), s'') /\
  whenDefined t s'' = (Fulfilled c, s'') /\
  whenDefinedCallback t s'' = (inr (inl c), s'') /\
  exists n, nativeDefinitions s'' !! t = Some (PivotClass n).
Proof.
  intros Hhost Hwf Hdef.
  destruct (define_outcome _ _ _ _ _ _ Hwf Hdef) as [_ H].
  destruct (H eq_refl) as (Hg & _).
  apply (defined_lower_case_name_served t c o s s' later (Hhost t Hg) Hwf Hdef).
Qed.

End RegistryProperties.

(** [define "x-foo" C1] on a freshly loaded module, then a second [define]
    of the same name. *)
Lemma define_rejects_duplicates_witness :
  let s1 := RegistryRuns.calls
              [Registry.CallDefine "x-foo" (Registry.UserClass 1) None]
              (Registry.initial ∅) in
  exists message,
    RegistryRuns.define "x-foo" (Registry.UserClass 2) None s1
    = (inl (Registry.DOMException message), s1).
Proof.
  intros s1.
  apply (define_rejects_duplicates Registry.Host.classOf Registry.Host.validName
           Registry.Host.getRejects Registry.Host.userUpgrade
           "x-foo" (Registry.UserClass 2) None s1).
  - apply calls_wf, wf_initial.
  - right. left. vm_compute. eauto.
Defined.

(** [options.extends] supplied as the empty string: the guard
    [options && options.extends] is falsy and [define] returns. *)
Lemma define_empty_extends_returns :
  let o := Registry.mkOptions (Some "") in
  let r := RegistryRuns.define "x-foo" (Registry.UserClass 1) (Some o)
             (Registry.initial ∅) in
  is_Some (Registry.extends o) /\
  fst r = inr tt /\
  fst (RegistryRuns.get "x-foo" (snd r)) = inr (Some (Registry.UserClass 1)).
Proof. split; [eauto|split; vm_compute; reflexivity]. Qed.

(** A name that the native registry defined before the patch, and that the
    patched tables do not know: [define] writes its tables, then the native
    [define] throws. *)
Lemma define_native_duplicate_writes :
  let native : gmap string Registry.Ctor := {["x-old" := Registry.UserClass 9]} in
  let r := RegistryRuns.define "x-old" (Registry.UserClass 1) None
             (Registry.initial native) in
  fst r = inl (Registry.DOMException "NotSupportedError") /\
  is_Some (Registry.definitionsByTag (snd r) !! "x-old") /\
  is_Some (Registry.definitionsByClass (snd r) !! Registry.UserClass 1).
Proof. repeat split; vm_compute; eauto. Qed.

(** [define "x-foo" C1] on a freshly loaded module, then [define "x-bar" C2]
    and [whenDefined "x-foo"]: the name is still served with [C1]. *)
Example defined_lower_case_name_served_run :
  let s' := snd (RegistryRuns.define "x-foo" (Registry.UserClass 1) None
                   (Registry.initial ∅)) in
  let s'' := RegistryRuns.calls
               [Registry.CallDefine "x-bar" (Registry.UserClass 2) None;
                Registry.CallWhenDefined "x-foo"] s' in
  RegistryRuns.get "x-foo" s'' = (inr (Some (Registry.UserClass 1)), s'') /\
  RegistryRuns.whenDefined "x-foo" s''
    = (Registry.Fulfilled (Registry.UserClass 1), s'') /\
  Registry.whenDefinedCallback "x-foo" s''
    = (inr (inl (Registry.UserClass 1)), s'') /\
  exists n, Registry.nativeDefinitions s'' !! "x-foo" = Some (Registry.PivotClass n).
Proof.
  intros s'.
  apply (defined_lower_case_name_served Registry.Host.classOf
           Registry.Host.validName Registry.Host.getRejects
           Registry.Host.userUpgrade
           "x-foo" (Registry.UserClass 1) None (Registry.initial ∅) s'
           [Registry.CallDefine "x-bar" (Registry.UserClass 2) None;
            Registry.CallWhenDefined "x-foo"]).
  - reflexivity.
  - apply wf_initial.
  - subst s'. vm_compute. reflexivity.
Qed.

(** C10. [define "X-Foo" C1] on a freshly loaded module: the native [get]
    that [define] calls for its SyntaxError does not throw, [define]
    lower-cases the name, registers it as "x-foo" and returns.  [get] and
    [whenDefined] look the name up as it was given: [get "X-Foo"] returns
    [undefined] and [whenDefined "X-Foo"] is rejected, while [get "x-foo"]
    returns [C1]. *)
Theorem define_mixed_case_name_not_served :
  let r := RegistryRuns.define "X-Foo" (Registry.UserClass 1) None
             (Registry.initial ∅) in
  fst r = inr tt /\
  fst (RegistryRuns.get "X-Foo" (snd r)) = inr None /\
  fst (RegistryRuns.whenDefined "X-Foo" (snd r))
    = Registry.Rejected (Registry.DOMException "SyntaxError") /\
  fst (RegistryRuns.get "x-foo" (snd r)) = inr (Some (Registry.UserClass 1)).
Proof. repeat split; vm_compute; reflexivity. Qed.

(** ** The generated render functions *)

Section Memoization.

Import Runtime.

Ltac runfold :=
  unfold mbind, R_bind, mret, R_ret, Runtime.bind, Runtime.ret in *.

Lemma fragmentOr_cached (N : nat) (hoisted : R nat) (f : nat) (s : ModuleState) :
  cached s !! N = Some f -> fragmentOr N hoisted s = (f, s).
Proof. intros H. unfold fragmentOr. rewrite H. done. Qed.

Lemma fragmentOr_first (N : nat) (strings : list string) (holes : list nat)
    (s : ModuleState) :
  cached s !! N = None ->
  fragmentOr N (parseFragment strings holes) s
  = (length (built s),
     mkModule (<[N := length (built s)]> (cached s))
              (built s ++ [mkFragment strings holes])).
Proof. intros H. unfold fragmentOr. rewrite H. done. Qed.

(** Whatever the module state and whatever the hoisted function does, the
    memoized expression leaves the instance it returns in [$fragmentN], and
    evaluating it again returns the same instance without calling the
    hoisted function. *)
Lemma fragmentOr_idempotent (N : nat) (hoisted : R nat) (s : ModuleState) :
  let e := fragmentOr N hoisted in
  cached (snd (e s)) !! N = Some (fst (e s)) /\
  e (snd (e s)) = (fst (e s), snd (e s)).
Proof.
  simpl. destruct (cached s !! N) as [f|] eqn:Hc.
  - rewrite (fragmentOr_cached _ _ _ _ Hc). simpl.
    rewrite (fragmentOr_cached _ _ _ _ Hc). auto.
  - assert (E : fragmentOr N hoisted s
               = (fst (hoisted s),
                  mkModule (<[N := fst (hoisted s)]> (cached (snd (hoisted s))))
                           (built (snd (hoisted s))))).
    { unfold fragmentOr. rewrite Hc. destruct (hoisted s). done. }
    rewrite E. simpl. rewrite lookup_insert_eq. split; [done|].
    apply fragmentOr_cached. simpl. apply lookup_insert_eq.
Qed.

Lemma invoke_cached {A} (render : R A) (a : A) (n : nat) (s : ModuleState) :
  render s = (a, s) -> invoke render n s = (repeat a n, s).
Proof.
  intros H. induction n as [|n IH]; simpl; [done|].
  runfold. rewrite H, IH. done.
Qed.

Lemma StaticTable_tmpl_cached (cmp : JsValue) (slotset : option (gmap string (list VNode)))
    (f : nat) (s : ModuleState) :
  cached s !! 1 = Some f ->
  StaticTable.tmpl cmp slotset s = ([VStatic f (KNum 1)], s).
Proof.
  intros H. unfold StaticTable.tmpl. runfold.
  rewrite (fragmentOr_cached _ _ _ _ H). done.
Qed.

Lemma BooleanAttributes_tmpl_cached (cmp : JsValue)
    (slotset : option (gmap string (list VNode))) (f : nat) (s : ModuleState) :
  cached s !! 1 = Some f ->
  exists input,
    BooleanAttributes.tmpl cmp slotset s = ([VStatic f (KNum 1); input], s).
Proof.
  intros H. unfold BooleanAttributes.tmpl. runfold.
  rewrite (fragmentOr_cached _ _ _ _ H). eauto.
Qed.

Lemma BooleanAttributes_invokeWith_cached (cmps : list JsValue)
    (slotset : option (gmap string (list VNode))) (f : nat) (s : ModuleState) :
  cached s !! 1 = Some f ->
  snd (invokeWith (fun cmp => BooleanAttributes.tmpl cmp slotset) cmps s) = s /\
  Forall (fun r => head r = Some (VStatic f (KNum 1)))
    (fst (invokeWith (fun cmp => BooleanAttributes.tmpl cmp slotset) cmps s)).
Proof.
  intros H. induction cmps as [|cmp cmps [IHs IHr]]; simpl; [auto|].
  runfold.
  destruct (BooleanAttributes_tmpl_cached cmp slotset f s H) as [input ->].
  destruct (invokeWith _ cmps s) as [rs s']. simpl in *. subst s'.
  split; [done|]. constructor; done.
Qed.

Lemma invoke_S {A} (render : R A) (n : nat) (s : ModuleState) :
  invoke render (S n) s
  = (fst (render s) :: fst (invoke render n (snd (render s))),
     snd (invoke render n (snd (render s)))).
Proof.
  simpl. runfold. destruct (render s) as [a s1]. simpl.
  destruct (invoke render n s1). done.
Qed.

Lemma invokeWith_cons {A B} (render : A -> R B) (c : A) (cmps : list A)
    (s : ModuleState) :
  invokeWith render (c :: cmps) s
  = (fst (render c s) :: fst (invokeWith render cmps (snd (render c s))),
     snd (invokeWith render cmps (snd (render c s)))).
Proof.
  simpl. runfold. destruct (render c s) as [a s1]. simpl.
  destruct (invokeWith render cmps s1). done.
Qed.

(** The modules that build their static node when they load hand out that
    node on every invocation and build nothing while rendering. *)
Lemma SlotDefinition_invoke (n : nat) (cmp : JsValue)
    (slotset : option (gmap string (list VNode))) (s : ModuleState) :
  invoke (SlotDefinition.tmpl cmp slotset) n s
  = (repeat (fst (SlotDefinition.tmpl cmp slotset s)) n, s).
Proof. apply invoke_cached. reflexivity. Qed.

Lemma StyleImportant_invoke (n : nat) (cmp : JsValue)
    (slotset : option (gmap string (list VNode))) (s : ModuleState) :
  invoke (StyleImportant.tmpl cmp slotset) n s
  = (repeat [StyleImportant.hoisted1] n, s).
Proof. apply invoke_cached. reflexivity. Qed.

(** The invocations of the two render functions whose only write is
    [$fragment1 || ($fragment1 = $hoisted1())]: the module state is
    untouched when [$fragment1] is set or nothing was invoked, and else has
    one more instance, kept in [$fragment1]. *)
Lemma StaticTable_run (n : nat) (cmp : JsValue)
    (slotset : option (gmap string (list VNode))) (s : ModuleState) :
  invoke (StaticTable.tmpl cmp slotset) n s
  = (repeat [VStatic (default (length (built s)) (cached s !! 1)) (KNum 1)] n,
     match cached s !! 1, n with
     | None, S _ =>
         mkModule (<[1 := length (built s)]> (cached s))
           (built s ++ [mkFragment
                          ["<table"; ""; "><tbody"; ""; "><tr"; "";
                           "></tr></tbody></table>"]
                          [1; 2; 1; 2; 1; 2]])
     | _, _ => s
     end).
Proof.
  destruct (cached s !! 1) as [f|] eqn:Hc; simpl.
  - rewrite (invoke_cached _ _ n s (StaticTable_tmpl_cached cmp slotset f s Hc)).
    destruct n; done.
  - destruct n as [|n]; [done|].
    rewrite invoke_S.
    assert (E : StaticTable.tmpl cmp slotset s
                = ([VStatic (length (built s)) (KNum 1)],
                   mkModule (<[1 := length (built s)]> (cached s))
                     (built s ++ [mkFragment
                                    ["<table"; ""; "><tbody"; ""; "><tr"; "";
                                     "></tr></tbody></table>"]
                                    [1; 2; 1; 2; 1; 2]]))).
    { unfold StaticTable.tmpl, StaticTable.hoisted1. runfold.
      rewrite (fragmentOr_first _ _ _ _ Hc). done. }
    rewrite E. simpl.
    match goal with
    | |- context [invoke _ n ?s1] =>
        rewrite (invoke_cached _ _ n s1
                   (StaticTable_tmpl_cached cmp slotset (length (built s)) s1
                      (lookup_insert_eq _ _ _)))
    end.
    done.
Qed.

Lemma BooleanAttributes_run (cmps : list JsValue)
    (slotset : option (gmap string (list VNode))) (s : ModuleState) :
  let r := invokeWith (fun c => BooleanAttributes.tmpl c slotset) cmps s in
  length (fst r) = length cmps /\
  Forall (fun v => head v
                   = Some (VStatic (default (length (built s)) (cached s !! 1))
                             (KNum 1)))
    (fst r) /\
  snd r = match cached s !! 1, cmps with
          | None, _ :: _ =>
              mkModule (<[1 := length (built s)]> (cached s))
                (built s ++ [mkFragment ["<p hidden"; ""; ">x</p>"] [1; 2]])
          | _, _ => s
          end.
Proof.
  assert (Hcached : forall cs f s0, cached s0 !! 1 = Some f ->
    length (fst (invokeWith (fun c => BooleanAttributes.tmpl c slotset) cs s0))
    = length cs).
  { intros cs f s0 H0. induction cs as [|c cs IH]; [done|].
    rewrite invokeWith_cons. simpl.
    destruct (BooleanAttributes_tmpl_cached c slotset f s0 H0) as [input ->].
    simpl. rewrite IH. done. }
  simpl. destruct (cached s !! 1) as [f|] eqn:Hc; simpl.
  - destruct (BooleanAttributes_invokeWith_cached cmps slotset f s Hc) as [-> Hr].
    split; [apply (Hcached cmps f s Hc)|]. split; [exact Hr|].
    destruct cmps; done.
  - destruct cmps as [|c cmps]; [simpl; split; [done|split; [constructor|done]]|].
    rewrite invokeWith_cons.
    assert (E : exists input,
      BooleanAttributes.tmpl c slotset s
      = ([VStatic (length (built s)) (KNum 1); input],
         mkModule (<[1 := length (built s)]> (cached s))
           (built s ++ [mkFragment ["<p hidden"; ""; ">x</p>"] [1; 2]]))).
    { unfold BooleanAttributes.tmpl, BooleanAttributes.hoisted1. runfold.
      rewrite (fragmentOr_first _ _ _ _ Hc). eauto. }
    destruct E as [input ->]. simpl.
    match goal with
    | |- context [invokeWith _ cmps ?s1] =>
        pose proof (Hcached cmps (length (built s)) s1 (lookup_insert_eq _ _ _))
          as Hlen;
        destruct (BooleanAttributes_invokeWith_cached cmps slotset
                    (length (built s)) s1 (lookup_insert_eq _ _ _)) as [Hs Hr]
    end.
    rewrite Hs, Hlen. split; [done|]. split; [constructor; done|done].
Qed.

(** C2. Over any number of invocations of the render function of the static
    table, from any module state, every invocation returns the same
    instance of the hoisted fragment: the one in [$fragment1] when there is
    one, and else the one instance that the first invocation builds by
    calling [$hoisted1], which is an instance of the table fragment and is
    left in [$fragment1]; no other instance is built.  On a freshly loaded
    module nothing is built before the first invocation, and after it the
    one instance built is the instance every invocation returns.  The same
    holds for the render function with the boolean attributes and its
    paragraph fragment while the component changes between invocations.  The
    memoized expression itself, over any hoisted function, leaves what it
    returns in [$fragmentN] and returns it again without a further call. *)
Theorem hoisted_fragment_built_once (n : nat) (cmp : JsValue) (cmps : list JsValue)
    (slotset : option (gmap string (list VNode))) (s : ModuleState) :
  let table :=
    mkFragment ["<table"; ""; "><tbody"; ""; "><tr"; ""; "></tr></tbody></table>"]
      [1; 2; 1; 2; 1; 2] in
  let paragraph := mkFragment ["<p hidden"; ""; ">x</p>"] [1; 2] in
  let f := default (length (built s)) (cached s !! 1) in
  let tables := invoke (StaticTable.tmpl cmp slotset) n in
  let inputs := invokeWith (fun c => BooleanAttributes.tmpl c slotset) cmps in
  fst (tables s) = repeat [VStatic f (KNum 1)] n /\
  built (snd (tables s))
  = (built s ++ match cached s !! 1, n with
                | None, S _ => [table]
                | _, _ => []
                end)%list /\
  (0 < n -> cached (snd (tables s)) !! 1 = Some f) /\
  fst (tables loaded) = repeat [VStatic 0 (KNum 1)] n /\
  built (snd (tables loaded)) = match n with
                                | 0 => []
                                | S _ => [table]
                                end /\
  length (fst (inputs s)) = length cmps /\
  Forall (fun r => head r = Some (VStatic f (KNum 1))) (fst (inputs s)) /\
  built (snd (inputs s))
  = (built s ++ match cached s !! 1, cmps with
                | None, _ :: _ => [paragraph]
                | _, _ => []
                end)%list /\
  (cmps <> [] -> cached (snd (inputs s)) !! 1 = Some f) /\
  Forall (fun r => head r = Some (VStatic 0 (KNum 1))) (fst (inputs loaded)) /\
  built (snd (inputs loaded)) = match cmps with
                                | [] => []
                                | _ :: _ => [paragraph]
                                end /\
  (forall N hoisted s0,
     let e := fragmentOr N hoisted in
     cached (snd (e s0)) !! N = Some (fst (e s0)) /\
     e (snd (e s0)) = (fst (e s0), snd (e s0))).
Proof.
  intros table paragraph f tables inputs. subst tables inputs.
  rewrite (StaticTable_run n cmp slotset s).
  rewrite (StaticTable_run n cmp slotset loaded).
  destruct (BooleanAttributes_run cmps slotset s) as (Hl & Hr & Hs).
  destruct (BooleanAttributes_run cmps slotset loaded) as (_ & Hr0 & Hs0).
  rewrite Hs, Hs0. simpl.
  split; [done|]. split.
  { destruct (cached s !! 1), n; simpl; rewrite ?app_nil_r; done. }
  split.
  { subst f. intros Hn. destruct (cached s !! 1) eqn:Hc, n; simpl; try lia;
      [done|apply lookup_insert_eq]. }
  split; [done|]. split; [destruct n; done|].
  split; [done|]. split; [exact Hr|]. split.
  { destruct (cached s !! 1), cmps; simpl; rewrite ?app_nil_r; done. }
  split.
  { subst f. intros Hn. destruct (cached s !! 1) eqn:Hc, cmps; simpl; try done.
    apply lookup_insert_eq. }
  split; [exact Hr0|]. split; [destruct cmps; done|].
  intros N hoisted s0. apply fragmentOr_idempotent.
Qed.

End Memoization.

Section RenderFunctions.

Import Runtime.

Ltac runfold :=
  unfold mbind, R_bind, mret, R_ret, Runtime.bind, Runtime.ret in *.

Lemma NamedSlot_tmpl_result (cmp : JsValue)
    (slotset : option (gmap string (list VNode))) (s : ModuleState) :
  fst (NamedSlot.tmpl cmp slotset s)
  = [VElement "section" NamedSlot.stc0
       [api_slot "test" NamedSlot.stc1
          [VStatic (fst (fragmentOr 1 NamedSlot.hoisted1 s)) (KStr "@test:3")]
          slotset]].
Proof.
  unfold NamedSlot.tmpl. runfold.
  destruct (fragmentOr 1 NamedSlot.hoisted1 s). done.
Qed.

(** C5. With an empty or absent slot map, or one without content for the
    slot, the render function of the named-slot module yields the slot with
    exactly the default fragment it passed to the slot call; with non-empty
    content for ["test"] it yields exactly that content; the slot names in
    the rendered tree are the ones recorded in [slots].  The module whose
    default paragraph is built at load time behaves the same for the default
    slot [""]. *)
Theorem slot_default_fallback (cmp : JsValue) (s : ModuleState)
    (v : VNode) (vs : list VNode) (others : gmap string (list VNode)) :
  let fallback :=
    [VStatic (fst (fragmentOr 1 NamedSlot.hoisted1 s)) (KStr "@test:3")] in
  let section children :=
    [VElement "section" NamedSlot.stc0 [VSlot "test" NamedSlot.stc1 children]] in
  fst (NamedSlot.tmpl cmp None s) = section fallback /\
  fst (NamedSlot.tmpl cmp (Some ∅) s) = section fallback /\
  fst (NamedSlot.tmpl cmp (Some (delete "test" others)) s) = section fallback /\
  fst (NamedSlot.tmpl cmp (Some (<["test" := []]> others)) s) = section fallback /\
  fst (NamedSlot.tmpl cmp (Some (<["test" := v :: vs]> others)) s)
    = section (v :: vs) /\
  flat_map slotNames (fst (NamedSlot.tmpl cmp None s)) = NamedSlot.slots /\
  fst (SlotDefinition.tmpl cmp None s)
    = [VElement "section" SlotDefinition.stc0
         [VSlot "" SlotDefinition.stc1 [SlotDefinition.hoisted1]]] /\
  fst (SlotDefinition.tmpl cmp (Some ∅) s)
    = [VElement "section" SlotDefinition.stc0
         [VSlot "" SlotDefinition.stc1 [SlotDefinition.hoisted1]]] /\
  fst (SlotDefinition.tmpl cmp (Some (<["" := v :: vs]> others)) s)
    = [VElement "section" SlotDefinition.stc0
         [VSlot "" SlotDefinition.stc1 (v :: vs)]] /\
  flat_map slotNames (fst (SlotDefinition.tmpl cmp None s)) = SlotDefinition.slots.
Proof.
  simpl. rewrite !NamedSlot_tmpl_result. unfold api_slot, SlotDefinition.tmpl.
  repeat split; simpl;
    rewrite ?lookup_empty, ?lookup_delete_eq, ?lookup_insert_eq; reflexivity.
Qed.

(** C6. In two invocations in a row, for any two component states, the
    [input] element's [disabled] and [title] attributes are the literals
    [""] and ["foo"], and its [readonly] attribute is [""] or [null]
    according to the truthiness of [getReadOnly] on the component of that
    invocation; the attributes come in the emitted order. *)
Theorem boolean_attributes_literal_and_bound (cmp1 cmp2 : JsValue)
    (slotset : option (gmap string (list VNode))) (s : ModuleState) :
  let r1 := BooleanAttributes.tmpl cmp1 slotset s in
  let r2 := BooleanAttributes.tmpl cmp2 slotset (snd r1) in
  let readonly cmp := if truthy (prop cmp "getReadOnly") then JStr "" else JNull in
  exists fragment input1 input2,
    fst r1 = [VStatic fragment (KNum 1); input1] /\
    fst r2 = [VStatic fragment (KNum 1); input2] /\
    attrOf input1 "disabled" = Some (JStr "") /\
    attrOf input2 "disabled" = Some (JStr "") /\
    attrOf input1 "title" = Some (JStr "foo") /\
    attrOf input2 "title" = Some (JStr "foo") /\
    attrOf input1 "readonly" = Some (readonly cmp1) /\
    attrOf input2 "readonly" = Some (readonly cmp2) /\
    attrNames input1 = ["readonly"; "disabled"; "title"] /\
    attrNames input2 = ["readonly"; "disabled"; "title"].
Proof.
  simpl. unfold BooleanAttributes.tmpl. runfold.
  pose proof (fragmentOr_idempotent 1 BooleanAttributes.hoisted1 s)
    as (_ & Hagain).
  destruct (fragmentOr 1 BooleanAttributes.hoisted1 s) as [f s1]. simpl in *.
  rewrite Hagain. simpl.
  eexists _, _, _. repeat split.
Qed.

(** C7. On a freshly loaded module, one invocation of the render function
    with the two [<p>Last child</p>] subtrees builds one fragment instance
    for each of them: the two fragments have the same text, the instance
    under key 2 of the first section is not the instance under key 8 of the
    third, each sits in its own [$fragmentN] variable, and a second
    invocation reuses both. *)
Theorem identical_static_subtrees_hoisted_apart (cmp cmp' : JsValue)
    (slotset : option (gmap string (list VNode))) :
  let r := StaticSiblings.tmpl cmp slotset loaded in
  let r' := StaticSiblings.tmpl cmp' slotset (snd r) in
  let lastChild := mkFragment ["<p"; ""; ">Last child</p>"] [1; 2] in
  exists first second third fourth f1 f2,
    fst r = [first; second; third; fourth] /\
    last (childrenOf first) = Some (VStatic f1 (KNum 2)) /\
    head (childrenOf third) = Some (VStatic f2 (KNum 8)) /\
    f1 <> f2 /\
    built (snd r) !! f1 = Some lastChild /\
    built (snd r) !! f2 = Some lastChild /\
    cached (snd r) !! 1 = Some f1 /\
    cached (snd r) !! 2 = Some f2 /\
    length (built (snd r)) = 3 /\
    snd r' = snd r /\
    exists first' second' third',
      fst r' = [first'; second'; third'; fourth] /\
      last (childrenOf first') = Some (VStatic f1 (KNum 2)) /\
      head (childrenOf third') = Some (VStatic f2 (KNum 8)).
Proof.
  simpl. eexists _, _, _, _, 0, 1. split; [reflexivity|].
  split.
  { simpl. unfold api_flatten. simpl.
    rewrite app_comm_cons. apply last_snoc. }
  repeat split; try (intros; discriminate).
  eexists _, _, _. split; [reflexivity|]. split; [|reflexivity].
  simpl. unfold api_flatten. simpl.
  rewrite app_comm_cons. apply last_snoc.
Qed.
















End RenderFunctions.

(** ** Style declarations *)

Section StyleDeclarations.

Import StyleAttribute.

Local Arguments String.append : simpl nomatch.

Lemma string_length_app (a b : string) :
  String.length (a ++ b) = String.length a + String.length b.
Proof. induction a as [|x a IH]; simpl; [done|]. f_equal. exact IH. Qed.

Lemma string_app_nil_r (a : string) : a ++ "" = a.
Proof. induction a as [|x a IH]; simpl; [done|]. f_equal. exact IH. Qed.

Lemma contains_app (c : ascii) (a b : string) :
  contains c (a ++ b) = contains c a || contains c b.
Proof.
  induction a as [|x a IH]; simpl; [done|].
  rewrite IH. apply orb_assoc.
Qed.

Lemma cut_app (c : ascii) (before after : string) :
  contains c before = false ->
  cut c (before ++ String c after) = Some (before, after).
Proof.
  induction before as [|x before IH]; simpl.
  - intros _. rewrite Ascii.eqb_refl. done.
  - intros H. apply orb_false_iff in H as [Hx Hb].
    rewrite Hx, (IH Hb). done.
Qed.

Lemma splitOn_plain (c : ascii) (a : string) :
  contains c a = false -> splitOn c a = [a].
Proof.
  induction a as [|x a IH]; simpl; [done|].
  intros H. apply orb_false_iff in H as [Hx Ha].
  rewrite Hx, (IH Ha). done.
Qed.

Lemma splitOn_app (c : ascii) (a b : string) :
  contains c a = false ->
  splitOn c (a ++ String c b) = a :: splitOn c b.
Proof.
  induction a as [|x a IH]; simpl.
  - intros _. rewrite Ascii.eqb_refl. done.
  - intros H. apply orb_false_iff in H as [Hx Ha].
    rewrite Hx, (IH Ha). done.
Qed.

Lemma stripImportant_plain (value : string) :
  contains "!" value = false -> stripImportant value = (value, false).
Proof.
  induction value as [|x value IH]; simpl; [done|].
  intros H. apply orb_false_iff in H as [Hx Hv].
  rewrite (IH Hv). rewrite Hx. done.
Qed.

Lemma stripImportant_flagged (value : string) :
  stripImportant (value ++ "!important") = (value, true).
Proof.
  induction value as [|x value IH]; [done|].
  change (String x value ++ "!important") with (String x (value ++ "!important")).
  assert (Hne : String.eqb (String x (value ++ "!important")) "!important" = false).
  { apply String.eqb_neq. intros H. apply (f_equal String.length) in H.
    simpl in H. rewrite string_length_app in H. simpl in H. lia. }
  unfold stripImportant; fold stripImportant. rewrite Hne, IH. done.
Qed.

Lemma parseDeclaration_write (d : string * string * bool) :
  plain d = true -> parseDeclaration (writeDeclaration d) = Some d.
Proof.
  destruct d as [[property value] important]. unfold plain, writeDeclaration.
  rewrite !andb_true_iff, !negb_true_iff. intros [[[Hp _] _] Hv].
  unfold parseDeclaration.
  change (property ++ ":" ++ value ++ (if important then "!important" else ""))
    with (property ++ String ":" (value ++ (if important then "!important" else ""))).
  rewrite (cut_app _ _ _ Hp). destruct important.
  - rewrite stripImportant_flagged. done.
  - rewrite string_app_nil_r, (stripImportant_plain _ Hv). done.
Qed.

Lemma writeDeclaration_no_semicolon (d : string * string * bool) :
  plain d = true -> contains ";" (writeDeclaration d) = false.
Proof.
  destruct d as [[property value] important]. unfold plain, writeDeclaration.
  rewrite !andb_true_iff, !negb_true_iff. intros [[[_ Hp] Hv] _].
  rewrite !contains_app, Hp, Hv. destruct important; done.
Qed.

(** Reading back what an author wrote gives the declarations in the order
    written, repeated ones included. *)
Lemma parseStyle_writeStyle (ds : list (string * string * bool)) :
  forallb plain ds = true -> parseStyle (writeStyle ds) = ds.
Proof.
  induction ds as [|d ds IH]; [done|].
  intros H. apply andb_true_iff in H as [Hd Hds]. specialize (IH Hds).
  unfold parseStyle in *. destruct ds as [|d' ds].
  - simpl. rewrite (splitOn_plain _ _ (writeDeclaration_no_semicolon _ Hd)).
    simpl. rewrite (parseDeclaration_write _ Hd). done.
  - change (writeStyle (d :: d' :: ds))
      with (writeDeclaration d ++ String ";" (writeStyle (d' :: ds))).
    rewrite (splitOn_app _ _ _ (writeDeclaration_no_semicolon _ Hd)).
    simpl omap at 1. rewrite (parseDeclaration_write _ Hd).
    simpl. f_equal. exact IH.
Qed.

Example parseStyle_duplicates :
  parseStyle "color:red;color:red;;color:blue"
  = [("color", "red", false); ("color", "red", false); ("color", "blue", false)].
Proof. reflexivity. Qed.

(** C4. The attribute text
    [background:blue!important;color:red;opacity:0.5!important] reads as the
    three triples [background/blue/true], [color/red/false],
    [opacity/0.5/true] in that order; these are the style declarations of
    the [div] the generated module creates and hands out on every
    invocation; and for every list of plain declarations, reading the text
    an author writes for it gives the list back, in order and with
    repetitions kept. *)
Theorem style_declarations_in_authored_order
    (ds : list (string * string * bool)) (cmp : Runtime.JsValue)
    (slotset : option (gmap string (list Runtime.VNode))) (s : Runtime.ModuleState) :
  forallb plain ds = true ->
  parseStyle "background:blue!important;color:red;opacity:0.5!important"
    = [("background", "blue", true); ("color", "red", false);
       ("opacity", "0.5", true)] /\
  Runtime.styleDecls <$> Runtime.dataOf StyleImportant.hoisted1
    = Some (parseStyle "background:blue!important;color:red;opacity:0.5!important") /\
  fst (StyleImportant.tmpl cmp slotset s) = [StyleImportant.hoisted1] /\
  parseStyle (writeStyle ds) = ds.
Proof.
  intros H. repeat split. apply parseStyle_writeStyle, H.
Qed.

Lemma style_declarations_in_authored_order_witness :
  parseStyle (writeStyle [("color", "red", false); ("color", "red", false);
                          ("top", "0", true)])
  = [("color", "red", false); ("color", "red", false); ("top", "0", true)].
Proof.
  apply (style_declarations_in_authored_order
           [("color", "red", false); ("color", "red", false); ("top", "0", true)]
           Runtime.JUndefined None Runtime.loaded).
  reflexivity.
Defined.

End StyleDeclarations.

(** ** The registry, call by call *)

Section RegistryCases.

Import Registry Lifecycle.

Variable classOf : Ctor -> ClassInfo.
Variable validName : string -> bool.
Variable getRejects : string -> bool.
Variable userUpgrade : Ctor -> positive -> option Exn.

Local Abbreviation wf := (Registry.wf classOf).
Local Abbreviation define :=
  (Registry.define classOf validName getRejects userUpgrade).
Local Abbreviation definePivot := (Registry.definePivot classOf validName).
Local Abbreviation get := (Registry.get getRejects).
Local Abbreviation whenDefined := (Registry.whenDefined validName).
Local Abbreviation getDefinitionForConstructor :=
  (Registry.getDefinitionForConstructor classOf).
Local Abbreviation allocated := (Lifecycle.allocated classOf).

Ltac munfold :=
  unfold mbind, M_bind, mret, M_ret, bind, ret, gets, modify, throw, deref in *.

(** The three ways [getDefinitionForConstructor] ends. *)
Lemma getDefinitionForConstructor_cases (c : Ctor) (s : State) :
  (hasObjectPrototype (classOf c) = false /\
   getDefinitionForConstructor c s
   = (inl (TypeError "The referenced constructor is not a constructor."), s)) \/
  (hasObjectPrototype (classOf c) = true /\
   exists r, definitionForConstructor s !! c = Some r /\
             getDefinitionForConstructor c s = (inr r, s)) \/
  (hasObjectPrototype (classOf c) = true /\
   definitionForConstructor s !! c = None /\
   getDefinitionForConstructor c s = (inr (fresh (dom (heap s))), allocated c s)).
Proof.
  unfold Registry.getDefinitionForConstructor. munfold.
  destruct (hasObjectPrototype (classOf c)); [|left; done].
  right. destruct (definitionForConstructor s !! c) as [r|] eqn:Hc; simpl.
  - left. eauto.
  - right. done.
Qed.

(** The ways [define] ends, in a state where no element awaits the name and
    no resolver is kept for it. *)
Lemma define_cases (t : string) (c : Ctor) (o : option ElementDefinitionOptions)
    (s s' : State) (res : Exn + unit) :
  wf s ->
  awaitingUpgrade s !! toLowerCase t = None ->
  (forall p, definedResolvers s !! toLowerCase t = Some p ->
             is_Some (nativeDefinitions s !! toLowerCase t)) ->
  define t c o s = (res, s') ->
  (exists e, res = inl e /\ s' = s) \/
  exists r s1 d,
    getDefinitionForConstructor c s = (inr r, s1) /\
    heap s1 !! r = Some d /\ UserCtor d = c /\
    extendsGiven o = false /\ getRejects t = false /\
    definitionsByTag s !! toLowerCase t = None /\
    definitionsByClass s !! c = None /\
    pivotCtorByTag s !! toLowerCase t = None /\
    ((exists e, res = inl e /\ s' = registered (toLowerCase t) c r d s1 /\
                (validName (toLowerCase t) = false \/
                 is_Some (nativeDefinitions s !! toLowerCase t))) \/
     (res = inr tt /\ validName (toLowerCase t) = true /\
      nativeDefinitions s !! toLowerCase t = None /\
      s' = defined (toLowerCase t) c r d s1)).
Proof.
  intros Hwf Haw Hres. unfold Registry.define. munfold.
  destruct (extendsGiven o) eqn:Hext; [intros [= <- <-]; left; eauto|].
  unfold nativeGet. destruct (getRejects t) eqn:Hget; munfold; simpl;
    [intros [= <- <-]; left; eauto|].
  destruct (definitionsByTag s !! toLowerCase t) eqn:Htag; simpl;
    [intros [= <- <-]; left; eauto|].
  destruct (getDefinitionForConstructor c s) as [[e|r] s1] eqn:Hg.
  { destruct (getDefinitionForConstructor_cases c s)
      as [[_ E]|[(_ & r & _ & E)|(_ & _ & E)]]; rewrite E in Hg;
      try discriminate.
    injection Hg as <- <-. intros [= <- <-]. left. eauto. }
  destruct (getDefinitionForConstructor_result classOf c r s s1 Hwf Hg)
    as (Hproto & Hc1 & (d & Hd & Hu) & Ep & Et & Ek & Edp & En).
  destruct (definitionsByClass s1 !! c) as [r'|] eqn:Hclass; simpl.
  { intros [= <- <-]. left. eexists. split; [done|].
    rewrite Ek in Hclass. destruct (wf_class_ctor _ _ Hwf _ _ Hclass) as [Hc Hp].
    rewrite (getDefinitionForConstructor_known classOf c r' s Hp Hc) in Hg.
    congruence. }
  assert (Hpiv : pivotCtorByTag s1 !! toLowerCase t = None).
  { rewrite Ep. destruct (pivotCtorByTag s !! toLowerCase t) eqn:E; [|done].
    destruct (wf_pivot_tag _ _ Hwf _ _ E) as [? ?]. congruence. }
  assert (Haw1 : awaitingUpgrade s1 = awaitingUpgrade s).
  { destruct (getDefinitionForConstructor_cases c s)
      as [[_ E]|[(_ & r0 & _ & E)|(_ & _ & E)]]; rewrite E in Hg;
      try discriminate; injection Hg as _ <-; done. }
  assert (Hrs1 : definedResolvers s1 = definedResolvers s).
  { destruct (getDefinitionForConstructor_cases c s)
      as [[_ E]|[(_ & r0 & _ & E)|(_ & _ & E)]]; rewrite E in Hg;
      try discriminate; injection Hg as _ <-; done. }
  rewrite Hpiv. unfold createPivotingClass. munfold. simpl. rewrite Hd. simpl.
  intros Hrun. right. exists r, s1, d.
  rewrite <- Ek, <- Ep. do 8 (split; [done|]).
  revert Hrun. unfold nativeDefine. munfold. simpl.
  destruct (validName (toLowerCase t)) eqn:Hvalid'; simpl;
    [|intros [= <- <-]; left; eauto].
  destruct (nativeDefinitions s1 !! toLowerCase t) eqn:Hnat; simpl.
  { intros [= <- <-]. left. eexists. split; [done|]. split; [done|].
    right. rewrite <- En, Hnat. eauto. }
  rewrite Haw1, Haw. simpl. rewrite Hrs1.
  destruct (definedResolvers s !! toLowerCase t) as [p|] eqn:Hp.
  { destruct (Hres p eq_refl) as [P HP]. congruence. }
  intros [= <- <-]. right. rewrite <- En. done.
Qed.

(** The ways the helper that [patchCustomElementRegistry] returns ends. *)
Lemma definePivot_cases (t : string) (c : Ctor) (s s' : State) (res : Exn + Ctor) :
  wf s ->
  definePivot t c s = (res, s') ->
  (exists P, pivotCtorByTag s !! toLowerCase t = Some P /\ res = inr P /\ s' = s) \/
  (pivotCtorByTag s !! toLowerCase t = None /\
   hasObjectPrototype (classOf c) = false /\
   res = inl (TypeError "The referenced constructor is not a constructor.") /\
   s' = s) \/
  exists r s1 d,
    pivotCtorByTag s !! toLowerCase t = None /\
    definitionsByTag s !! toLowerCase t = None /\
    getDefinitionForConstructor c s = (inr r, s1) /\
    heap s1 !! r = Some d /\ UserCtor d = c /\
    ((exists e, res = inl e /\ s' = registered (toLowerCase t) c r d s1 /\
                (validName (toLowerCase t) = false \/
                 is_Some (nativeDefinitions s !! toLowerCase t))) \/
     (res = inr (PivotClass (fresh (dom (pivotClasses s1)))) /\
      validName (toLowerCase t) = true /\
      nativeDefinitions s !! toLowerCase t = None /\
      s' = set_nativeDefinitions
             <[toLowerCase t := PivotClass (fresh (dom (pivotClasses s1)))]>
             (registered (toLowerCase t) c r d s1))).
Proof.
  intros Hwf. unfold Registry.definePivot. munfold.
  destruct (pivotCtorByTag s !! toLowerCase t) as [P|] eqn:Hpiv; simpl.
  { intros [= <- <-]. left. eauto. }
  destruct (getDefinitionForConstructor c s) as [[e|r] s1] eqn:Hg.
  { destruct (getDefinitionForConstructor_cases c s)
      as [[Hp E]|[(_ & r & _ & E)|(_ & _ & E)]]; rewrite E in Hg;
      try discriminate.
    injection Hg as <- <-. intros [= <- <-]. right. left. done. }
  destruct (getDefinitionForConstructor_result classOf c r s s1 Hwf Hg)
    as (Hproto & Hc1 & (d & Hd & Hu) & Ep & Et & Ek & Edp & En).
  intros Hrun. right. right. exists r, s1, d.
  split; [done|]. split.
  { destruct (definitionsByTag s !! toLowerCase t) eqn:E; [|done].
    destruct (wf_tag_pivot _ _ Hwf _ _ E) as [? ?]. congruence. }
  do 3 (split; [done|]).
  revert Hrun. unfold createPivotingClass. munfold. simpl. rewrite Hd. simpl.
  unfold nativeDefine. munfold. simpl.
  destruct (validName (toLowerCase t)) eqn:Hvalid'; simpl;
    [|intros [= <- <-]; left; eauto].
  destruct (nativeDefinitions s1 !! toLowerCase t) eqn:Hnat; simpl.
  { intros [= <- <-]. left. eexists. split; [done|]. split; [done|].
    right. rewrite <- En, Hnat. eauto. }
  intros [= <- <-]. right. rewrite <- En. done.
Qed.

(** [get] writes nothing; [whenDefined] writes nothing or keeps a new
    promise for a name the native registry has defined and the tables do
    not know. *)
Lemma whenDefined_cases (t : string) (s : State) :
  snd (whenDefined t s) = s \/
  (is_Some (nativeDefinitions s !! t) /\ definedPromises s !! t = None /\
   definitionsByTag s !! t = None /\
   whenDefined t s = (PendingOn (fresh (dom (promises s))), promised t s)).
Proof.
  unfold Registry.whenDefined, nativeWhenDefined.
  destruct (validName t); [|left; done].
  destruct (nativeDefinitions s !! t) eqn:Hn; simpl; [|left; done].
  unfold whenDefinedCallback. munfold.
  destruct (definedPromises s !! t) eqn:Hp; simpl.
  { left. destruct (promises s !! _) as [[?|]|]; done. }
  destruct (definitionsByTag s !! t) eqn:Ht; simpl.
  { left. destruct (heap s !! _); done. }
  right. rewrite lookup_insert_eq. eauto.
Qed.

(** *** The shape [wf] over the writes *)

Lemma wf_allocated (c : Ctor) (s : State) :
  wf s -> definitionForConstructor s !! c = None -> wf (allocated c s).
Proof. intros Hwf Hc. apply wf_alloc; done. Qed.

Lemma wf_registered (t : string) (c : Ctor) (r : positive)
    (d : DefinitionRecord) (s : State) :
  wf s -> definitionForConstructor s !! c = Some r ->
  hasObjectPrototype (classOf c) = true ->
  wf (registered t c r d s).
Proof.
  intros Hwf Hc Hp.
  eapply wf_tables;
    [|apply (wf_register classOf s t c r
               (PivotClass (fresh (dom (pivotClasses s)))) Hwf Hc Hp)].
  done.
Qed.

Lemma wf_defined (t : string) (c : Ctor) (r : positive)
    (d : DefinitionRecord) (s : State) :
  wf s -> definitionForConstructor s !! c = Some r ->
  hasObjectPrototype (classOf c) = true ->
  wf (defined t c r d s).
Proof.
  intros Hwf Hc Hp. apply wf_with_pivot, wf_native, wf_registered; done.
Qed.

Lemma wf_promised (t : string) (s : State) :
  wf s -> is_Some (nativeDefinitions s !! t) -> wf (promised t s).
Proof.
  intros Hwf Hn.
  eapply wf_tables;
    [|apply (wf_promise classOf s t (fresh (dom (promises s))) Hwf Hn)].
  done.
Qed.

(** *** The shape [settled] over the writes *)

Lemma settled_initial (native : gmap string Ctor) : settled (initial native).
Proof. split; simpl; try done; intros *; rewrite lookup_empty; discriminate. Qed.

Lemma settled_allocated (c : Ctor) (s : State) :
  settled s -> settled (allocated c s).
Proof.
  intros [H1 H2 H3 H4 H5 H6 H8 H9 H7].
  assert (Hfresh : heap s !! fresh (dom (heap s)) = None).
  { apply not_elem_of_dom, is_fresh. }
  split; simpl; try assumption.
  - intros n i Hi. destruct (H1 n i Hi) as [Hp (d & Hd & Ho)].
    split; [done|]. exists d. split; [|done].
    rewrite lookup_insert_ne; [done|]. intros E. congruence.
  - intros e r Hr. destruct (H5 e r Hr) as [d Hd]. exists d.
    rewrite lookup_insert_ne; [done|]. intros E. congruence.
  - intros r d P. rewrite lookup_insert_Some. intros [[<- <-]|[Hne Hl]].
    + discriminate.
    + apply H7. exact Hl.
Qed.

Lemma settled_registered (t : string) (c : Ctor) (r : positive)
    (d : DefinitionRecord) (s : State) :
  wf s -> settled s ->
  definitionForConstructor s !! c = Some r -> heap s !! r = Some d ->
  pivotCtorByTag s !! t = None ->
  settled (registered t c r d s).
Proof.
  intros Hwf [H1 H2 H3 H4 H5 H6 H8 H9 H7] Hc Hd Hpiv.
  assert (Hfresh : pivotClasses s !! fresh (dom (pivotClasses s)) = None).
  { apply not_elem_of_dom, is_fresh. }
  split; simpl; try assumption.
  - intros n i. rewrite lookup_insert_Some. intros [[<- <-]|[Hne Hi]]; simpl.
    + rewrite lookup_insert_eq. eauto.
    + destruct (H1 n i Hi) as [Hp Hr]. split; [|exact Hr].
      rewrite lookup_insert_ne; [done|]. intros E. congruence.
  - intros t' P. rewrite lookup_insert_Some. intros [[<- <-]|[Hne Hl]].
    + eexists _, _. rewrite lookup_insert_eq. done.
    + destruct (H2 t' P Hl) as (n & i & -> & Hi & Ht).
      exists n, i. split; [done|]. split; [|done].
      rewrite lookup_insert_ne; [done|]. intros E. congruence.
  - intros r0 d0 P Hr0 HP. pose proof (H7 r0 d0 P Hr0 HP) as Hk.
    destruct (decide (c = UserCtor d0)) as [->|Hne].
    + rewrite lookup_insert_eq.
      destruct (wf_class_ctor _ _ Hwf _ _ Hk) as [Hc0 _]. congruence.
    + rewrite lookup_insert_ne; done.
Qed.

Lemma settled_native (t : string) (P : Ctor) (s : State) :
  settled s -> settled (set_nativeDefinitions <[t := P]> s).
Proof.
  intros [H1 H2 H3 H4 H5 H6 H8 H9 H7]. split; simpl; try assumption.
  intros t' p Hp. rewrite lookup_insert_is_Some.
  destruct (decide (t = t')); eauto.
Qed.

Lemma settled_with_pivot (r : positive) (P : Ctor) (d : DefinitionRecord)
    (s : State) :
  settled s -> heap s !! r = Some d ->
  definitionsByClass s !! UserCtor d = Some r ->
  settled (set_heap (alter (withPivotCtor P) r) s).
Proof.
  intros [H1 H2 H3 H4 H5 H6 H8 H9 H7] Hd Hk. split; simpl; try assumption.
  - intros n i Hi. destruct (H1 n i Hi) as [Hp (d0 & Hd0 & Ho)].
    split; [done|].
    destruct (decide (r = registeredDefinition i)) as [E|Hne].
    + exists (withPivotCtor P d0). rewrite <- E, lookup_alter_eq.
      rewrite <- E in Hd0. rewrite Hd0. done.
    + exists d0. rewrite lookup_alter_ne; done.
  - intros e r0 Hr0. destruct (H5 e r0 Hr0) as [d0 Hd0].
    destruct (decide (r = r0)) as [<-|Hne].
    + rewrite lookup_alter_eq, Hd0. eauto.
    + rewrite lookup_alter_ne; eauto.
  - intros r0 d0 P0. destruct (decide (r = r0)) as [<-|Hne].
    + rewrite lookup_alter_eq, Hd. simpl. intros [= <-] _. exact Hk.
    + rewrite lookup_alter_ne by done. apply H7.
Qed.

Lemma settled_promised (t : string) (s : State) :
  settled s -> is_Some (nativeDefinitions s !! t) -> settled (promised t s).
Proof.
  intros [H1 H2 H3 H4 H5 H6 H8 H9 H7] Hn. split; simpl; try assumption.
  - intros t' p. rewrite lookup_insert_Some. intros [[<- <-]|[Hne Hl]]; eauto.
  - apply insert_mono, H8.
  - intros t' p. rewrite lookup_insert_Some, lookup_insert_is_Some'.
    intros [[<- <-]|[Hne Hl]]; [left; done|right; eauto].
Qed.

Lemma settled_upgraded (e r : positive) (s : State) :
  settled s -> is_Some (heap s !! r) ->
  settled (set_definitionForElement <[e := r]> s).
Proof.
  intros [H1 H2 H3 H4 H5 H6 H8 H9 H7] Hr. split; simpl; try assumption.
  intros e' r'. rewrite lookup_insert_Some. intros [[<- <-]|[Hne Hl]]; eauto.
Qed.

(** *** What is never taken back, over the writes *)

Lemma sameClass_refl (d : DefinitionRecord) : sameClass d d.
Proof. repeat split. Qed.

Lemma sameClass_trans (d1 d2 d3 : DefinitionRecord) :
  sameClass d1 d2 -> sameClass d2 d3 -> sameClass d1 d3.
Proof.
  intros (A1 & A2 & A3 & A4 & A5 & A6) (B1 & B2 & B3 & B4 & B5 & B6).
  repeat split; congruence.
Qed.

Lemma evolves_refl (s : State) : evolves s s.
Proof.
  split; try done. intros r d Hd. exists d.
  split; [done|]. split; [apply sameClass_refl|]. left. done.
Qed.

Lemma evolves_trans (s1 s2 s3 : State) :
  evolves s1 s2 -> evolves s2 s3 -> evolves s1 s3.
Proof.
  intros [A1 A2 A3 A4 A5 A6 A7 A8 A12 A9 A10 A11] [B1 B2 B3 B4 B5 B6 B7 B8 B12 B9 B10 B11].
  split; try (etrans; eassumption); try auto.
  intros r d Hd. destruct (A10 r d Hd) as (d2 & Hd2 & Hs2 & Hp2).
  destruct (B10 r d2 Hd2) as (d3 & Hd3 & Hs3 & Hp3).
  exists d3. split; [done|]. split; [eapply sameClass_trans; eassumption|].
  destruct Hp2 as [Hp2|Hp2]; [|right; exact Hp2].
  destruct Hp3 as [Hp3|Hp3]; [left; congruence|]. right.
  destruct Hs2 as (Hu & _). rewrite Hu in Hp3.
  destruct (definitionsByClass s1 !! UserCtor d) as [r'|] eqn:E; [|done].
  rewrite (lookup_weaken _ _ _ _ E A2) in Hp3. discriminate.
Qed.

Lemma evolves_tables (s s' : State) :
  tables s = tables s' -> pivotClasses s = pivotClasses s' ->
  definedResolvers s = definedResolvers s' -> promises s = promises s' ->
  registryPatched s = registryPatched s' ->
  (forall e, is_Some (definitionForElement s !! e) ->
             is_Some (definitionForElement s' !! e)) ->
  evolves s s'.
Proof.
  unfold tables. intros H Hc Hr Hpr Hp He.
  injection H as Hh Hcc Hpp Ht Hk Hd Hn.
  split; rewrite <- ?Hh, <- ?Hcc, <- ?Hpp, <- ?Ht, <- ?Hk, <- ?Hd, <- ?Hn,
    <- ?Hc, <- ?Hr, <- ?Hpr, <- ?Hp; try done.
  intros r d Hd0. exists d. split; [done|]. split; [apply sameClass_refl|].
  left. done.
Qed.

Lemma evolves_allocated (c : Ctor) (s : State) :
  definitionForConstructor s !! c = None -> evolves s (allocated c s).
Proof.
  intros Hc.
  assert (Hfresh : heap s !! fresh (dom (heap s)) = None).
  { apply not_elem_of_dom, is_fresh. }
  split; simpl; try done.
  - apply insert_subseteq, Hc.
  - intros r d Hd. exists d. split.
    + rewrite lookup_insert_ne; [done|]. intros E. congruence.
    + split; [apply sameClass_refl|]. left. done.
Qed.

Lemma insert_same_subseteq `{Countable K} {A} (m : gmap K A) (k : K) (x : A) :
  (forall y, m !! k = Some y -> y = x) -> m ⊆ <[k := x]> m.
Proof.
  intros Hx. apply map_subseteq_spec. intros i y Hy.
  destruct (decide (k = i)) as [<-|Hne].
  - rewrite lookup_insert_eq, (Hx y Hy). done.
  - rewrite lookup_insert_ne; done.
Qed.

Lemma evolves_registered (t : string) (c : Ctor) (r : positive)
    (d : DefinitionRecord) (s : State) :
  definitionsByTag s !! t = None -> pivotCtorByTag s !! t = None ->
  (forall r', definitionsByClass s !! c = Some r' -> r' = r) ->
  evolves s (registered t c r d s).
Proof.
  intros Ht Hp Hk.
  assert (Hfresh : pivotClasses s !! fresh (dom (pivotClasses s)) = None).
  { apply not_elem_of_dom, is_fresh. }
  split; simpl; try done; try (apply insert_subseteq; assumption).
  - apply insert_same_subseteq, Hk.
  - intros r0 d0 Hd0. exists d0. split; [done|].
    split; [apply sameClass_refl|]. left. done.
Qed.

Lemma evolves_native_set (t : string) (P : Ctor) (s : State) :
  nativeDefinitions s !! t = None ->
  evolves s (set_nativeDefinitions <[t := P]> s).
Proof.
  intros Hn. split; simpl; try done; try (apply insert_subseteq; assumption).
  intros r0 d0 Hd0. exists d0. split; [done|].
  split; [apply sameClass_refl|]. left. done.
Qed.

Lemma evolves_with_pivot (r : positive) (P : Ctor) (d : DefinitionRecord)
    (s0 s : State) :
  evolves s0 s -> heap s !! r = Some d ->
  definitionsByClass s0 !! UserCtor d = None ->
  evolves s0 (set_heap (alter (withPivotCtor P) r) s).
Proof.
  intros [A1 A2 A3 A4 A5 A6 A7 A8 A12 A9 A10 A11] Hd Hk.
  split; simpl; try done.
  intros r0 d0 Hd0. destruct (A10 r0 d0 Hd0) as (d1 & Hd1 & Hs & Hp).
  destruct (decide (r = r0)) as [<-|Hne].
  - exists (withPivotCtor P d1). rewrite lookup_alter_eq, Hd1.
    split; [done|]. split.
    + destruct Hs as (B1 & B2 & B3 & B4 & B5 & B6). repeat split; assumption.
    + right. destruct Hs as (B1 & _). rewrite <- B1.
      rewrite Hd in Hd1. injection Hd1 as <-. exact Hk.
  - exists d1. rewrite lookup_alter_ne by done. done.
Qed.

Lemma evolves_promised (t : string) (s : State) :
  definedPromises s !! t = None -> definedResolvers s !! t = None ->
  evolves s (promised t s).
Proof.
  intros Hp Hr. split; simpl; try done; try (apply insert_subseteq; assumption).
  { apply insert_subseteq, not_elem_of_dom, is_fresh. }
  intros r0 d0 Hd0. exists d0. split; [done|].
  split; [apply sameClass_refl|]. left. done.
Qed.

(** *** The calls keep both shapes and take nothing back *)

Lemma getDefinitionForConstructor_keeps (c : Ctor) (s : State) :
  wf s -> settled s ->
  wf (snd (getDefinitionForConstructor c s)) /\
  settled (snd (getDefinitionForConstructor c s)) /\
  evolves s (snd (getDefinitionForConstructor c s)).
Proof.
  intros Hwf Hs.
  destruct (getDefinitionForConstructor_cases c s)
    as [[_ E]|[(_ & r & _ & E)|(_ & Hc & E)]]; rewrite E; simpl.
  - split; [done|]. split; [done|apply evolves_refl].
  - split; [done|]. split; [done|apply evolves_refl].
  - split; [apply wf_allocated; done|].
    split; [apply settled_allocated; done|apply evolves_allocated; done].
Qed.

Lemma define_keeps (t : string) (c : Ctor) (o : option ElementDefinitionOptions)
    (s : State) :
  wf s -> settled s ->
  settled (snd (define t c o s)) /\ evolves s (snd (define t c o s)).
Proof.
  intros Hwf Hs. destruct (define t c o s) as [res s'] eqn:E. simpl.
  assert (Haw : awaitingUpgrade s !! toLowerCase t = None).
  { rewrite (settled_awaiting _ Hs). apply lookup_empty. }
  destruct (define_cases t c o s s' res Hwf Haw
              (fun p => settled_resolver _ Hs _ p) E)
    as [(e & _ & ->)|(r & s1 & d & Hg & Hd & Hu & _ & _ & Ht & Hk & Hp & Hend)].
  { split; [done|apply evolves_refl]. }
  destruct (getDefinitionForConstructor_keeps c s Hwf Hs) as (Hwf1 & Hs1 & He1).
  destruct (getDefinitionForConstructor_result classOf c r s s1 Hwf Hg)
    as (Hproto & Hc1 & _ & Ep & Et & Ek & Edp & En).
  rewrite Hg in Hwf1, Hs1, He1. simpl in Hwf1, Hs1, He1.
  rewrite <- Ep in Hp. rewrite <- Et in Ht. rewrite <- Ek in Hk.
  assert (Hreg : settled (registered (toLowerCase t) c r d s1)).
  { apply settled_registered; done. }
  assert (Hev : evolves s1 (registered (toLowerCase t) c r d s1)).
  { apply evolves_registered; try done. intros r'. rewrite Hk. discriminate. }
  destruct Hend as [(e & _ & -> & _)|(_ & _ & Hn & ->)].
  { split; [done|]. eapply evolves_trans; eassumption. }
  rewrite <- En in Hn. split.
  - unfold defined. eapply settled_with_pivot.
    + apply settled_native, Hreg.
    + simpl. exact Hd.
    + simpl. rewrite Hu. apply lookup_insert_eq.
  - eapply evolves_trans; [exact He1|].
    unfold defined. eapply evolves_with_pivot.
    + eapply evolves_trans; [exact Hev|]. apply evolves_native_set.
      simpl. exact Hn.
    + simpl. exact Hd.
    + rewrite Hu. exact Hk.
Qed.

Lemma definePivot_keeps (t : string) (c : Ctor) (s : State) :
  wf s -> settled s ->
  settled (snd (definePivot t c s)) /\ evolves s (snd (definePivot t c s)).
Proof.
  intros Hwf Hs. destruct (definePivot t c s) as [res s'] eqn:E. simpl.
  destruct (definePivot_cases t c s s' res Hwf E)
    as [(P & _ & _ & ->)|[(_ & _ & _ & ->)
        |(r & s1 & d & Hp & Ht & Hg & Hd & Hu & Hend)]].
  { split; [done|apply evolves_refl]. }
  { split; [done|apply evolves_refl]. }
  destruct (getDefinitionForConstructor_keeps c s Hwf Hs) as (Hwf1 & Hs1 & He1).
  destruct (getDefinitionForConstructor_result classOf c r s s1 Hwf Hg)
    as (Hproto & Hc1 & _ & Ep & Et & Ek & Edp & En).
  rewrite Hg in Hwf1, Hs1, He1. simpl in Hwf1, Hs1, He1.
  rewrite <- Ep in Hp. rewrite <- Et in Ht.
  assert (Hreg : settled (registered (toLowerCase t) c r d s1)).
  { apply settled_registered; done. }
  assert (Hev : evolves s1 (registered (toLowerCase t) c r d s1)).
  { apply evolves_registered; try done. intros r' Hr'.
    destruct (wf_class_ctor _ _ Hwf1 _ _ Hr') as [Hc' _]. congruence. }
  destruct Hend as [(e & _ & -> & _)|(_ & _ & Hn & ->)].
  { split; [done|]. eapply evolves_trans; eassumption. }
  rewrite <- En in Hn. split.
  - apply settled_native, Hreg.
  - eapply evolves_trans; [exact He1|].
    eapply evolves_trans; [exact Hev|]. apply evolves_native_set.
    simpl. exact Hn.
Qed.

Lemma whenDefined_keeps (t : string) (s : State) :
  wf s -> settled s ->
  settled (snd (whenDefined t s)) /\ evolves s (snd (whenDefined t s)).
Proof.
  intros Hwf Hs.
  destruct (whenDefined_cases t s) as [->|(Hn & Hp & Ht & ->)]; simpl.
  { split; [done|apply evolves_refl]. }
  split; [apply settled_promised; done|].
  apply evolves_promised; [done|].
  destruct (definedResolvers s !! t) as [p|] eqn:Hr; [|done].
  rewrite (lookup_weaken _ _ _ _ Hr (settled_kept _ Hs)) in Hp. discriminate.
Qed.

(** [getDefinitionForConstructor] leaves the records there are, the pivot
    classes and the table of the elements as they are. *)
Lemma getDefinitionForConstructor_frame (c : Ctor) (s : State) :
  definitionForElement (snd (getDefinitionForConstructor c s))
  = definitionForElement s /\
  pivotClasses (snd (getDefinitionForConstructor c s)) = pivotClasses s /\
  forall r d, heap s !! r = Some d ->
              heap (snd (getDefinitionForConstructor c s)) !! r = Some d.
Proof.
  destruct (getDefinitionForConstructor_cases c s)
    as [[_ E]|[(_ & r & _ & E)|(_ & Hc & E)]]; rewrite E; simpl; try done.
  split; [done|]. split; [done|]. intros r d Hd.
  rewrite lookup_insert_ne; [done|]. intros E'.
  assert (Hfresh : heap s !! fresh (dom (heap s)) = None).
  { apply not_elem_of_dom, is_fresh. }
  congruence.
Qed.

(** In a settled state no call of the API touches the table of the
    elements. *)
Lemma call_elements (k : Call) (s : State) :
  wf s -> settled s ->
  definitionForElement (call classOf validName getRejects userUpgrade k s)
  = definitionForElement s.
Proof.
  intros Hwf Hs. destruct k as [t c o|t|t|t c]; simpl.
  - destruct (define t c o s) as [res s'] eqn:E. simpl.
    assert (Haw : awaitingUpgrade s !! toLowerCase t = None).
    { rewrite (settled_awaiting _ Hs). apply lookup_empty. }
    destruct (define_cases t c o s s' res Hwf Haw
                (fun p => settled_resolver _ Hs _ p) E)
      as [(e & _ & ->)|(r & s1 & d & Hg & _ & _ & _ & _ & _ & _ & _ & Hend)];
      [done|].
    destruct (getDefinitionForConstructor_frame c s) as (He & _).
    rewrite Hg in He. simpl in He.
    destruct Hend as [(e & _ & -> & _)|(_ & _ & _ & ->)]; simpl; exact He.
  - rewrite get_state. done.
  - destruct (whenDefined_cases t s) as [->|(_ & _ & _ & ->)]; done.
  - destruct (definePivot t c s) as [res s'] eqn:E. simpl.
    destruct (definePivot_cases t c s s' res Hwf E)
      as [(P & _ & _ & ->)|[(_ & _ & _ & ->)
          |(r & s1 & d & _ & _ & Hg & _ & _ & Hend)]]; try done.
    destruct (getDefinitionForConstructor_frame c s) as (He & _).
    rewrite Hg in He. simpl in He.
    destruct Hend as [(e & _ & -> & _)|(_ & _ & _ & ->)]; simpl; exact He.
Qed.

Lemma call_keeps (k : Call) (s : State) :
  wf s -> settled s ->
  wf (call classOf validName getRejects userUpgrade k s) /\
  settled (call classOf validName getRejects userUpgrade k s) /\
  evolves s (call classOf validName getRejects userUpgrade k s).
Proof.
  intros Hwf Hs. destruct k as [t c o|t|t|t c]; simpl.
  - split; [apply define_wf, Hwf|apply define_keeps; done].
  - rewrite get_state. split; [done|]. split; [done|apply evolves_refl].
  - split; [apply whenDefined_wf, Hwf|apply whenDefined_keeps; done].
  - split; [apply definePivot_wf, Hwf|apply definePivot_keeps; done].
Qed.

End RegistryCases.

(** ** The pivot classes *)

Section LifecycleProperties.

Import Registry Lifecycle.

Variable classOf : Ctor -> ClassInfo.
Variable userConstructor : Ctor -> positive -> nat -> option Exn.
Variable validName : string -> bool.
Variable getRejects : string -> bool.

Local Abbreviation wf := (Registry.wf classOf).
Local Abbreviation sound := (Lifecycle.sound classOf).
Local Abbreviation constructs := (Lifecycle.constructs userConstructor).
Local Abbreviation internalUpgrade := (Lifecycle.internalUpgrade userConstructor).
Local Abbreviation PivotCtor_constructor :=
  (Lifecycle.PivotCtor_constructor classOf userConstructor).
Local Abbreviation step :=
  (Lifecycle.step classOf userConstructor validName getRejects).
Local Abbreviation run :=
  (Lifecycle.run classOf userConstructor validName getRejects).
Local Abbreviation getDefinitionForConstructor :=
  (Registry.getDefinitionForConstructor classOf).

Ltac wunfold :=
  unfold mbind, W_bind, mret, W_ret, bindW, retW, getsW, modifyW, throwW,
    liftM, callUser, M_bind, M_ret, bind, ret, gets, modify, throw, deref in *.

Lemma forEachW_cons {A} (f : A -> W unit) (x : A) (l : list A) (w : World) :
  forEachW f (x :: l) w
  = match f x w with
    | (inl e, w') => (inl e, w')
    | (inr _, w') => forEachW f l w'
    end.
Proof. reflexivity. Qed.

Lemma replayAttribute_run (instance cb : positive) (x : string) (w : World) :
  replayAttribute instance cb x w
  = (inr tt,
     set_invocations
       (fun l => (l ++ replayed instance cb (attributes w) [x])%list) w).
Proof.
  destruct w as [s a pr pa cu inv].
  unfold replayAttribute, replayed, set_invocations. wunfold. simpl.
  destruct (a !! (instance, x)); simpl; [done|]. rewrite app_nil_r. done.
Qed.

(** The loop of [internalUpgrade] returns, and only makes calls. *)
Lemma forEachW_replay (instance cb : positive) (l : list string) (w : World) :
  forEachW (replayAttribute instance cb) l w
  = (inr tt,
     set_invocations
       (fun k => (k ++ replayed instance cb (attributes w) l)%list) w).
Proof.
  revert w. induction l as [|x l IH]; intros w.
  - destruct w. simpl. unfold retW, set_invocations. simpl.
    rewrite app_nil_r. done.
  - rewrite forEachW_cons, replayAttribute_run, IH.
    destruct w as [s a pr pa cu inv]. unfold set_invocations, replayed. simpl.
    destruct (a !! (instance, x)); simpl; rewrite <- ?app_assoc; done.
Qed.

(** What [internalUpgrade] does to the tables: it records the definition
    of the instance, and nothing else. *)
Lemma internalUpgrade_document (instance reg inst : positive) (w : World) :
  let w' := snd (internalUpgrade instance reg inst w) in
  attributes w' = attributes w /\ custom w' = custom w /\
  registry w' = match heap (registry w) !! inst with
                | Some _ =>
                    set_definitionForElement <[instance := inst]> (registry w)
                | None => registry w
                end.
Proof.
  destruct w as [s a pr pa cu inv].
  unfold Lifecycle.internalUpgrade, patchAttributes. wunfold. simpl.
  destruct (heap s !! inst) as [d|] eqn:Hd; simpl; [|done].
  repeat (case_match; simplify_eq/=; try done).
  all: try (rewrite forEachW_replay; simpl; done).
Qed.

(** No offset when the instanced definition observes whatever the registered
    one does; in particular when the two are one. *)
Lemma offset_subseteq_nil (dr d : DefinitionRecord) :
  observedAttributes dr ⊆ observedAttributes d ->
  getObservedAttributesOffset dr d = [].
Proof.
  unfold getObservedAttributesOffset.
  induction (observedAttributes dr) as [|x l IH]; intros H; [done|].
  rewrite filter_cons. destruct (decide (x ∉ observedAttributes d)) as [Hn|_].
  - exfalso. apply Hn, H. left.
  - apply IH. intros y Hy. apply H. right. exact Hy.
Qed.

(** [internalUpgrade] in full, for two definitions on the heap. *)
Lemma internalUpgrade_run (instance reg inst : positive) (d dr : DefinitionRecord)
    (w : World) :
  heap (registry w) !! inst = Some d -> heap (registry w) !! reg = Some dr ->
  exists w',
    internalUpgrade instance reg inst w
    = (match constructs (UserCtor d) instance with
       | Some err => inl err
       | None => inr tt
       end, w') /\
    registry w' = set_definitionForElement <[instance := inst]> (registry w) /\
    attributes w' = attributes w /\ custom w' = custom w /\
    prototypes w' = <[instance := PrototypeOf (UserCtor d)]> (prototypes w) /\
    patches w' = match patchFor dr d with
                 | Some p =>
                     if decide (inst = reg) then patches w
                     else <[instance := p]> (patches w)
                 | None => patches w
                 end /\
    invocations w' = (invocations w ++
       match constructs (UserCtor d) instance, patchFor dr d with
       | None, Some (offset, cb) => replayed instance cb (attributes w) offset
       | _, _ => []
       end)%list.
Proof.
  destruct w as [s a pr pa cu inv]. simpl. intros Hd Hr.
  unfold Lifecycle.internalUpgrade, patchAttributes, patchFor. wunfold. simpl.
  rewrite Hd. simpl.
  destruct (decide (inst = reg)) as [->|Hne]; simpl.
  1: assert (dr = d) as -> by congruence.
  1: rewrite (offset_subseteq_nil d d) by done.
  all: destruct (constructs (UserCtor d) instance); simpl.
  all: destruct (observedAttributes d) eqn:Ho; simpl.
  all: destruct (attributeChangedCallback d) eqn:Hcb; simpl.
  all: rewrite ?Hr; simpl.
  all: rewrite ?(offset_subseteq_nil d d) by done.
  all: rewrite ?forEachW_replay; simpl.
  all: try match goal with
       | |- context [getObservedAttributesOffset ?x ?y] =>
           destruct (getObservedAttributesOffset x y) eqn:Hoff; simpl
       end.
  all: rewrite ?Hr; simpl; rewrite ?forEachW_replay; simpl.
  all: eexists; (split; [reflexivity|]); simpl; rewrite ?app_nil_r.
  all: repeat split; try done.
  all: rewrite Hoff; simpl; rewrite ?app_nil_r; done.
Qed.

(** *** The constructor of a pivot class *)

Lemma PivotCtor_constructor_dangling (n : positive) (u : option Ctor)
    (this : positive) (w : World) :
  pivotClasses (registry w) !! n = None ->
  PivotCtor_constructor n u this w = (inl Dangling, w).
Proof.
  intros Hn. unfold Lifecycle.PivotCtor_constructor, pivot. wunfold.
  rewrite Hn. done.
Qed.

(** Constructed by the browser, for a name with a definition. *)
Lemma PivotCtor_constructor_browser (n : positive) (info : PivotInfo)
    (r this : positive) (w : World) :
  pivotClasses (registry w) !! n = Some info ->
  definitionsByTag (registry w) !! pivotTagName info = Some r ->
  PivotCtor_constructor n None this w
  = internalUpgrade this (registeredDefinition info) r
      (set_prototypes <[this := PrototypeOf (PivotClass n)]> w).
Proof.
  intros Hn Ht. unfold Lifecycle.PivotCtor_constructor, pivot. wunfold.
  rewrite Hn. simpl. rewrite Ht. done.
Qed.

(** Constructed with a [UserCtor]. *)
Lemma PivotCtor_constructor_user (n : positive) (info : PivotInfo) (c : Ctor)
    (this : positive) (w : World) :
  pivotClasses (registry w) !! n = Some info ->
  PivotCtor_constructor n (Some c) this w
  = match getDefinitionForConstructor c (registry w) with
    | (inl e, s1) =>
        (inl e, set_registry (fun _ => s1)
                  (set_prototypes <[this := PrototypeOf (PivotClass n)]> w))
    | (inr r, s1) =>
        internalUpgrade this (registeredDefinition info) r
          (set_registry (fun _ => s1)
             (set_prototypes <[this := PrototypeOf (PivotClass n)]> w))
    end.
Proof.
  intros Hn. unfold Lifecycle.PivotCtor_constructor, pivot. wunfold.
  rewrite Hn. simpl.
  destruct (getDefinitionForConstructor c (registry w)) as [[e|r] s1]; done.
Qed.

(** *** Every event keeps the shapes *)

Lemma sound_loaded (native : gmap string Ctor) : sound (loaded native).
Proof.
  split; simpl.
  - apply wf_initial.
  - apply settled_initial.
  - intros e n. rewrite lookup_empty. discriminate.
Qed.

Lemma sound_evolves (w w' : World) :
  sound w -> wf (registry w') -> settled (registry w') ->
  evolves (registry w) (registry w') -> custom w' = custom w -> sound w'.
Proof.
  intros [H1 H2 H3] Hwf Hs He Hc. split; [done|done|].
  intros e n. rewrite Hc. intros Hn. destruct (H3 e n Hn) as [[i Hi] Hd].
  split.
  - exists i. apply (lookup_weaken _ _ _ _ Hi (evolves_classes _ _ He)).
  - apply (evolves_element _ _ He), Hd.
Qed.

Lemma upgraded_keeps (e r : positive) (s : State) :
  wf s -> settled s -> is_Some (heap s !! r) ->
  wf (set_definitionForElement <[e := r]> s) /\
  settled (set_definitionForElement <[e := r]> s) /\
  evolves s (set_definitionForElement <[e := r]> s).
Proof.
  intros Hwf Hs Hr. split; [|split].
  - eapply wf_tables; [|exact Hwf]. done.
  - apply settled_upgraded; done.
  - apply evolves_tables; try done. simpl. intros e' He'.
    rewrite lookup_insert_is_Some. destruct (decide (e = e')); eauto.
Qed.

Lemma internalUpgrade_keeps (instance reg inst : positive) (w : World) :
  wf (registry w) -> settled (registry w) ->
  is_Some (heap (registry w) !! inst) ->
  let w' := snd (internalUpgrade instance reg inst w) in
  custom w' = custom w /\ attributes w' = attributes w /\
  wf (registry w') /\ settled (registry w') /\
  evolves (registry w) (registry w') /\
  definitionForElement (registry w') !! instance = Some inst.
Proof.
  intros Hwf Hs [d Hd] w'.
  destruct (internalUpgrade_document instance reg inst w) as (Ha & Hc & Hr).
  fold w' in Ha, Hc, Hr. rewrite Hd in Hr.
  destruct (upgraded_keeps instance inst (registry w) Hwf Hs) as (A & B & C);
    [eauto|].
  rewrite Hr. simpl. rewrite lookup_insert_eq. done.
Qed.

Lemma construct_keeps (n : positive) (u : option Ctor) (this : positive)
    (w : World) :
  sound w ->
  sound (step (Construct n u this) w) /\
  evolves (registry w) (registry (step (Construct n u this) w)).
Proof.
  intros Hw. pose proof Hw as [Hwf Hs Hc]. simpl.
  destruct (prototypes w !! this); [split; [done|apply evolves_refl]|].
  destruct (pivotClasses (registry w) !! n) as [info|] eqn:Hn.
  2: { rewrite PivotCtor_constructor_dangling by done.
       split; [done|apply evolves_refl]. }
  assert (Hfinish : forall w2 r,
    custom w2 = custom w -> wf (registry w2) -> settled (registry w2) ->
    evolves (registry w) (registry w2) -> is_Some (heap (registry w2) !! r) ->
    sound (match internalUpgrade this (registeredDefinition info) r w2 with
           | (inr _, w') => set_custom <[this := n]> w'
           | (inl _, w') => w'
           end) /\
    evolves (registry w)
      (registry (match internalUpgrade this (registeredDefinition info) r w2 with
                 | (inr _, w') => set_custom <[this := n]> w'
                 | (inl _, w') => w'
                 end))).
  { intros w2 r Hc2 Hwf2 Hs2 He2 Hr.
    destruct (internalUpgrade_keeps this (registeredDefinition info) r w2
                Hwf2 Hs2 Hr) as (A & _ & B & C & D & E).
    destruct (internalUpgrade this (registeredDefinition info) r w2)
      as [[e|[]] w'] eqn:Ew; simpl in *.
    - split; [|eapply evolves_trans; eassumption].
      apply (sound_evolves w w' Hw B C); [eapply evolves_trans; eassumption|].
      congruence.
    - split; [|eapply evolves_trans; eassumption].
      assert (He : evolves (registry w) (registry w')).
      { eapply evolves_trans; eassumption. }
      split; simpl; [done|done|].
      intros e n0. rewrite lookup_insert_Some. intros [[<- <-]|[Hne Hl]].
      + split; [|eauto]. exists info.
        apply (lookup_weaken _ _ _ _ Hn (evolves_classes _ _ He)).
      + rewrite A, Hc2 in Hl. destruct (Hc e n0 Hl) as [[i Hi] Hd].
        split.
        * exists i. apply (lookup_weaken _ _ _ _ Hi (evolves_classes _ _ He)).
        * apply (evolves_element _ _ He), Hd. }
  destruct u as [c|].
  - rewrite (PivotCtor_constructor_user n info c this w Hn).
    destruct (getDefinitionForConstructor_keeps classOf c (registry w) Hwf Hs)
      as (Hwf1 & Hs1 & He1).
    destruct (getDefinitionForConstructor c (registry w)) as [[e|r] s1] eqn:Hg;
      simpl in Hwf1, Hs1, He1.
    + split; [|destruct w; exact He1].
      apply (sound_evolves w); try done; destruct w; done.
    + destruct (getDefinitionForConstructor_result classOf c r _ s1 Hwf Hg)
        as (_ & _ & (d & Hd & _) & _).
      apply Hfinish; destruct w; simpl in *; try done; eauto.
  - destruct (settled_pivot _ Hs n info Hn) as [Hp _].
    destruct (wf_pivot_tag _ _ Hwf _ _ Hp) as [r Hr].
    rewrite (PivotCtor_constructor_browser n info r this w Hn Hr).
    destruct (wf_tag_ctor _ _ Hwf _ _ Hr) as [c Hc0].
    destruct (wf_ctor_def _ _ Hwf _ _ Hc0) as (d & Hd & _).
    apply Hfinish; destruct w; simpl in *; try done; eauto using evolves_refl.
Qed.

(** *** The callbacks of a pivot class *)

Lemma reaction_custom (f : positive -> positive -> W unit) (this n : positive)
    (w : World) :
  custom w !! this = Some n -> reaction f this w = f n this w.
Proof. intros H. unfold reaction. wunfold. rewrite H. done. Qed.

Lemma reaction_none (f : positive -> positive -> W unit) (this : positive)
    (w : World) :
  custom w !! this = None -> reaction f this w = (inr tt, w).
Proof. intros H. unfold reaction. wunfold. rewrite H. done. Qed.

Lemma connectedCallback_run (n : positive) (info : PivotInfo) (this r : positive)
    (d : DefinitionRecord) (w : World) :
  pivotClasses (registry w) !! n = Some info ->
  definitionForElement (registry w) !! this = Some r ->
  heap (registry w) !! r = Some d ->
  PivotCtor_connectedCallback n this w
  = (inr tt, match connectedCallback d with
             | Some f => logged (mkInvocation f this []) w
             | None => w
             end).
Proof.
  destruct w as [s a pr pa cu inv]. simpl. intros Hn He Hd.
  unfold PivotCtor_connectedCallback, pivot, logged. wunfold. simpl.
  rewrite Hn. simpl. rewrite He. simpl. rewrite Hd. simpl.
  destruct (connectedCallback d); done.
Qed.

Lemma disconnectedCallback_run (n : positive) (info : PivotInfo)
    (this r : positive) (d : DefinitionRecord) (w : World) :
  pivotClasses (registry w) !! n = Some info ->
  definitionForElement (registry w) !! this = Some r ->
  heap (registry w) !! r = Some d ->
  PivotCtor_disconnectedCallback n this w
  = (inr tt, match disconnectedCallback d with
             | Some f => logged (mkInvocation f this []) w
             | None => w
             end).
Proof.
  destruct w as [s a pr pa cu inv]. simpl. intros Hn He Hd.
  unfold PivotCtor_disconnectedCallback, pivot, logged. wunfold. simpl.
  rewrite Hn. simpl. rewrite He. simpl. rewrite Hd. simpl.
  destruct (disconnectedCallback d); done.
Qed.

Lemma adoptedCallback_run (n this r : positive) (d : DefinitionRecord)
    (w : World) :
  definitionForElement (registry w) !! this = Some r ->
  heap (registry w) !! r = Some d ->
  PivotCtor_adoptedCallback n this w
  = (inr tt, match adoptedCallback d with
             | Some f => logged (mkInvocation f this []) w
             | None => w
             end).
Proof.
  destruct w as [s a pr pa cu inv]. simpl. intros He Hd.
  unfold PivotCtor_adoptedCallback, logged. wunfold. simpl.
  rewrite He. simpl. rewrite Hd. simpl.
  destruct (adoptedCallback d); done.
Qed.

Lemma attributeChangedCallback_run (n : positive) (info : PivotInfo)
    (this r : positive) (d : DefinitionRecord) (name : string)
    (old new : option string) (w : World) :
  pivotClasses (registry w) !! n = Some info ->
  definitionForElement (registry w) !! this = Some r ->
  heap (registry w) !! r = Some d ->
  PivotCtor_attributeChangedCallback n this name old new w
  = (inr tt,
     match attributeChangedCallback d with
     | Some f =>
         if bool_decide (registeredDefinition info = r)
            || bool_decide (name ∈ observedAttributes d)
         then logged (mkInvocation f this [Some name; old; new]) w
         else w
     | None => w
     end).
Proof.
  destruct w as [s a pr pa cu inv]. simpl. intros Hn He Hd.
  unfold PivotCtor_attributeChangedCallback, pivot, logged. wunfold. simpl.
  rewrite Hn. simpl. rewrite He. simpl. rewrite Hd. simpl.
  destruct (attributeChangedCallback d), (bool_decide _ || bool_decide _); done.
Qed.

(** The reaction to a changed attribute makes calls and writes nothing. *)
Lemma attributeChangedReaction_document (this : positive) (name : string)
    (old new : option string) (w : World) :
  document (snd (attributeChangedReaction this name old new w)) = document w.
Proof.
  destruct w as [s a pr pa cu inv].
  unfold attributeChangedReaction, PivotCtor_attributeChangedCallback, pivot,
    document.
  wunfold. simpl.
  repeat (case_match; simplify_eq/=; try done).
Qed.

Lemma setAttribute_document (this : positive) (name value : string) (w : World) :
  document (snd (setAttribute this name value w))
  = document (set_attributes <[(this, name) := value]> w).
Proof.
  unfold setAttribute, nativeSetAttribute, nativeGetAttribute.
  wunfold.
  pose proof (attributeChangedReaction_document this name
                (attributes w !! (this, name)) (Some value)
                (set_attributes <[(this, name) := value]> w)) as H.
  destruct (patches w !! this) as [[offset cb]|]; simpl; [|exact H].
  destruct (bool_decide (name ∈ offset)); simpl; [|exact H].
  destruct (attributeChangedReaction this name _ (Some value) _) as [[e|[]] w1];
    simpl in *; exact H.
Qed.

Lemma removeAttribute_document (this : positive) (name : string) (w : World) :
  document (snd (removeAttribute this name w))
  = document (set_attributes (delete (this, name)) w).
Proof.
  unfold removeAttribute, nativeRemoveAttribute, nativeGetAttribute.
  wunfold.
  pose proof (attributeChangedReaction_document this name
                (attributes w !! (this, name)) None
                (set_attributes (delete (this, name)) w)) as H.
  assert (Hid : attributes w !! (this, name) = None ->
                document w = document (set_attributes (delete (this, name)) w)).
  { intros Hn. destruct w; unfold document, set_attributes; simpl in *.
    rewrite delete_id; done. }
  destruct (patches w !! this) as [[offset cb]|]; simpl.
  1: destruct (bool_decide (name ∈ offset)); simpl.
  all: destruct (attributes w !! (this, name)) eqn:Ha; simpl; auto.
  all: destruct (attributeChangedReaction this name _ None _) as [[e|[]] w1];
    simpl in *; exact H.
Qed.

Lemma sound_same (w w' : World) :
  registry w' = registry w -> custom w' = custom w -> sound w -> sound w'.
Proof.
  intros Hr Hc [H1 H2 H3]. split; rewrite ?Hr, ?Hc; assumption.
Qed.

(** What a lifecycle callback is run with, for a custom element of a sound
    world. *)
Lemma sound_custom_record (w : World) (e n : positive) :
  sound w -> custom w !! e = Some n ->
  exists info r d,
    pivotClasses (registry w) !! n = Some info /\
    definitionForElement (registry w) !! e = Some r /\
    heap (registry w) !! r = Some d.
Proof.
  intros [Hwf Hs Hc] Hn. destruct (Hc e n Hn) as [[info Hi] [r Hr]].
  destruct (settled_element _ Hs e r Hr) as [d Hd]. eauto 10.
Qed.

(** A lifecycle callback of a custom element writes nothing but calls. *)
Lemma lifecycle_document (e : Event) (w : World) :
  sound w ->
  match e with
  | Connected _ | Disconnected _ | Adopted _ => True
  | _ => False
  end ->
  document (step e w) = document w.
Proof.
  intros Hw He. destruct e as [k|n u this|this|this|this|this name v|this name];
    try done; simpl.
  all: destruct (custom w !! this) as [n|] eqn:Hn;
    [|rewrite reaction_none by done; done].
  all: rewrite (reaction_custom _ this n w Hn).
  all: destruct (sound_custom_record w this n Hw Hn) as (info & r & d & Hi & Hr & Hd).
  - rewrite (connectedCallback_run n info this r d w Hi Hr Hd).
    destruct (connectedCallback d); done.
  - rewrite (disconnectedCallback_run n info this r d w Hi Hr Hd).
    destruct (disconnectedCallback d); done.
  - rewrite (adoptedCallback_run n this r d w Hr Hd).
    destruct (adoptedCallback d); done.
Qed.

Lemma step_keeps (e : Event) (w : World) :
  sound w ->
  sound (step e w) /\ evolves (registry w) (registry (step e w)).
Proof.
  intros Hw.
  assert (Hdoc : forall w', registry w' = registry w -> custom w' = custom w ->
            sound w' /\ evolves (registry w) (registry w')).
  { intros w' Hr Hc. split; [apply (sound_same w); done|].
    rewrite Hr. apply evolves_refl. }
  destruct e as [k|n u this|this|this|this|this name v|this name].
  - simpl. destruct Hw as [Hwf Hs Hc].
    destruct (call_keeps classOf validName getRejects constructs k
                (registry w) Hwf Hs) as (A & B & C).
    split; [|destruct w; exact C].
    apply (sound_evolves w); try (destruct w; done).
  - apply construct_keeps, Hw.
  - pose proof (lifecycle_document (Connected this) w Hw I) as H.
    injection H as H1 _ _ _ H5. apply Hdoc; done.
  - pose proof (lifecycle_document (Disconnected this) w Hw I) as H.
    injection H as H1 _ _ _ H5. apply Hdoc; done.
  - pose proof (lifecycle_document (Adopted this) w Hw I) as H.
    injection H as H1 _ _ _ H5. apply Hdoc; done.
  - pose proof (setAttribute_document this name v w) as H.
    injection H as H1 _ _ _ H5. apply Hdoc; done.
  - pose proof (removeAttribute_document this name w) as H.
    injection H as H1 _ _ _ H5. apply Hdoc; done.
Qed.

Lemma run_keeps (es : list Event) (w : World) :
  sound w ->
  sound (run es w) /\ evolves (registry w) (registry (run es w)).
Proof.
  revert w. induction es as [|e es IH]; intros w Hw; simpl.
  { split; [done|apply evolves_refl]. }
  destruct (step_keeps e w Hw) as [Hw1 He1].
  destruct (IH _ Hw1) as [Hw2 He2].
  split; [exact Hw2|]. eapply evolves_trans; eassumption.
Qed.

(** The ways the constructor of a pivot class ends in a sound world. *)
Lemma construct_cases (n : positive) (info : PivotInfo) (u : option Ctor)
    (this : positive) (w w' : World) (res : Exn + unit) :
  sound w -> pivotClasses (registry w) !! n = Some info ->
  PivotCtor_constructor n u this w = (res, w') ->
  (exists c, u = Some c /\ hasObjectPrototype (classOf c) = false /\
     res = inl (TypeError "The referenced constructor is not a constructor.") /\
     document w'
     = document (set_prototypes <[this := PrototypeOf (PivotClass n)]> w) /\
     invocations w' = invocations w) \/
  exists r s1 d dr,
    match u with
    | Some c =>
        getDefinitionForConstructor c (registry w) = (inr r, s1) /\ UserCtor d = c
    | None =>
        s1 = registry w /\
        definitionsByTag (registry w) !! pivotTagName info = Some r
    end /\
    heap s1 !! r = Some d /\
    heap s1 !! registeredDefinition info = Some dr /\
    res = match constructs (UserCtor d) this with
          | Some err => inl err
          | None => inr tt
          end /\
    registry w' = set_definitionForElement <[this := r]> s1 /\
    attributes w' = attributes w /\ custom w' = custom w /\
    prototypes w' = <[this := PrototypeOf (UserCtor d)]> (prototypes w) /\
    patches w' = match patchFor dr d with
                 | Some p =>
                     if decide (r = registeredDefinition info) then patches w
                     else <[this := p]> (patches w)
                 | None => patches w
                 end /\
    invocations w' = (invocations w ++
       match constructs (UserCtor d) this, patchFor dr d with
       | None, Some (offset, cb) => replayed this cb (attributes w) offset
       | _, _ => []
       end)%list.
Proof.
  intros [Hwf Hs Hc] Hn.
  destruct (settled_pivot _ Hs n info Hn) as [Hp (dr & Hdr & _)].
  assert (Hfinish : forall r s1 d,
    heap s1 !! r = Some d -> heap s1 !! registeredDefinition info = Some dr ->
    internalUpgrade this (registeredDefinition info) r
      (set_registry (fun _ => s1)
         (set_prototypes <[this := PrototypeOf (PivotClass n)]> w)) = (res, w') ->
    res = match constructs (UserCtor d) this with
          | Some err => inl err
          | None => inr tt
          end /\
    registry w' = set_definitionForElement <[this := r]> s1 /\
    attributes w' = attributes w /\ custom w' = custom w /\
    prototypes w' = <[this := PrototypeOf (UserCtor d)]> (prototypes w) /\
    patches w' = match patchFor dr d with
                 | Some p =>
                     if decide (r = registeredDefinition info) then patches w
                     else <[this := p]> (patches w)
                 | None => patches w
                 end /\
    invocations w' = (invocations w ++
       match constructs (UserCtor d) this, patchFor dr d with
       | None, Some (offset, cb) => replayed this cb (attributes w) offset
       | _, _ => []
       end)%list).
  { intros r s1 d Hd Hr E.
    destruct (internalUpgrade_run this (registeredDefinition info) r d dr
                (set_registry (fun _ => s1)
                   (set_prototypes <[this := PrototypeOf (PivotClass n)]> w)))
      as (w2 & E2 & A1 & A2 & A3 & A4 & A5 & A6);
      [destruct w; exact Hd|destruct w; exact Hr|].
    rewrite E2 in E. injection E as <- <-.
    destruct w as [s a pr pa cu inv]; simpl in *.
    rewrite insert_insert_eq in A4. done. }
  destruct u as [c|].
  - rewrite (PivotCtor_constructor_user n info c this w Hn).
    destruct (getDefinitionForConstructor_frame classOf c (registry w))
      as (_ & _ & Hheap).
    destruct (getDefinitionForConstructor c (registry w)) as [[e|r] s1] eqn:Hg.
    + intros [= <- <-]. left. exists c.
      destruct (getDefinitionForConstructor_cases classOf c (registry w))
        as [[Hproto E]|[(_ & r & _ & E)|(_ & _ & E)]]; rewrite E in Hg;
        try discriminate.
      injection Hg as <- <-. destruct w; done.
    + intros E. right.
      destruct (getDefinitionForConstructor_result classOf c r _ s1 Hwf Hg)
        as (_ & _ & (d & Hd & Hu) & _).
      exists r, s1, d, dr. split; [done|]. split; [done|].
      split; [apply Hheap, Hdr|].
      apply Hfinish; [done|apply Hheap, Hdr|done].
  - destruct (wf_pivot_tag _ _ Hwf _ _ Hp) as [r Hr].
    rewrite (PivotCtor_constructor_browser n info r this w Hn Hr).
    destruct (wf_tag_ctor _ _ Hwf _ _ Hr) as [c Hc0].
    destruct (wf_ctor_def _ _ Hwf _ _ Hc0) as (d & Hd & _).
    intros E. right. exists r, (registry w), d, dr.
    split; [done|]. split; [done|]. split; [done|].
    apply Hfinish; [done|done|].
    destruct w; exact E.
Qed.

(** *** What the elements carry *)

Lemma patchFor_sameClass (dr dr' d d' : DefinitionRecord) :
  sameClass dr dr' -> sameClass d d' -> patchFor dr' d' = patchFor dr d.
Proof.
  intros (_ & _ & _ & _ & _ & A) (_ & _ & _ & _ & B & C).
  unfold patchFor, getObservedAttributesOffset. rewrite A, B, C. done.
Qed.

Lemma attached_loaded (native : gmap string Ctor) : attached (loaded native).
Proof.
  split; simpl.
  - intros e n. rewrite lookup_empty. discriminate.
  - intros e _. rewrite !lookup_empty. done.
Qed.

Lemma attached_document (w w' : World) :
  registry w' = registry w -> prototypes w' = prototypes w ->
  patches w' = patches w -> custom w' = custom w ->
  attached w -> attached w'.
Proof.
  intros Hr Hp Hpa Hc [H1 H2]. split; rewrite ?Hr, ?Hp, ?Hpa, ?Hc; assumption.
Qed.

(** The tables may move on under an element, as long as they take nothing
    back and leave the table of the elements alone. *)
Lemma attached_evolves (w w' : World) :
  attached w -> evolves (registry w) (registry w') ->
  (forall e n, custom w !! e = Some n ->
     definitionForElement (registry w') !! e
     = definitionForElement (registry w) !! e) ->
  prototypes w' = prototypes w -> patches w' = patches w ->
  custom w' = custom w ->
  attached w'.
Proof.
  intros [H1 H2] He Hel Hp Hpa Hc. split; rewrite ?Hp, ?Hpa, ?Hc; [|assumption].
  intros e n Hn.
  destruct (H1 e n Hn) as (info & inst & d & dr & A1 & A2 & A3 & A4 & A5 & A6).
  destruct (evolves_heap _ _ He inst d A3) as (d' & B1 & B2 & _).
  destruct (evolves_heap _ _ He _ dr A4) as (dr' & C1 & C2 & _).
  exists info, inst, d', dr'.
  split; [apply (lookup_weaken _ _ _ _ A1 (evolves_classes _ _ He))|].
  split; [rewrite (Hel e n Hn); exact A2|].
  split; [exact B1|]. split; [exact C1|].
  rewrite (patchFor_sameClass dr dr' d d' C2 B2).
  destruct B2 as (-> & _). done.
Qed.

Lemma step_attached (e : Event) (w : World) :
  sound w -> attached w -> attached (step e w).
Proof.
  intros Hw Ha. destruct (step_keeps e w Hw) as [Hw' He].
  destruct e as [k|n u this|this|this|this|this name v|this name].
  - apply (attached_evolves w); try (destruct w; done).
    intros e n _. destruct Hw as [Hwf Hs _]. simpl.
    rewrite (call_elements classOf validName getRejects constructs k
               (registry w) Hwf Hs). done.
  - simpl in *. destruct (prototypes w !! this) eqn:Hfresh; [done|].
    destruct (attached_fresh _ Ha this Hfresh) as [Hpa Hcu].
    destruct (pivotClasses (registry w) !! n) as [info|] eqn:Hn.
    2: { rewrite PivotCtor_constructor_dangling by done. done. }
    destruct (PivotCtor_constructor n u this w) as [res w'] eqn:E.
    destruct (construct_cases n info u this w w' res Hw Hn E)
      as [(c & _ & _ & -> & Hd & _)
         |(r & s1 & d & dr & Hu & Hd & Hdr & -> & B1 & B2 & B3 & B4 & B5 & B6)].
    + injection Hd as D1 D2 D3 D4 D5.
      destruct Ha as [H1 H2]. split; rewrite ?D1, ?D3, ?D4, ?D5; simpl.
      * intros e0 n0 Hn0.
        destruct (H1 e0 n0 Hn0) as (i0 & inst & d0 & dr0 & A1 & A2 & A3 & A4 & A5 & A6).
        exists i0, inst, d0, dr0. do 5 (split; [done|]).
        rewrite lookup_insert_ne; [done|]. intros <-. congruence.
      * intros e0. rewrite lookup_insert_None. intros [Hp0 Hne]. auto.
    + assert (Hold : forall e0 n0, custom w !! e0 = Some n0 -> e0 <> this ->
        exists info0 inst d0 dr0,
          pivotClasses (registry w') !! n0 = Some info0 /\
          definitionForElement (registry w') !! e0 = Some inst /\
          heap (registry w') !! inst = Some d0 /\
          heap (registry w') !! registeredDefinition info0 = Some dr0 /\
          patches w' !! e0 = (if decide (inst = registeredDefinition info0)
                              then None else patchFor dr0 d0) /\
          prototypes w' !! e0 = Some (PrototypeOf (UserCtor d0))).
      { intros e0 n0 Hn0 Hne.
        destruct (attached_custom _ Ha e0 n0 Hn0)
          as (i0 & inst & d0 & dr0 & A1 & A2 & A3 & A4 & A5 & A6).
        assert (Hev : evolves (registry w) (registry w')).
        { destruct (constructs (UserCtor d) this); exact He. }
        destruct (evolves_heap _ _ Hev inst d0 A3) as (d' & C1 & C2 & _).
        destruct (evolves_heap _ _ Hev _ dr0 A4) as (dr' & E1 & E2 & _).
        exists i0, inst, d', dr'.
        split; [apply (lookup_weaken _ _ _ _ A1 (evolves_classes _ _ Hev))|].
        split.
        { rewrite B1. simpl. rewrite lookup_insert_ne by done.
          destruct u as [c|].
          - destruct Hu as [Hg _].
            destruct (getDefinitionForConstructor_frame classOf c (registry w))
              as (F & _). rewrite Hg in F. simpl in F. rewrite F. exact A2.
          - destruct Hu as [-> _]. exact A2. }
        split; [exact C1|]. split; [exact E1|].
        rewrite (patchFor_sameClass dr0 dr' d0 d' E2 C2).
        destruct C2 as (-> & _). rewrite B4, B5.
        rewrite lookup_insert_ne by done. split; [|exact A6].
        destruct (patchFor dr d); [|exact A5].
        destruct (decide (r = registeredDefinition info)); [exact A5|].
        rewrite lookup_insert_ne by done. exact A5. }
      assert (Hfr : forall e0, prototypes w' !! e0 = None ->
                patches w' !! e0 = None /\ custom w !! e0 = None).
      { intros e0. rewrite B4, B5, lookup_insert_None. intros [Hp0 Hne].
        destruct (attached_fresh _ Ha e0 Hp0) as [X Y]. split; [|exact Y].
        destruct (patchFor dr d); [|exact X].
        destruct (decide (r = registeredDefinition info)); [exact X|].
        rewrite lookup_insert_ne by done. exact X. }
      destruct (constructs (UserCtor d) this) eqn:Hcons.
      * split.
        -- intros e0 n0. rewrite B3. intros Hn0. apply (Hold e0 n0 Hn0).
           intros ->. congruence.
        -- intros e0 Hp0. destruct (Hfr e0 Hp0). rewrite B3. done.
      * split; simpl.
        -- intros e0 n0. rewrite lookup_insert_Some.
           intros [[<- <-]|[Hne Hn0]].
           ++ exists info, r, d, dr. rewrite B1, B4, B5. simpl.
              rewrite !lookup_insert_eq.
              assert (Hn' : pivotClasses s1 !! n = Some info).
              { destruct u as [c|].
                - destruct Hu as [Hg _].
                  destruct (getDefinitionForConstructor_frame classOf c (registry w))
                    as (_ & F & _). rewrite Hg in F. simpl in F.
                  rewrite F. exact Hn.
                - destruct Hu as [-> _]. exact Hn. }
              do 4 (split; [done|]). split; [|done].
              destruct (patchFor dr d) as [p|];
                destruct (decide (r = registeredDefinition info)); try done.
              apply lookup_insert_eq.
           ++ rewrite B3 in Hn0.
              destruct (Hold e0 n0 Hn0 ltac:(congruence)) as (i0 & X).
              exists i0. exact X.
        -- intros e0 Hp0. destruct (Hfr e0 Hp0) as [X Y]. split; [exact X|].
           rewrite lookup_insert_ne; [rewrite B3; exact Y|].
           intros <-. rewrite B4, lookup_insert_eq in Hp0. discriminate.
  - pose proof (lifecycle_document (Connected this) w Hw I) as H.
    injection H as H1 _ H3 H4 H5. apply (attached_document w); done.
  - pose proof (lifecycle_document (Disconnected this) w Hw I) as H.
    injection H as H1 _ H3 H4 H5. apply (attached_document w); done.
  - pose proof (lifecycle_document (Adopted this) w Hw I) as H.
    injection H as H1 _ H3 H4 H5. apply (attached_document w); done.
  - pose proof (setAttribute_document this name v w) as H.
    injection H as H1 _ H3 H4 H5. apply (attached_document w); done.
  - pose proof (removeAttribute_document this name w) as H.
    injection H as H1 _ H3 H4 H5. apply (attached_document w); done.
Qed.

(** *** The element methods *)

Lemma offset_elem (dr d : DefinitionRecord) (name : string) :
  (name ∈ getObservedAttributesOffset dr d)
  <-> (name ∉ observedAttributes d) /\ (name ∈ observedAttributes dr).
Proof. unfold getObservedAttributesOffset. rewrite list_elem_of_filter. done. Qed.

Lemma attributeChangedReaction_run (this n : positive) (info : PivotInfo)
    (r : positive) (d : DefinitionRecord) (name : string)
    (old new : option string) (w : World) :
  custom w !! this = Some n ->
  pivotClasses (registry w) !! n = Some info ->
  definitionForElement (registry w) !! this = Some r ->
  heap (registry w) !! r = Some d ->
  attributeChangedReaction this name old new w
  = (inr tt,
     match attributeChangedCallback d with
     | Some f =>
         if bool_decide (name ∈ pivotObservedAttributes info)
            && (bool_decide (registeredDefinition info = r)
                || bool_decide (name ∈ observedAttributes d))
         then logged (mkInvocation f this [Some name; old; new]) w
         else w
     | None => w
     end).
Proof.
  intros Hc Hn He Hd. unfold attributeChangedReaction. 
  pose proof (attributeChangedCallback_run n info this r d name old new w Hn He Hd) as H.
  wunfold. rewrite Hc.
  unfold pivot. wunfold. rewrite Hn. simpl.
  destruct (bool_decide (name ∈ pivotObservedAttributes info)); simpl.
  - rewrite H. done.
  - destruct (attributeChangedCallback d); done.
Qed.


(** The patched method and the reaction together, for an element that
    carries what [internalUpgrade] gave it. *)
Lemma notify_run (this n : positive) (info : PivotInfo)
    (inst : positive) (d dr : DefinitionRecord) (name : string)
    (old new : option string) (w : World) :
  custom w !! this = Some n ->
  pivotClasses (registry w) !! n = Some info ->
  definitionForElement (registry w) !! this = Some inst ->
  heap (registry w) !! inst = Some d ->
  heap (registry w) !! registeredDefinition info = Some dr ->
  pivotObservedAttributes info = observedAttributes dr ->
  match (if decide (inst = registeredDefinition info) then None
         else patchFor dr d) with
  | Some (offset, cb) =>
      if bool_decide (name ∈ offset)
      then match attributeChangedReaction this name old new w with
           | (inl e, w') => (inl e, w')
           | (inr _, w') =>
               (inr tt, logged (mkInvocation cb this [Some name; old; new]) w')
           end
      else attributeChangedReaction this name old new w
  | None => attributeChangedReaction this name old new w
  end
  = (inr tt,
     set_invocations
       (fun l => (l ++ reported dr d
                         (bool_decide (inst = registeredDefinition info))
                         this name old new)%list) w).
Proof.
  intros Hc Hn He Hd Hdr Hobs.
  assert (Hnil : forall w0 : World,
            set_invocations (fun l => (l ++ [])%list) w0 = w0).
  { intros [? ? ? ? ? ?]. unfold set_invocations. simpl.
    rewrite app_nil_r. done. }
  rewrite (attributeChangedReaction_run this n info inst d name old new w
             Hc Hn He Hd), Hobs.
  unfold reported, patchFor.
  destruct (decide (inst = registeredDefinition info)) as [E|Hne].
  - rewrite (bool_decide_eq_true_2 (inst = registeredDefinition info)) by done.
    rewrite (bool_decide_eq_true_2 (registeredDefinition info = inst)) by done.
    simpl. rewrite !andb_true_r.
    destruct (attributeChangedCallback d); simpl; [|rewrite Hnil; done].
    destruct (bool_decide (name ∈ observedAttributes dr)); simpl;
      [done|rewrite Hnil; done].
  - rewrite (bool_decide_eq_false_2 (inst = registeredDefinition info)) by done.
    rewrite (bool_decide_eq_false_2 (registeredDefinition info = inst))
      by congruence.
    simpl.
    destruct (attributeChangedCallback d) as [cb|] eqn:Hcb.
    2: { destruct (observedAttributes d); simpl; rewrite Hnil; done. }
    destruct (observedAttributes d) as [|x l] eqn:Ho; simpl.
    { rewrite ?(bool_decide_eq_false_2 (name ∈ [])) by (apply not_elem_of_nil).
      rewrite ?andb_false_r, Hnil. done. }
    rewrite ?andb_true_r.
    destruct (getObservedAttributesOffset dr d) as [|y k] eqn:Hoff.
    { destruct (bool_decide (name ∈ observedAttributes dr)) eqn:Hin; simpl;
        [|rewrite Hnil; done].
      apply bool_decide_eq_true_1 in Hin.
      rewrite bool_decide_eq_true_2; [done|].
      destruct (decide (name ∈ x :: l)) as [|Hnot]; [done|].
      assert (Hx : name ∈ getObservedAttributesOffset dr d).
      { apply offset_elem. rewrite Ho. done. }
      rewrite Hoff in Hx. apply not_elem_of_nil in Hx. done. }
    rewrite <- Hoff.
    destruct (bool_decide (name ∈ getObservedAttributesOffset dr d)) eqn:Hin.
    + apply bool_decide_eq_true_1, offset_elem in Hin as [Hnot Hyes].
      rewrite Ho in Hnot.
      rewrite (bool_decide_eq_true_2 _ Hyes).
      rewrite (bool_decide_eq_false_2 _ Hnot). simpl. done.
    + apply bool_decide_eq_false_1 in Hin.
      destruct (bool_decide (name ∈ observedAttributes dr)) eqn:Hin'; simpl;
        [|rewrite Hnil; done].
      apply bool_decide_eq_true_1 in Hin'.
      rewrite bool_decide_eq_true_2; [done|].
      destruct (decide (name ∈ x :: l)) as [|Hnot]; [done|].
      exfalso. apply Hin, offset_elem. rewrite Ho. done.
Qed.

Lemma setAttribute_run (this n : positive) (info : PivotInfo)
    (inst : positive) (d dr : DefinitionRecord) (name value : string) (w : World) :
  custom w !! this = Some n ->
  pivotClasses (registry w) !! n = Some info ->
  definitionForElement (registry w) !! this = Some inst ->
  heap (registry w) !! inst = Some d ->
  heap (registry w) !! registeredDefinition info = Some dr ->
  pivotObservedAttributes info = observedAttributes dr ->
  patches w !! this = (if decide (inst = registeredDefinition info) then None
                       else patchFor dr d) ->
  setAttribute this name value w
  = (inr tt,
     set_invocations
       (fun l => (l ++ reported dr d (bool_decide (inst = registeredDefinition info))
                         this name (attributes w !! (this, name)) (Some value))%list)
       (set_attributes <[(this, name) := value]> w)).
Proof.
  intros Hc Hn He Hd Hdr Hobs Hpa.
  pose proof (notify_run this n info inst d dr name
                (attributes w !! (this, name)) (Some value)
                (set_attributes <[(this, name) := value]> w)) as H.
  rewrite <- H by (destruct w; done).
  unfold setAttribute, nativeSetAttribute, nativeGetAttribute. wunfold.
  rewrite Hpa. unfold logged.
  destruct (if decide (inst = registeredDefinition info) then None
            else patchFor dr d) as [[offset cb]|]; [|done].
  destruct (bool_decide (name ∈ offset)); [|done].
  destruct (attributeChangedReaction this name _ _ _) as [[e|[]] w']; done.
Qed.

Lemma removeAttribute_run (this n : positive) (info : PivotInfo)
    (inst : positive) (d dr : DefinitionRecord) (name : string) (w : World) :
  custom w !! this = Some n ->
  pivotClasses (registry w) !! n = Some info ->
  definitionForElement (registry w) !! this = Some inst ->
  heap (registry w) !! inst = Some d ->
  heap (registry w) !! registeredDefinition info = Some dr ->
  pivotObservedAttributes info = observedAttributes dr ->
  patches w !! this = (if decide (inst = registeredDefinition info) then None
                       else patchFor dr d) ->
  removeAttribute this name w
  = (inr tt,
     match attributes w !! (this, name) with
     | Some v =>
         set_invocations
           (fun l => (l ++ reported dr d
                             (bool_decide (inst = registeredDefinition info))
                             this name (Some v) None)%list)
           (set_attributes (delete (this, name)) w)
     | None =>
         match patches w !! this with
         | Some (offset, cb) =>
             if bool_decide (name ∈ offset)
             then logged (mkInvocation cb this [Some name; None; None]) w
             else w
         | None => w
         end
     end).
Proof.
  intros Hc Hn He Hd Hdr Hobs Hpa.
  destruct (attributes w !! (this, name)) as [v|] eqn:Ha.
  - pose proof (notify_run this n info inst d dr name (Some v) None
                  (set_attributes (delete (this, name)) w)) as H.
    rewrite <- H by (destruct w; done).
    unfold removeAttribute, nativeRemoveAttribute, nativeGetAttribute. wunfold.
    rewrite Hpa. unfold logged.
    destruct (if decide (inst = registeredDefinition info) then None
              else patchFor dr d) as [[offset cb]|]; simpl; [|rewrite Ha; done].
    destruct (bool_decide (name ∈ offset)); simpl; rewrite Ha; [|done].
    destruct (attributeChangedReaction this name _ _ _) as [[e|[]] w']; done.
  - unfold removeAttribute, nativeRemoveAttribute, nativeGetAttribute. wunfold.
    unfold logged.
    destruct (patches w !! this) as [[offset cb]|]; simpl; [|rewrite Ha; done].
    destruct (bool_decide (name ∈ offset)); simpl; rewrite Ha; done.
Qed.

Lemma run_attached (es : list Event) (w : World) :
  sound w -> attached w -> attached (run es w).
Proof.
  revert w. induction es as [|e es IH]; intros w Hw Ha; simpl; [done|].
  apply IH; [apply step_keeps, Hw|apply step_attached; done].
Qed.

(** Every world a freshly loaded module gets to. *)
Lemma reachable (native : gmap string Ctor) (es : list Event) :
  sound (run es (loaded native)) /\ attached (run es (loaded native)).
Proof.
  split.
  - apply run_keeps, sound_loaded.
  - apply run_attached; [apply sound_loaded|apply attached_loaded].
Qed.

End LifecycleProperties.

(** ** What the module does, call by call and event by event *)

Section Behaviour.

Import Registry Lifecycle.

Variable classOf : Ctor -> ClassInfo.
Variable userConstructor : Ctor -> positive -> nat -> option Exn.
Variable validName : string -> bool.
Variable getRejects : string -> bool.

Local Abbreviation wf := (Registry.wf classOf).
Local Abbreviation sound := (Lifecycle.sound classOf).
Local Abbreviation recorded := (Lifecycle.recorded classOf).
Local Abbreviation constructs := (Lifecycle.constructs userConstructor).
Local Abbreviation define :=
  (Registry.define classOf validName getRejects constructs).
Local Abbreviation definePivot := (Registry.definePivot classOf validName).
Local Abbreviation get := (Registry.get getRejects).
Local Abbreviation whenDefined := (Registry.whenDefined validName).
Local Abbreviation getDefinitionForConstructor :=
  (Registry.getDefinitionForConstructor classOf).
Local Abbreviation PivotCtor_constructor :=
  (Lifecycle.PivotCtor_constructor classOf userConstructor).
Local Abbreviation step :=
  (Lifecycle.step classOf userConstructor validName getRejects).
Local Abbreviation run :=
  (Lifecycle.run classOf userConstructor validName getRejects).

Ltac munfold :=
  unfold mbind, M_bind, mret, M_ret, bind, ret, gets, modify, throw, deref in *.

(** A run continued is a run. *)
Lemma run_app (es es' : list Event) (w : World) :
  run (es ++ es') w = run es' (run es w).
Proof. apply fold_left_app. Qed.

Lemma reached (native : gmap string Ctor) (es : list Event) :
  sound (run es (loaded native)).
Proof. apply reachable. Qed.

Lemma step_api (k : Call) (w : World) :
  registry (step (Api k) w)
  = call classOf validName getRejects constructs k (registry w).
Proof. destruct w; done. Qed.

(** X1. [getDefinitionForConstructor] throws a [TypeError] and writes
    nothing for a value that is no constructor; for a constructor it returns
    a record whose [UserCtor] is that constructor, a second call returns the
    same record and writes nothing, and no other constructor ever gets that
    record. *)
Theorem getDefinitionForConstructor_one_record (c : Ctor) (s : State) :
  wf s ->
  (hasObjectPrototype (classOf c) = false ->
   getDefinitionForConstructor c s
   = (inl (TypeError "The referenced constructor is not a constructor."), s)) /\
  (hasObjectPrototype (classOf c) = true ->
   exists r s1 d,
     getDefinitionForConstructor c s = (inr r, s1) /\
     heap s1 !! r = Some d /\ UserCtor d = c /\
     getDefinitionForConstructor c s1 = (inr r, s1) /\
     forall c', fst (getDefinitionForConstructor c' s1) = inr r -> c' = c).
Proof.
  intros Hwf. split.
  - intros Hp.
    destruct (getDefinitionForConstructor_cases classOf c s)
      as [[_ E]|[(Hp' & _)|(Hp' & _)]]; [exact E|congruence|congruence].
  - intros Hp.
    destruct (getDefinitionForConstructor c s) as [[e|r] s1] eqn:Hg.
    { destruct (getDefinitionForConstructor_cases classOf c s)
        as [[Hp' _]|[(_ & r & _ & E)|(_ & _ & E)]]; congruence. }
    pose proof (getDefinitionForConstructor_wf classOf c s Hwf) as Hwf1.
    rewrite Hg in Hwf1. simpl in Hwf1.
    destruct (getDefinitionForConstructor_result classOf c r s s1 Hwf Hg)
      as (_ & Hc1 & (d & Hd & Hu) & _).
    exists r, s1, d. do 3 (split; [done|]). split.
    { apply getDefinitionForConstructor_known; done. }
    intros c' Hc'.
    destruct (getDefinitionForConstructor_cases classOf c' s1)
      as [[_ E]|[(_ & r' & Hr' & E)|(_ & _ & E)]]; rewrite E in Hc';
      simpl in Hc'; try discriminate.
    + injection Hc' as ->.
      destruct (wf_ctor_def _ _ Hwf1 _ _ Hr') as (d' & Hd' & Hu'). congruence.
    + injection Hc' as <-.
      assert (Hfresh : heap s1 !! fresh (dom (heap s1)) = None).
      { apply not_elem_of_dom, is_fresh. }
      congruence.
Qed.

(** What is known of the world after a call and more events. *)
Lemma after_api (native : gmap string Ctor) (es es' : list Event) (k : Call) :
  sound (run es (loaded native)) /\
  wf (call classOf validName getRejects constructs k
        (registry (run es (loaded native)))) /\
  sound (run es' (step (Api k) (run es (loaded native)))) /\
  evolves (call classOf validName getRejects constructs k
             (registry (run es (loaded native))))
    (registry (run es' (step (Api k) (run es (loaded native))))).
Proof.
  pose proof (reached native es) as Hw.
  destruct (step_keeps classOf userConstructor validName getRejects
              (Api k) _ Hw) as [Hw1 _].
  destruct (run_keeps classOf userConstructor validName getRejects
              es' _ Hw1) as [Hw2 He].
  rewrite step_api in He. split; [done|]. split; [|done].
  rewrite <- step_api. apply Hw1.
Qed.

(** X2. Once the helper that [patchCustomElementRegistry] returns handed out
    a pivot class for a name, the name stays taken: after any further
    events a call of the helper for that name, in whatever case and with
    whatever constructor, returns the same class and writes nothing, and
    [define] for that name throws the [DOMException] of a name already
    used and writes nothing. *)
Theorem helper_name_stays_taken (native : gmap string Ctor)
    (es es' : list Event) (t t' : string) (c c' P : Ctor)
    (o : option ElementDefinitionOptions) :
  let w := run es (loaded native) in
  let w' := run es' (step (Api (CallDefinePivot t c)) w) in
  fst (definePivot t c (registry w)) = inr P ->
  toLowerCase t' = toLowerCase t ->
  definePivot t' c' (registry w') = (inr P, registry w') /\
  (extendsGiven o = false -> getRejects t' = false ->
   define t' c' o (registry w')
   = (inl (DOMException (nameUsedMessage (toLowerCase t))), registry w')).
Proof.
  intros w w' HP Ht.
  destruct (after_api native es es' (CallDefinePivot t c))
    as ([Hwf _ _] & Hwf1 & [Hwf' _ _] & He).
  fold w in Hwf, Hwf1, He. fold w' in Hwf', He. simpl in Hwf1, He.
  destruct (definePivot t c (registry w)) as [res s1] eqn:E.
  simpl in HP, Hwf1, He. subst res.
  assert (Hpiv : pivotCtorByTag s1 !! toLowerCase t = Some P).
  { destruct (definePivot_cases classOf validName t c (registry w) s1 (inr P)
                Hwf E)
      as [(P' & HP' & [= <-] & ->)|[(_ & _ & [=] & _)
          |(r & s0 & d & _ & _ & _ & _ & _ & [(e & [=] & _)|([= ->] & _ & _ & ->)])]].
    - exact HP'.
    - simpl. apply lookup_insert_eq. }
  pose proof (lookup_weaken _ _ _ _ Hpiv (evolves_pivot _ _ He)) as Hpiv'.
  split.
  - unfold Registry.definePivot. munfold. rewrite Ht, Hpiv'. done.
  - intros Hext Hget. rewrite <- Ht.
    apply define_name_used_message; [done|done|].
    rewrite Ht. apply (wf_pivot_tag _ _ Hwf' _ _ Hpiv').
Qed.

(** X3. After a [define] that returned, and any further events, the native
    registry holds one pivot class under the lower-cased name and the helper
    returns that class for the name, writing nothing. *)
Theorem defined_name_keeps_its_pivot (native : gmap string Ctor)
    (es es' : list Event) (t t' : string) (c c' : Ctor)
    (o : option ElementDefinitionOptions) :
  let w := run es (loaded native) in
  let w' := run es' (step (Api (CallDefine t c o)) w) in
  fst (define t c o (registry w)) = inr tt ->
  toLowerCase t' = toLowerCase t ->
  exists n,
    nativeDefinitions (registry w') !! toLowerCase t = Some (PivotClass n) /\
    definePivot t' c' (registry w') = (inr (PivotClass n), registry w').
Proof.
  intros w w' Hres Ht.
  destruct (after_api native es es' (CallDefine t c o))
    as ([Hwf Hs _] & Hwf1 & [Hwf' _ _] & He).
  fold w in Hwf, Hs, Hwf1, He. fold w' in Hwf', He. simpl in Hwf1, He.
  destruct (define t c o (registry w)) as [res s1] eqn:E.
  simpl in Hres, Hwf1, He. subst res.
  assert (Haw : awaitingUpgrade (registry w) !! toLowerCase t = None).
  { rewrite (settled_awaiting _ Hs). apply lookup_empty. }
  destruct (define_cases classOf validName getRejects constructs t c o
              (registry w) s1 (inr tt) Hwf Haw
              (fun p => settled_resolver _ Hs _ p) E)
    as [(e & [=] & _)
       |(r & s0 & d & _ & _ & _ & _ & _ & _ & _ & _
           & [(e & [=] & _)|(_ & _ & _ & ->)])].
  exists (fresh (dom (pivotClasses s0))). simpl in He.
  split.
  - apply (lookup_weaken _ _ _ _ (lookup_insert_eq _ _ _)
             (evolves_native _ _ He)).
  - unfold Registry.definePivot. munfold. rewrite Ht.
    rewrite (lookup_weaken _ _ _ _ (lookup_insert_eq _ _ _)
               (evolves_pivot _ _ He)). done.
Qed.

(** X4. No event takes anything back: after any events the definitions of
    the names and of the constructors, the pivot classes, the native
    definitions, the promises and the patched flag are what they were or
    more; a record keeps its class, its callbacks and its observed
    attributes, and its [PivotCtor] once its constructor was defined; an
    upgraded element stays upgraded. *)
Theorem events_take_nothing_back (native : gmap string Ctor)
    (es es' : list Event) :
  evolves (registry (run es (loaded native)))
    (registry (run es' (run es (loaded native)))).
Proof. apply run_keeps, reached. Qed.

(** X5. No element is ever left waiting: whatever the calls, the
    constructions and the lifecycle callbacks, [pendingRegistryForElement]
    and [awaitingUpgrade] stay empty, and every element whose pivot
    constructor returned has the definition it was upgraded with. *)
Theorem no_element_waits (native : gmap string Ctor) (es : list Event) :
  let w := run es (loaded native) in
  pendingRegistryForElement (registry w) = ∅ /\
  awaitingUpgrade (registry w) = ∅ /\
  forall e n, custom w !! e = Some n ->
    is_Some (definitionForElement (registry w) !! e).
Proof.
  intros w. destruct (reached native es) as [_ Hs Hc]. fold w in Hs, Hc.
  split; [apply (settled_pending _ Hs)|].
  split; [apply (settled_awaiting _ Hs)|].
  intros e n Hn. apply (Hc e n Hn).
Qed.

(** [define] past its own checks: what the native [define] makes of it. *)
Lemma define_passed (t : string) (c : Ctor)
    (o : option ElementDefinitionOptions) (s : State) :
  wf s -> settled s ->
  extendsGiven o = false -> getRejects t = false ->
  definitionsByTag s !! toLowerCase t = None ->
  hasObjectPrototype (classOf c) = true ->
  definitionsByClass s !! c = None ->
  exists r s1 d,
    getDefinitionForConstructor c s = (inr r, s1) /\
    heap s1 !! r = Some d /\ UserCtor d = c /\
    define t c o s
    = (if negb (validName (toLowerCase t))
       then (inl (DOMException "SyntaxError"),
             registered (toLowerCase t) c r d s1)
       else if bool_decide (is_Some (nativeDefinitions s !! toLowerCase t))
       then (inl (DOMException "NotSupportedError"),
             registered (toLowerCase t) c r d s1)
       else (inr tt, defined (toLowerCase t) c r d s1)).
Proof.
  intros Hwf Hs Hext Hget Htag Hp Hk.
  assert (Haw : awaitingUpgrade s !! toLowerCase t = None).
  { rewrite (settled_awaiting _ Hs). apply lookup_empty. }
  assert (Hpiv : pivotCtorByTag s !! toLowerCase t = None).
  { destruct (pivotCtorByTag s !! toLowerCase t) eqn:Ep; [|done].
    destruct (wf_pivot_tag _ _ Hwf _ _ Ep) as [? ?]. congruence. }
  assert (Hres : definedResolvers s !! toLowerCase t = None \/
                 is_Some (nativeDefinitions s !! toLowerCase t)).
  { destruct (definedResolvers s !! toLowerCase t) as [p|] eqn:E; [|auto].
    right. apply (settled_resolver _ Hs _ _ E). }
  destruct (getDefinitionForConstructor c s) as [[e|r] s1] eqn:Hg.
  { destruct (getDefinitionForConstructor_cases classOf c s)
      as [[Hp' _]|[(_ & r & _ & E)|(_ & _ & E)]]; congruence. }
  destruct (getDefinitionForConstructor_result classOf c r s s1 Hwf Hg)
    as (_ & _ & (d & Hd & Hu) & _).
  exists r, s1, d. do 3 (split; [done|]).
  unfold Registry.define. munfold. rewrite Hext. unfold nativeGet.
  rewrite Hget. munfold. simpl. rewrite Htag. simpl. rewrite Hg.
  destruct (getDefinitionForConstructor_cases classOf c s)
    as [[Hp' _]|[(_ & r0 & Hr0 & Eg)|(_ & Hr0 & Eg)]];
    [congruence| |]; rewrite Eg in Hg; injection Hg as <- <-; simpl.
  all: rewrite Hk; simpl; rewrite Hpiv.
  all: unfold createPivotingClass; munfold; simpl.
  all: simpl in Hd; rewrite Hd; simpl.
  all: unfold nativeDefine; munfold; simpl.
  all: destruct (validName (toLowerCase t)); simpl; [|done].
  all: destruct (nativeDefinitions s !! toLowerCase t) eqn:Hn; simpl; [done|].
  all: rewrite Haw; simpl.
  all: destruct Hres as [->|[? ?]]; [done|congruence].
Qed.

(** X6. [define] makes its checks in one order, and the first that fails
    decides what is thrown: [extends], the native [get], the name, the
    constructor being a constructor, the constructor being unused, and then
    the two checks of the native [define].  When one of the first five
    fails nothing is written. *)
Theorem define_checks_in_order (t : string) (c : Ctor)
    (o : option ElementDefinitionOptions) (s : State) :
  wf s -> settled s ->
  fst (define t c o s)
  = (if extendsGiven o then inl (DOMException extendsMessage)
     else if getRejects t then inl (DOMException "SyntaxError")
     else if bool_decide (is_Some (definitionsByTag s !! toLowerCase t))
     then inl (DOMException (nameUsedMessage (toLowerCase t)))
     else if negb (hasObjectPrototype (classOf c))
     then inl (TypeError "The referenced constructor is not a constructor.")
     else if bool_decide (is_Some (definitionsByClass s !! c))
     then inl (DOMException ctorUsedMessage)
     else if negb (validName (toLowerCase t))
     then inl (DOMException "SyntaxError")
     else if bool_decide (is_Some (nativeDefinitions s !! toLowerCase t))
     then inl (DOMException "NotSupportedError")
     else inr tt) /\
  (extendsGiven o = true \/ getRejects t = true \/
   is_Some (definitionsByTag s !! toLowerCase t) \/
   hasObjectPrototype (classOf c) = false \/
   is_Some (definitionsByClass s !! c) ->
   snd (define t c o s) = s).
Proof.
  intros Hwf Hs.
  destruct (extendsGiven o) eqn:Hext.
  { unfold Registry.define. rewrite Hext. auto. }
  destruct (getRejects t) eqn:Hget.
  { unfold Registry.define, nativeGet. rewrite Hext, Hget. auto. }
  destruct (definitionsByTag s !! toLowerCase t) as [r|] eqn:Htag.
  { rewrite (define_name_used_message classOf validName getRejects constructs
               t c o s Hext Hget) by eauto. auto. }
  destruct (hasObjectPrototype (classOf c)) eqn:Hp.
  2: { unfold Registry.define, nativeGet. rewrite Hext, Hget. munfold. simpl.
       rewrite Htag. simpl.
       destruct (getDefinitionForConstructor_cases classOf c s)
         as [[_ E]|[(Hp' & _)|(Hp' & _)]]; [|congruence|congruence].
       rewrite E. auto. }
  destruct (definitionsByClass s !! c) as [r|] eqn:Hk.
  { rewrite (define_ctor_used_message classOf validName getRejects constructs
               t c o s Hwf Hext Hget Htag) by eauto. auto. }
  destruct (define_passed t c o s Hwf Hs Hext Hget Htag Hp Hk)
    as (r & s1 & d & _ & _ & _ & ->).
  simpl. split.
  - destruct (validName (toLowerCase t)); simpl; [|done].
    destruct (nativeDefinitions s !! toLowerCase t); done.
  - intros [|[|[[? ?]|[|[? ?]]]]]; discriminate.
Qed.

(** X7. [define] registers before it asks the native registry: when the
    native [define] rejects the lower-cased name, as no valid name or as a
    name it has defined already, [define] throws with the name and the
    constructor in the patched tables, a pivot class made, and the native
    registry as it was; a second [define] of the name then throws the
    [DOMException] of a name already used. *)
Theorem define_registers_before_native_define (t : string) (c c2 : Ctor)
    (o o2 : option ElementDefinitionOptions) (s : State) :
  wf s -> settled s ->
  extendsGiven o = false -> getRejects t = false ->
  definitionsByTag s !! toLowerCase t = None ->
  hasObjectPrototype (classOf c) = true ->
  definitionsByClass s !! c = None ->
  validName (toLowerCase t) = false \/
    is_Some (nativeDefinitions s !! toLowerCase t) ->
  let s' := snd (define t c o s) in
  (exists e, fst (define t c o s) = inl (DOMException e)) /\
  is_Some (definitionsByTag s' !! toLowerCase t) /\
  is_Some (definitionsByClass s' !! c) /\
  is_Some (pivotCtorByTag s' !! toLowerCase t) /\
  nativeDefinitions s' = nativeDefinitions s /\
  (extendsGiven o2 = false ->
   define t c2 o2 s'
   = (inl (DOMException (nameUsedMessage (toLowerCase t))), s')).
Proof.
  intros Hwf Hs Hext Hget Htag Hp Hk Hnat s'.
  destruct (define_passed t c o s Hwf Hs Hext Hget Htag Hp Hk)
    as (r & s1 & d & Hg & _ & _ & E).
  destruct (getDefinitionForConstructor_result classOf c r s s1 Hwf Hg)
    as (_ & _ & _ & _ & _ & _ & _ & En).
  assert (Es : s' = registered (toLowerCase t) c r d s1 /\
               exists e, fst (define t c o s) = inl (DOMException e)).
  { subst s'. rewrite E.
    destruct (validName (toLowerCase t)); simpl; [|eauto].
    destruct Hnat as [|Hn]; [discriminate|].
    rewrite bool_decide_eq_true_2 by done. eauto. }
  destruct Es as [Es He]. split; [exact He|]. rewrite Es. simpl.
  rewrite !lookup_insert_eq. do 3 (split; [eauto|]). split; [exact En|].
  intros Hext2. rewrite <- Es.
  apply define_name_used_message; [done|done|].
  rewrite Es. simpl. rewrite lookup_insert_eq. eauto.
Qed.

(** When [whenDefined] leaves its promise pending on the tables. *)
Lemma whenDefined_pending (t : string) (p : positive) (s : State) :
  validName t = true -> is_Some (nativeDefinitions s !! t) ->
  definedPromises s !! t = Some p -> promises s !! p = Some None ->
  whenDefined t s = (PendingOn p, s).
Proof.
  intros Hv [P Hn] Hp Hpr.
  unfold Registry.whenDefined, nativeWhenDefined, whenDefinedCallback.
  munfold. rewrite Hv, Hn, Hp. simpl. rewrite Hpr. done.
Qed.

Lemma whenDefined_pending_inv (t : string) (p : positive) (s : State) :
  settled s -> fst (whenDefined t s) = PendingOn p ->
  validName t = true /\
  is_Some (nativeDefinitions (snd (whenDefined t s)) !! t) /\
  definedPromises (snd (whenDefined t s)) !! t = Some p /\
  promises (snd (whenDefined t s)) !! p = Some None.
Proof.
  intros Hs. unfold Registry.whenDefined, nativeWhenDefined, whenDefinedCallback.
  munfold.
  destruct (validName t); [|discriminate].
  destruct (nativeDefinitions s !! t) eqn:Hn; simpl; [|discriminate].
  destruct (definedPromises s !! t) as [p0|] eqn:Hp; simpl.
  - destruct (settled_promise _ Hs _ _ Hp) as [[c0|] Hpr]; rewrite Hpr; simpl;
      [discriminate|].
    intros [= <-]. rewrite Hn. eauto.
  - destruct (definitionsByTag s !! t); simpl.
    + destruct (heap s !! _); discriminate.
    + rewrite lookup_insert_eq. simpl. intros [= <-].
      rewrite Hn, !lookup_insert_eq. eauto.
Qed.

(** X8. A promise that [whenDefined] leaves pending on the patched tables,
    for a name the native registry defined and the tables do not know,
    stays pending: after any further events, a [define] of the name among
    them, [whenDefined] for the name hands out the same promise, still
    pending, and writes nothing. *)
Theorem pending_promise_stays_pending (native : gmap string Ctor)
    (es es' : list Event) (t : string) (p : positive) :
  let w := run es (loaded native) in
  let w' := run es' (step (Api (CallWhenDefined t)) w) in
  fst (whenDefined t (registry w)) = PendingOn p ->
  whenDefined t (registry w') = (PendingOn p, registry w').
Proof.
  intros w w' Hp.
  destruct (after_api native es es' (CallWhenDefined t))
    as ([_ Hs _] & _ & _ & He).
  fold w in Hs, He. fold w' in He. simpl in He.
  destruct (whenDefined_pending_inv t p (registry w) Hs Hp)
    as (Hv & [P Hn] & Hd & Hpr).
  apply whenDefined_pending; [done| | |].
  - exists P. apply (lookup_weaken _ _ _ _ Hn (evolves_native _ _ He)).
  - apply (lookup_weaken _ _ _ _ Hd (evolves_promise _ _ He)).
  - apply (lookup_weaken _ _ _ _ Hpr (evolves_promises _ _ He)).
Qed.

(** X9. [patchCustomElementRegistry] patches once: after a call that
    returned, in every later state that took nothing back, a second call
    throws the [Error] of a registry patched twice and writes nothing. *)
Theorem patch_only_once (s s' s'' : State) :
  patchCustomElementRegistry s = (inr tt, s') -> evolves s' s'' ->
  patchCustomElementRegistry s'' = (inl (Error patchedTwiceMessage), s'').
Proof.
  unfold patchCustomElementRegistry. munfold.
  destruct (registryPatched s) eqn:Hp; [discriminate|].
  intros [= <-] He.
  rewrite (evolves_patched _ _ He); done.
Qed.

(** *** The records mirror their classes *)

Lemma recorded_heap (s s' : State) :
  heap s' = heap s -> recorded s -> recorded s'.
Proof. intros E H r d. rewrite E. apply H. Qed.

Lemma recorded_allocated (c : Ctor) (s : State) :
  recorded s -> recorded (allocated classOf c s).
Proof.
  intros H r d. unfold allocated. simpl. rewrite lookup_insert_Some.
  intros [[_ <-]|[_ Hd]]; [|apply H in Hd; exact Hd].
  simpl. apply sameClass_refl.
Qed.

Lemma recorded_with_pivot (r : positive) (P : Ctor) (s : State) :
  recorded s -> recorded (set_heap (alter (withPivotCtor P) r) s).
Proof.
  intros H r' d'. simpl. destruct (decide (r = r')) as [<-|Hne].
  - rewrite lookup_alter_eq. destruct (heap s !! r) as [d|] eqn:Hd; [|done].
    simpl. intros [= <-]. apply (H _ _ Hd).
  - rewrite lookup_alter_ne by done. apply H.
Qed.

Lemma getDefinitionForConstructor_recorded (c : Ctor) (s : State) :
  recorded s -> recorded (snd (getDefinitionForConstructor c s)).
Proof.
  intros H.
  destruct (getDefinitionForConstructor_cases classOf c s)
    as [[_ E]|[(_ & r & _ & E)|(_ & Hc & E)]]; rewrite E; simpl; try done.
  apply recorded_allocated, H.
Qed.

Lemma call_recorded (k : Call) (s : State) :
  wf s -> settled s -> recorded s ->
  recorded (call classOf validName getRejects constructs k s).
Proof.
  intros Hwf Hs H. destruct k as [t c o|t|t|t c]; simpl.
  - destruct (define t c o s) as [res s'] eqn:E. simpl.
    assert (Haw : awaitingUpgrade s !! toLowerCase t = None).
    { rewrite (settled_awaiting _ Hs). apply lookup_empty. }
    destruct (define_cases classOf validName getRejects constructs
                t c o s s' res Hwf Haw
                (fun p => settled_resolver _ Hs _ p) E)
      as [(e & _ & ->)|(r & s1 & d & Hg & _ & _ & _ & _ & _ & _ & _ & Hend)];
      [done|].
    pose proof (getDefinitionForConstructor_recorded c s H) as H1.
    rewrite Hg in H1. simpl in H1.
    destruct Hend as [(e & _ & -> & _)|(_ & _ & _ & ->)].
    + eapply recorded_heap; [|exact H1]. done.
    + unfold defined. apply recorded_with_pivot.
      eapply recorded_heap; [|exact H1]. done.
  - rewrite get_state. done.
  - destruct (whenDefined_cases validName t s) as [->|(_ & _ & _ & ->)]; [done|].
    simpl. eapply recorded_heap; [|exact H]. done.
  - destruct (definePivot t c s) as [res s'] eqn:E. simpl.
    destruct (definePivot_cases classOf validName t c s s' res Hwf E)
      as [(P & _ & _ & ->)|[(_ & _ & _ & ->)
          |(r & s1 & d & _ & _ & Hg & _ & _ & Hend)]]; try done.
    pose proof (getDefinitionForConstructor_recorded c s H) as H1.
    rewrite Hg in H1. simpl in H1.
    destruct Hend as [(e & _ & -> & _)|(_ & _ & _ & ->)];
      (eapply recorded_heap; [|exact H1]); done.
Qed.

Lemma step_recorded (e : Event) (w : World) :
  sound w -> recorded (registry w) -> recorded (registry (step e w)).
Proof.
  intros Hw H.
  destruct e as [k|n u this|this|this|this|this name v|this name].
  - destruct Hw as [Hwf Hs _]. destruct w. simpl. apply call_recorded; done.
  - simpl. destruct (prototypes w !! this); [done|].
    destruct (pivotClasses (registry w) !! n) as [info|] eqn:Hn.
    2: { rewrite PivotCtor_constructor_dangling by done. done. }
    destruct (PivotCtor_constructor n u this w) as [res w'] eqn:E.
    assert (Hgoal : recorded (registry w')).
    { destruct (construct_cases classOf userConstructor n info u this w w' res
                  Hw Hn E)
        as [(c & _ & _ & _ & Hdoc & _)
           |(r & s1 & d & dr & Hu & _ & _ & _ & Hr & _)].
      - injection Hdoc as -> _ _ _ _. destruct w; done.
      - rewrite Hr. eapply recorded_heap; [done|].
        destruct u as [c|].
        + destruct Hu as [Hg _].
          pose proof (getDefinitionForConstructor_recorded c (registry w) H) as H1.
          rewrite Hg in H1. exact H1.
        + destruct Hu as [-> _]. exact H. }
    destruct res as [e|[]]; [done|destruct w'; done].
  - pose proof (lifecycle_document classOf userConstructor validName getRejects
                  (Connected this) w Hw I) as Hd.
    injection Hd as Hd _ _ _ _. simpl in Hd |- *. rewrite Hd. done.
  - pose proof (lifecycle_document classOf userConstructor validName getRejects
                  (Disconnected this) w Hw I) as Hd.
    injection Hd as Hd _ _ _ _. simpl in Hd |- *. rewrite Hd. done.
  - pose proof (lifecycle_document classOf userConstructor validName getRejects
                  (Adopted this) w Hw I) as Hd.
    injection Hd as Hd _ _ _ _. simpl in Hd |- *. rewrite Hd. done.
  - pose proof (setAttribute_document this name v w) as Hd.
    injection Hd as Hd _ _ _ _. simpl. rewrite Hd. destruct w; done.
  - pose proof (removeAttribute_document this name w) as Hd.
    injection Hd as Hd _ _ _ _. simpl. rewrite Hd. destruct w; done.
Qed.

Lemma run_recorded (es : list Event) (w : World) :
  sound w -> recorded (registry w) -> recorded (registry (run es w)).
Proof.
  revert w. induction es as [|e es IH]; intros w Hw H; simpl; [done|].
  apply IH; [apply step_keeps, Hw|apply step_recorded; done].
Qed.

Lemma elem_of_setOf (x : string) (l : list string) : x ∈ setOf l <-> x ∈ l.
Proof.
  induction l as [|y l IH]; simpl; [done|].
  rewrite !elem_of_cons, list_elem_of_filter, IH.
  destruct (decide (x = y)); tauto.
Qed.

Lemma NoDup_setOf (l : list string) : NoDup (setOf l).
Proof.
  induction l as [|y l IH]; simpl; [constructor|].
  constructor; [|apply NoDup_filter, IH].
  rewrite list_elem_of_filter. tauto.
Qed.

Lemma recorded_reached (native : gmap string Ctor) (es : list Event) :
  recorded (registry (run es (loaded native))).
Proof.
  apply run_recorded; [apply sound_loaded|].
  intros r d. simpl. rewrite lookup_empty. discriminate.
Qed.

(** X10. A record holds what [createDefinitionRecord] read off its class,
    whatever happened since: the four callbacks of the prototype of its
    [UserCtor], and as [observedAttributes] the names of the static
    [observedAttributes] of that class, each once, or none when the class
    has no such property. *)
Theorem records_mirror_classes (native : gmap string Ctor) (es : list Event)
    (r : positive) (d : DefinitionRecord) :
  heap (registry (run es (loaded native))) !! r = Some d ->
  connectedCallback d = protoConnectedCallback (classOf (UserCtor d)) /\
  disconnectedCallback d = protoDisconnectedCallback (classOf (UserCtor d)) /\
  adoptedCallback d = protoAdoptedCallback (classOf (UserCtor d)) /\
  attributeChangedCallback d
  = protoAttributeChangedCallback (classOf (UserCtor d)) /\
  NoDup (observedAttributes d) /\
  forall x, x ∈ observedAttributes d
            <-> x ∈ default [] (staticObservedAttributes (classOf (UserCtor d))).
Proof.
  intros Hd.
  destruct (recorded_reached native es r d Hd) as (_ & A & B & C & D & E).
  simpl in A, B, C, D, E. do 4 (split; [done|]). rewrite E. split.
  - apply NoDup_setOf.
  - intros x. apply elem_of_setOf.
Qed.

(** The constructor of a pivot class on an element no constructor ran on,
    in a world the module gets to. *)
Lemma construct_reached (native : gmap string Ctor) (es : list Event)
    (n : positive) (u : option Ctor) (this : positive) :
  let w := run es (loaded native) in
  let w' := step (Construct n u this) w in
  is_Some (pivotClasses (registry w) !! n) ->
  prototypes w !! this = None ->
  match u with
  | Some c => hasObjectPrototype (classOf c) = true
  | None => True
  end ->
  exists info r d dr,
    pivotClasses (registry w) !! n = Some info /\
    match u with
    | Some c => UserCtor d = c
    | None => definitionsByTag (registry w) !! pivotTagName info = Some r
    end /\
    definitionForElement (registry w') !! this = Some r /\
    heap (registry w') !! r = Some d /\
    heap (registry w') !! registeredDefinition info = Some dr /\
    prototypes w' !! this = Some (PrototypeOf (UserCtor d)) /\
    attributes w' = attributes w /\
    custom w' !! this = match constructs (UserCtor d) this with
                        | Some _ => None
                        | None => Some n
                        end /\
    invocations w' = (invocations w ++
       match constructs (UserCtor d) this, patchFor dr d with
       | None, Some (offset, cb) => replayed this cb (attributes w) offset
       | _, _ => []
       end)%list.
Proof.
  intros w w' [info Hn] Hp Hu.
  destruct (reachable classOf userConstructor validName getRejects native es)
    as [Hw Ha].
  fold w in Hw, Ha.
  destruct (attached_fresh _ Ha this Hp) as [_ Hcu].
  subst w'. simpl. rewrite Hp.
  destruct (PivotCtor_constructor n u this w) as [res w1] eqn:E.
  destruct (construct_cases classOf userConstructor n info u this w w1 res
              Hw Hn E)
    as [(c & -> & Hno & _)
       |(r & s1 & d & dr & Hud & Hd & Hdr & -> & Hr & Hat & Hc & Hpr & _ & Hinv)].
  { congruence. }
  exists info, r, d, dr. split; [done|]. split.
  { destruct u as [c|]; [apply Hud|apply Hud]. }
  destruct (constructs (UserCtor d) this) as [err|]; simpl.
  all: rewrite Hr, Hpr, Hat, Hinv; simpl; rewrite !lookup_insert_eq.
  all: do 5 (split; [done|]).
  all: split; [|done].
  - rewrite Hc. exact Hcu.
  - done.
Qed.

(** X11. A pivot class that constructs an element upgrades it at once: with
    the record of the constructor it was given, or, constructed by the
    browser, with the definition registered under its name.  The element
    gets the prototype of that class and keeps its attributes, and it is a
    custom element when the user constructor returned, at the first attempt
    or at the second after a [TypeError] of an illegal constructor. *)
Theorem construction_upgrades (native : gmap string Ctor) (es : list Event)
    (n : positive) (u : option Ctor) (this : positive) :
  let w := run es (loaded native) in
  let w' := step (Construct n u this) w in
  is_Some (pivotClasses (registry w) !! n) ->
  prototypes w !! this = None ->
  match u with
  | Some c => hasObjectPrototype (classOf c) = true
  | None => True
  end ->
  exists r d,
    match u with
    | Some c => UserCtor d = c
    | None => exists info,
        pivotClasses (registry w) !! n = Some info /\
        definitionsByTag (registry w) !! pivotTagName info = Some r
    end /\
    definitionForElement (registry w') !! this = Some r /\
    heap (registry w') !! r = Some d /\
    prototypes w' !! this = Some (PrototypeOf (UserCtor d)) /\
    attributes w' = attributes w /\
    custom w' !! this = match constructs (UserCtor d) this with
                        | Some _ => None
                        | None => Some n
                        end.
Proof.
  intros w w' Hn Hp Hu.
  destruct (construct_reached native es n u this Hn Hp Hu)
    as (info & r & d & dr & Hi & Hud & He & Hd & _ & Hpr & Hat & Hc & _).
  exists r, d. split; [|done].
  destruct u as [c|]; [done|eauto].
Qed.

(** X12. The calls an upgrade makes: when the user constructor returned and
    the definition of the element observes some attribute and has an
    [attributeChangedCallback], that callback is called with
    [(name, null, value)] for each attribute the element has among those the
    registered definition observes and the definition of the element does
    not, in the order of the registered definition; in every other case no
    callback is called. *)
Theorem upgrade_replays_offset (native : gmap string Ctor) (es : list Event)
    (n : positive) (u : option Ctor) (this : positive) :
  let w := run es (loaded native) in
  let w' := step (Construct n u this) w in
  is_Some (pivotClasses (registry w) !! n) ->
  prototypes w !! this = None ->
  match u with
  | Some c => hasObjectPrototype (classOf c) = true
  | None => True
  end ->
  exists info r d dr,
    pivotClasses (registry w) !! n = Some info /\
    definitionForElement (registry w') !! this = Some r /\
    heap (registry w') !! r = Some d /\
    heap (registry w') !! registeredDefinition info = Some dr /\
    invocations w' = (invocations w ++
       match constructs (UserCtor d) this, attributeChangedCallback d,
             observedAttributes d with
       | None, Some cb, _ :: _ =>
           replayed this cb (attributes w) (getObservedAttributesOffset dr d)
       | _, _, _ => []
       end)%list.
Proof.
  intros w w' Hn Hp Hu.
  destruct (construct_reached native es n u this Hn Hp Hu)
    as (info & r & d & dr & Hi & _ & He & Hd & Hdr & _ & _ & _ & Hinv).
  exists info, r, d, dr. do 4 (split; [done|]).
  subst w' w. rewrite Hinv. f_equal.
  unfold patchFor.
  destruct (constructs (UserCtor d) this); [done|].
  destruct (observedAttributes d), (attributeChangedCallback d); try done.
  destruct (getObservedAttributesOffset dr _); done.
Qed.

(** X13. The lifecycle callbacks of a pivot class delegate: for a custom
    element, connecting, disconnecting and adopting it call the callback of
    that name on the prototype of the class the element has the prototype
    of, on the element and without arguments, and write nothing else; when
    the class has no such callback nothing happens. *)
Theorem lifecycle_callbacks_delegate (native : gmap string Ctor)
    (es : list Event) (this n : positive) :
  let w := run es (loaded native) in
  custom w !! this = Some n ->
  exists c,
    prototypes w !! this = Some (PrototypeOf c) /\
    step (Connected this) w
    = match protoConnectedCallback (classOf c) with
      | Some f => logged (mkInvocation f this []) w
      | None => w
      end /\
    step (Disconnected this) w
    = match protoDisconnectedCallback (classOf c) with
      | Some f => logged (mkInvocation f this []) w
      | None => w
      end /\
    step (Adopted this) w
    = match protoAdoptedCallback (classOf c) with
      | Some f => logged (mkInvocation f this []) w
      | None => w
      end.
Proof.
  intros w Hc.
  destruct (reachable classOf userConstructor validName getRejects native es)
    as [Hw Ha].
  fold w in Hw, Ha.
  destruct (attached_custom _ Ha this n Hc)
    as (info & inst & d & dr & Hi & He & Hd & _ & _ & Hpr).
  destruct (recorded_reached native es inst d Hd) as (_ & A & B & C & _).
  simpl in A, B, C.
  exists (UserCtor d). split; [done|]. simpl.
  rewrite !(reaction_custom _ this n w Hc).
  rewrite (connectedCallback_run n info this inst d w Hi He Hd).
  rewrite (disconnectedCallback_run n info this inst d w Hi He Hd).
  rewrite (adoptedCallback_run n this inst d w He Hd).
  simpl. rewrite A, B, C. done.
Qed.

(** What is known of a custom element in a world the module gets to. *)
Lemma custom_reached (native : gmap string Ctor) (es : list Event)
    (this n : positive) :
  let w := run es (loaded native) in
  custom w !! this = Some n ->
  exists info inst d dr,
    pivotClasses (registry w) !! n = Some info /\
    definitionForElement (registry w) !! this = Some inst /\
    heap (registry w) !! inst = Some d /\
    heap (registry w) !! registeredDefinition info = Some dr /\
    pivotObservedAttributes info = observedAttributes dr /\
    patches w !! this = (if decide (inst = registeredDefinition info) then None
                         else patchFor dr d).
Proof.
  intros w Hc.
  destruct (reachable classOf userConstructor validName getRejects native es)
    as [[_ Hs _] Ha].
  fold w in Hs, Ha.
  destruct (attached_custom _ Ha this n Hc)
    as (info & inst & d & dr & Hi & He & Hd & Hdr & Hpa & _).
  destruct (settled_pivot _ Hs n info Hi) as [_ (dr' & Hdr' & Hobs)].
  exists info, inst, d, dr. do 4 (split; [done|]). split; [|done].
  congruence.
Qed.

(** X14. What [setAttribute] on a custom element reports: the attribute is
    set, and the [attributeChangedCallback] of the definition of the
    element, when it has one, is called once, with the name, the old value
    and the new one, if the registered definition of its pivot class
    observes the name and either the element was upgraded with that
    definition or its own definition observes some attribute; in every
    other case no callback is called.  So a name that only the definition of
    the element observes is never reported, and a name that only the
    registered definition observes is. *)
Theorem setAttribute_reports (native : gmap string Ctor) (es : list Event)
    (this n : positive) (name value : string) :
  let w := run es (loaded native) in
  custom w !! this = Some n ->
  exists info inst d dr,
    pivotClasses (registry w) !! n = Some info /\
    definitionForElement (registry w) !! this = Some inst /\
    heap (registry w) !! inst = Some d /\
    heap (registry w) !! registeredDefinition info = Some dr /\
    step (SetAttribute this name value) w
    = set_invocations
        (fun l => (l ++ reported dr d
                          (bool_decide (inst = registeredDefinition info))
                          this name (attributes w !! (this, name))
                          (Some value))%list)
        (set_attributes <[(this, name) := value]> w).
Proof.
  intros w Hc.
  destruct (custom_reached native es this n Hc)
    as (info & inst & d & dr & Hi & He & Hd & Hdr & Hobs & Hpa).
  exists info, inst, d, dr. do 4 (split; [done|]). simpl.
  rewrite (setAttribute_run this n info inst d dr name value w); done.
Qed.

(** X15. What [removeAttribute] on a custom element reports: for an
    attribute the element has, the removal and the call [setAttribute] would
    make, with the old value and [null]; for an attribute it does not have,
    nothing is removed, and still the [attributeChangedCallback] is called
    with [(name, null, null)] when the element was upgraded with another
    definition than the registered one, the registered definition observes
    the name, and the definition of the element observes some attribute but
    not this one. *)
Theorem removeAttribute_reports (native : gmap string Ctor) (es : list Event)
    (this n : positive) (name : string) :
  let w := run es (loaded native) in
  custom w !! this = Some n ->
  exists info inst d dr,
    pivotClasses (registry w) !! n = Some info /\
    definitionForElement (registry w) !! this = Some inst /\
    heap (registry w) !! inst = Some d /\
    heap (registry w) !! registeredDefinition info = Some dr /\
    step (RemoveAttribute this name) w
    = match attributes w !! (this, name) with
      | Some v =>
          set_invocations
            (fun l => (l ++ reported dr d
                              (bool_decide (inst = registeredDefinition info))
                              this name (Some v) None)%list)
            (set_attributes (delete (this, name)) w)
      | None =>
          if bool_decide (inst = registeredDefinition info)
             || bool_decide (name ∈ observedAttributes d)
          then w
          else set_invocations
                 (fun l => (l ++ reported dr d false this name None None)%list) w
      end.
Proof.
  intros w Hc.
  destruct (custom_reached native es this n Hc)
    as (info & inst & d & dr & Hi & He & Hd & Hdr & Hobs & Hpa).
  exists info, inst, d, dr. do 4 (split; [done|]). subst w. simpl.
  set (w := run es (loaded native)) in *.
  rewrite (removeAttribute_run this n info inst d dr name w) by done. simpl.
  destruct (attributes w !! (this, name)) as [v|]; [done|].
  rewrite Hpa. unfold patchFor, reported, logged.
  assert (Hnil : set_invocations (fun l => (l ++ [])%list) w = w).
  { destruct w. unfold set_invocations. simpl. rewrite app_nil_r. done. }
  destruct (decide (inst = registeredDefinition info)) as [E|E].
  { rewrite (bool_decide_eq_true_2 _ E). done. }
  rewrite (bool_decide_eq_false_2 _ E). simpl.
  destruct (decide (name ∈ observedAttributes d)) as [Hin|Hin].
  { rewrite (bool_decide_eq_true_2 _ Hin).
    destruct (observedAttributes d) eqn:Ho; [done|].
    destruct (attributeChangedCallback d); [|done].
    destruct (getObservedAttributesOffset dr d) eqn:Hoff; [done|].
    rewrite <- Hoff. rewrite bool_decide_eq_false_2; [done|].
    rewrite offset_elem. rewrite Ho. tauto. }
  rewrite (bool_decide_eq_false_2 _ Hin).
  destruct (attributeChangedCallback d) as [cb|]; simpl.
  2: { destruct (observedAttributes d); rewrite ?Hnil; done. }
  destruct (observedAttributes d) eqn:Ho; simpl.
  { rewrite andb_false_r. rewrite Hnil. done. }
  rewrite <- Ho in *. rewrite andb_true_r.
  destruct (decide (name ∈ observedAttributes dr)) as [Hr|Hr].
  - rewrite (bool_decide_eq_true_2 _ Hr).
    assert (Hoff : name ∈ getObservedAttributesOffset dr d).
    { apply offset_elem. done. }
    destruct (getObservedAttributesOffset dr d) eqn:Eo.
    { apply not_elem_of_nil in Hoff. done. }
    rewrite (bool_decide_eq_true_2 _ Hoff). done.
  - rewrite (bool_decide_eq_false_2 _ Hr). rewrite Hnil.
    destruct (getObservedAttributesOffset dr d) eqn:Eo; [done|].
    rewrite <- Eo. rewrite bool_decide_eq_false_2; [done|].
    rewrite offset_elem. tauto.
Qed.

(** X16. After a [define] that returned, and whatever happens next, [new] on
    the defined class gets through [HTMLElement] to the pivot class of the
    name: with no element being upgraded, [HTMLElement] asks for
    [new PivotCtor(UserCtor)] with the class the native registry holds under
    the lower-cased name and the defined constructor, and writes nothing. *)
Theorem defined_class_constructs_its_pivot (native : gmap string Ctor)
    (es es' : list Event) (t : string) (c : Ctor)
    (o : option ElementDefinitionOptions) :
  let w := run es (loaded native) in
  let w' := run es' (step (Api (CallDefine t c o)) w) in
  fst (define t c o (registry w)) = inr tt ->
  exists n,
    nativeDefinitions (registry w') !! toLowerCase t = Some (PivotClass n) /\
    HTMLElement None c (registry w')
    = (inr (NewPivotCtor (PivotClass n) c, None), registry w').
Proof.
  intros w w' Hres.
  destruct (after_api native es es' (CallDefine t c o))
    as ([Hwf Hs _] & Hwf1 & _ & He).
  fold w in Hwf, Hs, Hwf1, He. fold w' in He. simpl in Hwf1, He.
  destruct (define t c o (registry w)) as [res s1] eqn:E.
  simpl in Hres, Hwf1, He. subst res.
  assert (Haw : awaitingUpgrade (registry w) !! toLowerCase t = None).
  { rewrite (settled_awaiting _ Hs). apply lookup_empty. }
  destruct (define_cases classOf validName getRejects constructs t c o
              (registry w) s1 (inr tt) Hwf Haw
              (fun p => settled_resolver _ Hs _ p) E)
    as [(e & [=] & _)
       |(r & s0 & d & _ & Hd & Hu & _ & _ & _ & _ & _
           & [(e & [=] & _)|(_ & _ & _ & ->)])].
  exists (fresh (dom (pivotClasses s0))).
  split.
  { apply (lookup_weaken _ _ _ _ (lookup_insert_eq _ _ _)
             (evolves_native _ _ He)). }
  assert (Hk : definitionsByClass (defined (toLowerCase t) c r d s0) !! c
               = Some r).
  { simpl. apply lookup_insert_eq. }
  assert (Hh : heap (defined (toLowerCase t) c r d s0) !! r
               = Some (withPivotCtor (PivotClass (fresh (dom (pivotClasses s0)))) d)).
  { simpl. rewrite lookup_alter_eq, Hd. done. }
  destruct (evolves_heap _ _ He _ _ Hh) as (d' & Hd' & (Hu' & _) & [Hp|Hp]).
  2: { simpl in Hp. rewrite Hu, lookup_insert_eq in Hp. discriminate. }
  unfold HTMLElement. munfold.
  rewrite (lookup_weaken _ _ _ _ Hk (evolves_class _ _ He)). simpl.
  rewrite Hd'. simpl. rewrite Hp. simpl. rewrite Hu'. simpl. rewrite Hu. done.
Qed.

(** X17. A class that only the helper registered cannot be constructed with
    [new]: the helper puts the class in [definitionsByClass] and leaves its
    record without a [PivotCtor], and no later event gives it one, so
    [HTMLElement] throws the [TypeError] of an illegal constructor. *)
Theorem helper_class_stays_illegal (native : gmap string Ctor)
    (es es' : list Event) (t : string) (c : Ctor) :
  let w := run es (loaded native) in
  let w' := run es' (step (Api (CallDefinePivot t c)) w) in
  pivotCtorByTag (registry w) !! toLowerCase t = None ->
  definitionsByClass (registry w) !! c = None ->
  hasObjectPrototype (classOf c) = true ->
  is_Some (definitionsByClass (registry w') !! c) /\
  HTMLElement None c (registry w')
  = (inl (TypeError "Illegal constructor"), registry w').
Proof.
  intros w w' Hpiv Hk Hp.
  destruct (after_api native es es' (CallDefinePivot t c))
    as ([Hwf Hs _] & _ & _ & He).
  fold w in Hwf, Hs, He. fold w' in He. simpl in He.
  destruct (definePivot t c (registry w)) as [res s1] eqn:E. simpl in He.
  destruct (getDefinitionForConstructor_keeps classOf c (registry w) Hwf Hs)
    as (_ & Hs0 & _).
  destruct (definePivot_cases classOf validName t c (registry w) s1 res Hwf E)
    as [(P & HP & _)|[(_ & Hp' & _)
        |(r & s0 & d & _ & _ & Hg & Hd & Hu & Hend)]]; [congruence|congruence|].
  destruct (getDefinitionForConstructor_result classOf c r _ s0 Hwf Hg)
    as (_ & _ & _ & _ & _ & Ek & _).
  rewrite Hg in Hs0. simpl in Hs0.
  assert (Hno : PivotCtor d = None).
  { destruct (PivotCtor d) as [P|] eqn:EP; [|done].
    pose proof (settled_back_pointer _ Hs0 r d P Hd EP) as Hb.
    rewrite Ek, Hu, Hk in Hb. discriminate. }
  assert (Hs1 : definitionsByClass s1 !! c = Some r /\ heap s1 !! r = Some d).
  { destruct Hend as [(e & _ & -> & _)|(_ & _ & _ & ->)]; simpl;
      rewrite lookup_insert_eq; done. }
  destruct Hs1 as [Hk1 Hd1].
  destruct (evolves_heap _ _ He _ _ Hd1) as (d' & Hd' & _ & [Hp'|Hp']).
  2: { rewrite Hu, Hk1 in Hp'. discriminate. }
  pose proof (lookup_weaken _ _ _ _ Hk1 (evolves_class _ _ He)) as Hk'.
  split; [eauto|].
  unfold HTMLElement. munfold. rewrite Hk'. simpl. rewrite Hd'. simpl.
  rewrite Hp', Hno. done.
Qed.

(** X18. A class the helper registered is served by [get]: after a call of
    the helper that made the pivot class of a name, and whatever happens
    next, [get] of the lower-cased name returns the class the helper was
    given, and writes nothing. *)
Theorem helper_class_is_served (native : gmap string Ctor)
    (es es' : list Event) (t : string) (c P : Ctor) :
  let w := run es (loaded native) in
  let w' := run es' (step (Api (CallDefinePivot t c)) w) in
  pivotCtorByTag (registry w) !! toLowerCase t = None ->
  fst (definePivot t c (registry w)) = inr P ->
  getRejects (toLowerCase t) = false ->
  get (toLowerCase t) (registry w') = (inr (Some c), registry w').
Proof.
  intros w w' Hpiv HP Hget.
  destruct (after_api native es es' (CallDefinePivot t c))
    as ([Hwf Hs _] & _ & _ & He).
  fold w in Hwf, Hs, He. fold w' in He. simpl in He.
  destruct (definePivot t c (registry w)) as [res s1] eqn:E.
  simpl in HP, He. subst res.
  destruct (definePivot_cases classOf validName t c (registry w) s1 (inr P)
              Hwf E)
    as [(P' & HP' & _)|[(_ & _ & [=] & _)
        |(r & s0 & d & _ & _ & _ & Hd & Hu
            & [(e & [=] & _)|(_ & _ & _ & ->)])]]; [congruence|].
  simpl in He.
  pose proof (lookup_weaken _ _ _ _ (lookup_insert_eq _ _ _)
                (evolves_native _ _ He)) as Hn.
  pose proof (lookup_weaken _ _ _ _ (lookup_insert_eq _ _ _)
                (evolves_tag _ _ He)) as Ht.
  destruct (evolves_heap _ _ He r d Hd) as (d' & Hd' & (Hu' & _) & _).
  unfold Registry.get, nativeGet. munfold. rewrite Hget. simpl.
  rewrite Hn. simpl. rewrite Ht. simpl. rewrite Hd'. simpl.
  rewrite Hu', Hu. done.
Qed.

End Behaviour.

(** ** The properties on a page *)

Section PageRuns.

Import Registry Lifecycle.

(** A value that is no constructor gets no record. *)
Lemma getDefinitionForConstructor_one_record_witness :
  Registry.getDefinitionForConstructor Page.classOf (UserClass 3) (initial ∅)
  = (inl (TypeError "The referenced constructor is not a constructor."),
     initial ∅).
Proof.
  apply (getDefinitionForConstructor_one_record Page.classOf (UserClass 3)
           (initial ∅) (wf_initial _ ∅)).
  reflexivity.
Defined.

(** The helper called for [X-Tag], a [get], and the helper called for
    [x-tag] with another class. *)
Lemma helper_name_stays_taken_witness :
  let w' := Page.run [Api (CallGet "x-tag")]
              (Page.step (Api (CallDefinePivot "X-Tag" (UserClass 1)))
                 (loaded ∅)) in
  Page.definePivot "x-tag" (UserClass 2) (registry w')
  = (inr (PivotClass 1), registry w').
Proof.
  intros w'.
  assert (H1 : fst (Page.definePivot "X-Tag" (UserClass 1)
                      (registry (Page.run [] (loaded ∅))))
               = inr (PivotClass 1)) by (vm_compute; reflexivity).
  assert (H2 : toLowerCase "x-tag" = toLowerCase "X-Tag") by reflexivity.
  exact (proj1 (helper_name_stays_taken Page.classOf Page.userConstructor
                  Host.validName Host.getRejects ∅ [] [Api (CallGet "x-tag")]
                  "X-Tag" "x-tag" (UserClass 1) (UserClass 2) (PivotClass 1)
                  None H1 H2)).
Defined.

(** [define] of [X-Tag], and the helper called for [x-tag]. *)
Lemma defined_name_keeps_its_pivot_witness :
  let w' := Page.run []
              (Page.step (Api (CallDefine "X-Tag" (UserClass 1) None))
                 (loaded ∅)) in
  exists n,
    nativeDefinitions (registry w') !! toLowerCase "X-Tag" = Some (PivotClass n) /\
    Page.definePivot "x-tag" (UserClass 2) (registry w')
    = (inr (PivotClass n), registry w').
Proof.
  intros w'.
  assert (H1 : fst (Page.define "X-Tag" (UserClass 1) None
                      (registry (Page.run [] (loaded ∅))))
               = inr tt) by (vm_compute; reflexivity).
  assert (H2 : toLowerCase "x-tag" = toLowerCase "X-Tag") by reflexivity.
  exact (defined_name_keeps_its_pivot Page.classOf Page.userConstructor
           Host.validName Host.getRejects ∅ [] [] "X-Tag" "x-tag"
           (UserClass 1) (UserClass 2) None H1 H2).
Defined.

(** [define] with a value that is no constructor, on a fresh registry. *)
Lemma define_checks_in_order_witness :
  snd (Page.define "x-tag" (UserClass 3) None (initial ∅)) = initial ∅.
Proof.
  apply (define_checks_in_order Page.classOf Page.userConstructor
           Host.validName Host.getRejects "x-tag" (UserClass 3) None (initial ∅)
           (wf_initial _ ∅) (settled_initial ∅)).
  right. right. right. left. reflexivity.
Defined.

(** [define] of a name without a hyphen, twice. *)
Lemma define_registers_before_native_define_witness :
  let s' := snd (Page.define "nohyphen" (UserClass 1) None (initial ∅)) in
  is_Some (definitionsByTag s' !! toLowerCase "nohyphen") /\
  nativeDefinitions s' = nativeDefinitions (initial ∅) /\
  (extendsGiven None = false ->
   Page.define "nohyphen" (UserClass 2) None s'
   = (inl (DOMException (nameUsedMessage (toLowerCase "nohyphen"))), s')).
Proof.
  intros s'.
  assert (H1 : definitionsByTag (initial ∅) !! toLowerCase "nohyphen" = None)
    by reflexivity.
  assert (H2 : definitionsByClass (initial ∅) !! UserClass 1 = None)
    by reflexivity.
  assert (H3 : Host.validName (toLowerCase "nohyphen") = false \/
               is_Some (nativeDefinitions (initial ∅) !! toLowerCase "nohyphen"))
    by (left; reflexivity).
  destruct (define_registers_before_native_define Page.classOf
              Page.userConstructor Host.validName Host.getRejects
              "nohyphen" (UserClass 1) (UserClass 2) None None (initial ∅)
              (wf_initial _ ∅) (settled_initial ∅) eq_refl eq_refl H1 eq_refl
              H2 H3)
    as (_ & A & _ & _ & B & C).
  exact (conj A (conj B C)).
Defined.

(** A name the native registry defined before the module was loaded:
    [whenDefined], then a [define] of the name, then [whenDefined] again. *)
Lemma pending_promise_stays_pending_witness :
  let w' := Page.run [Api (CallDefine "a-b" (UserClass 1) None)]
              (Page.step (Api (CallWhenDefined "a-b"))
                 (loaded {["a-b" := UserClass 9]})) in
  Registry.whenDefined Host.validName "a-b" (registry w')
  = (PendingOn 1, registry w').
Proof.
  intros w'.
  assert (H1 : fst (Registry.whenDefined Host.validName "a-b"
                      (registry (Page.run [] (loaded {["a-b" := UserClass 9]}))))
               = PendingOn 1) by (vm_compute; reflexivity).
  exact (pending_promise_stays_pending Page.classOf Page.userConstructor
           Host.validName Host.getRejects {["a-b" := UserClass 9]} []
           [Api (CallDefine "a-b" (UserClass 1) None)] "a-b" 1%positive H1).
Defined.

(** The engine loaded twice. *)
Lemma patch_only_once_witness :
  let s' := set_registryPatched true (initial ∅) in
  patchCustomElementRegistry s' = (inl (Error patchedTwiceMessage), s').
Proof.
  intros s'.
  exact (patch_only_once (initial ∅) s' s' eq_refl (evolves_refl s')).
Defined.

(** The record of the class of [x-tag]. *)
Lemma records_mirror_classes_witness :
  let d := withPivotCtor (PivotClass 1)
             (createDefinitionRecord Page.classOf (UserClass 1)) in
  connectedCallback d = protoConnectedCallback (Page.classOf (UserCtor d)) /\
  disconnectedCallback d = protoDisconnectedCallback (Page.classOf (UserCtor d)) /\
  adoptedCallback d = protoAdoptedCallback (Page.classOf (UserCtor d)) /\
  attributeChangedCallback d
  = protoAttributeChangedCallback (Page.classOf (UserCtor d)) /\
  NoDup (observedAttributes d) /\
  forall x, x ∈ observedAttributes d
            <-> x ∈ default [] (staticObservedAttributes (Page.classOf (UserCtor d))).
Proof.
  intros d.
  assert (H : heap (registry (Page.run Page.definedTag (loaded ∅))) !! 1%positive
              = Some d) by (vm_compute; reflexivity).
  exact (records_mirror_classes Page.classOf Page.userConstructor
           Host.validName Host.getRejects ∅ Page.definedTag 1%positive d H).
Defined.

(** The browser constructs an element of [x-tag]. *)
Lemma construction_upgrades_witness :
  let w := Page.run Page.definedTag (loaded ∅) in
  let w' := Page.step (Construct 1 None 7) w in
  exists r d,
    definitionForElement (registry w') !! 7%positive = Some r /\
    heap (registry w') !! r = Some d /\
    prototypes w' !! 7%positive = Some (PrototypeOf (UserCtor d)) /\
    custom w' !! 7%positive = Some 1%positive.
Proof.
  intros w w'.
  assert (H1 : pivotClasses (registry w) !! 1%positive
               = Some (mkPivotInfo "x-tag" 1 ["title"; "lang"]))
    by (vm_compute; reflexivity).
  assert (H2 : prototypes w !! 7%positive = None) by (vm_compute; reflexivity).
  destruct (construction_upgrades Page.classOf Page.userConstructor
              Host.validName Host.getRejects ∅ Page.definedTag 1%positive None
              7%positive (mk_is_Some _ _ H1) H2 I)
    as (r & d & _ & A & B & C & _ & D).
  exists r, d. exact (conj A (conj B (conj C D))).
Defined.

(** An element with a [title] is constructed for [x-tag] with a class that
    observes [lang] and [dir]. *)
Lemma upgrade_replays_offset_witness :
  let w := Page.run Page.withTitle (loaded ∅) in
  let w' := Page.step (Construct 1 (Some (UserClass 2)) 7) w in
  exists d dr,
    invocations w'
    = (invocations w ++
       match Lifecycle.constructs Page.userConstructor (UserCtor d) 7,
             attributeChangedCallback d, observedAttributes d with
       | None, Some cb, _ :: _ =>
           replayed 7 cb (attributes w) (getObservedAttributesOffset dr d)
       | _, _, _ => []
       end)%list.
Proof.
  intros w w'.
  assert (H1 : pivotClasses (registry w) !! 1%positive
               = Some (mkPivotInfo "x-tag" 1 ["title"; "lang"]))
    by (vm_compute; reflexivity).
  assert (H2 : prototypes w !! 7%positive = None) by (vm_compute; reflexivity).
  destruct (upgrade_replays_offset Page.classOf Page.userConstructor
              Host.validName Host.getRejects ∅
              Page.withTitle 1%positive
              (Some (UserClass 2)) 7%positive (mk_is_Some _ _ H1) H2 eq_refl)
    as (info & r & d & dr & _ & _ & _ & _ & A).
  exists d, dr. exact A.
Defined.

(** The element the browser constructed is connected. *)
Lemma lifecycle_callbacks_delegate_witness :
  let w := Page.run Page.browserElement (loaded ∅) in
  exists c,
    prototypes w !! 7%positive = Some (PrototypeOf c) /\
    Page.step (Connected 7) w
    = match protoConnectedCallback (Page.classOf c) with
      | Some f => logged (mkInvocation f 7 []) w
      | None => w
      end.
Proof.
  intros w.
  assert (H : custom w !! 7%positive = Some 1%positive)
    by (vm_compute; reflexivity).
  destruct (lifecycle_callbacks_delegate Page.classOf Page.userConstructor
              Host.validName Host.getRejects ∅ Page.browserElement 7%positive
              1%positive H)
    as (c & A & B & _).
  exists c. exact (conj A B).
Defined.

(** [setAttribute] on the element constructed with the other class. *)
Lemma setAttribute_reports_witness :
  let w := Page.run Page.scopedElement (loaded ∅) in
  exists info inst d dr,
    Page.step (SetAttribute 7 "title" "ho") w
    = set_invocations
        (fun l => (l ++ reported dr d
                          (bool_decide (inst = registeredDefinition info))
                          7 "title" (attributes w !! (7%positive, "title"))
                          (Some "ho"))%list)
        (set_attributes <[(7%positive, "title") := "ho"]> w).
Proof.
  intros w.
  assert (H : custom w !! 7%positive = Some 1%positive)
    by (vm_compute; reflexivity).
  destruct (setAttribute_reports Page.classOf Page.userConstructor
              Host.validName Host.getRejects ∅ Page.scopedElement 7%positive
              1%positive "title" "ho" H)
    as (info & inst & d & dr & _ & _ & _ & _ & A).
  exists info, inst, d, dr. exact A.
Defined.

(** [removeAttribute] of an attribute that element does not have. *)
Lemma removeAttribute_reports_witness :
  let w := Page.run Page.scopedElement (loaded ∅) in
  exists info inst d dr,
    Page.step (RemoveAttribute 7 "lang") w
    = match attributes w !! (7%positive, "lang") with
      | Some v =>
          set_invocations
            (fun l => (l ++ reported dr d
                              (bool_decide (inst = registeredDefinition info))
                              7 "lang" (Some v) None)%list)
            (set_attributes (delete (7%positive, "lang")) w)
      | None =>
          if bool_decide (inst = registeredDefinition info)
             || bool_decide ("lang" ∈ observedAttributes d)
          then w
          else set_invocations
                 (fun l => (l ++ reported dr d false 7 "lang" None None)%list) w
      end.
Proof.
  intros w.
  assert (H : custom w !! 7%positive = Some 1%positive)
    by (vm_compute; reflexivity).
  destruct (removeAttribute_reports Page.classOf Page.userConstructor
              Host.validName Host.getRejects ∅ Page.scopedElement 7%positive
              1%positive "lang" H)
    as (info & inst & d & dr & _ & _ & _ & _ & A).
  exists info, inst, d, dr. exact A.
Defined.

(** [new] on the class defined for [x-tag]. *)
Lemma defined_class_constructs_its_pivot_witness :
  let w' := Page.run [] (Page.step (Api (CallDefine "x-tag" (UserClass 1) None))
                           (loaded ∅)) in
  exists n,
    Lifecycle.HTMLElement None (UserClass 1) (registry w')
    = (inr (NewPivotCtor (PivotClass n) (UserClass 1), None), registry w').
Proof.
  intros w'.
  assert (H : fst (Page.define "x-tag" (UserClass 1) None
                     (registry (Page.run [] (loaded ∅))))
              = inr tt) by (vm_compute; reflexivity).
  destruct (defined_class_constructs_its_pivot Page.classOf Page.userConstructor
              Host.validName Host.getRejects ∅ [] [] "x-tag" (UserClass 1) None H)
    as (n & _ & A).
  exists n. exact A.
Defined.

(** [new] on a class the helper registered for [x-tag]. *)
Lemma helper_class_stays_illegal_witness :
  let w' := Page.run []
              (Page.step (Api (CallDefinePivot "x-tag" (UserClass 1)))
                 (loaded ∅)) in
  Lifecycle.HTMLElement None (UserClass 1) (registry w')
  = (inl (TypeError "Illegal constructor"), registry w').
Proof.
  intros w'.
  assert (H1 : pivotCtorByTag (registry (Page.run [] (loaded ∅)))
                 !! toLowerCase "x-tag" = None) by reflexivity.
  assert (H2 : definitionsByClass (registry (Page.run [] (loaded ∅)))
                 !! UserClass 1 = None) by reflexivity.
  exact (proj2 (helper_class_stays_illegal Page.classOf Page.userConstructor
                  Host.validName Host.getRejects ∅ [] [] "x-tag" (UserClass 1)
                  H1 H2 eq_refl)).
Defined.

(** The helper called for [X-Tag], and [get] of [x-tag]. *)
Lemma helper_class_is_served_witness :
  let w' := Page.run []
              (Page.step (Api (CallDefinePivot "X-Tag" (UserClass 1)))
                 (loaded ∅)) in
  Registry.get Host.getRejects (toLowerCase "X-Tag") (registry w')
  = (inr (Some (UserClass 1)), registry w').
Proof.
  intros w'.
  assert (H1 : pivotCtorByTag (registry (Page.run [] (loaded ∅)))
                 !! toLowerCase "X-Tag" = None) by reflexivity.
  assert (H2 : fst (Page.definePivot "X-Tag" (UserClass 1)
                      (registry (Page.run [] (loaded ∅))))
               = inr (PivotClass 1)) by (vm_compute; reflexivity).
  exact (helper_class_is_served Page.classOf Page.userConstructor
           Host.validName Host.getRejects ∅ [] [] "X-Tag" (UserClass 1)
           (PivotClass 1) H1 H2 eq_refl).
Defined.

End PageRuns.
